(** * Status update manager: streams, checkpoint log, retry and recovery

    A shallow embedding of
    [src/status_update_manager/status_update_manager_process.hpp]
    (class template [StatusUpdateManagerProcess] and its nested class
    [StatusUpdateStream]) together with the properties its specification
    states about it.

    Conventions of the embedding.
    - A failed [CHECK] aborts the process: every operation returns an
      [option], and [None] is the abort.
    - [Try<T>] and [Result<T>] are the inductive types [Try] and [Result];
      error messages are the constructors of [Error].
    - The file system, the clock, the timers armed with [delay] and the calls
      of the forward callback are explicit components of the state.
    - The outcome of every system call that can fail for reasons outside the
      program is read from an oracle of type [IO]. *)

From stdpp Require Import base option list gmap sets strings pretty fin_maps.
From Stdlib Require Import ZArith Lia.

Set Default Proof Using "Type".

(** ** Identifiers, updates and checkpoint records *)

(** [IDType] of the template; any hashable value type. *)
Abbreviation StreamId := nat (only parsing).
(** [FrameworkID] is a protobuf message holding one string. *)
Abbreviation FrameworkID := string (only parsing).
(** A UUID is 16 bytes, kept as the number they spell.  The protobuf field
    [status_uuid] is modelled by the UUID it decodes to: [UUID::fromBytes]
    followed by [CHECK_SOME] aborts on a missing field, and that abort is
    kept in [_handle] and [acknowledgement] below. *)
Abbreviation UUID := N (only parsing).
(** The value of the protobuf enum [update.status().state()]. *)
Abbreviation StateValue := Z (only parsing).
(** An absolute path as the list of its components; [[]] is the root. *)
Abbreviation Path := (list string) (only parsing).
(** [Duration] and [process::Timeout] count nanoseconds. *)
Abbreviation Duration := Z (only parsing).
Abbreviation Time := Z (only parsing).

(** [UpdateType]: the three things the manager reads from an update. *)
Record Update := mkUpdate {
  status_uuid : option UUID;          (* has_status_uuid / status_uuid *)
  framework_id : option FrameworkID;  (* has_framework_id / framework_id *)
  status_state : StateValue           (* status().state() *)
}.

Definition has_status_uuid (u : Update) : bool := bool_decide (is_Some (status_uuid u)).
Definition has_framework_id (u : Update) : bool := bool_decide (is_Some (framework_id u)).

#[global] Instance Update_eq_dec : EqDecision Update.
Proof. solve_decision. Defined.

(** [CheckpointType::Type]. *)
Inductive CheckpointType := ACK | UPDATE.

(** [CheckpointType]: a record of the log, either a full update or the
    [status_uuid] bytes of the acknowledged update. *)
Inductive CheckpointRecord :=
| RecUpdate (u : Update)
| RecAck (uuid : option UUID).

#[global] Instance CheckpointRecord_eq_dec : EqDecision CheckpointRecord.
Proof. solve_decision. Defined.

(** [record.type()]. *)
Definition record_type (r : CheckpointRecord) : CheckpointType :=
  match r with RecUpdate _ => UPDATE | RecAck _ => ACK end.

(** ** Errors, [Try] and [Result] *)

Inductive Error :=
| MissingStatusUuid        (* "Status update is missing 'status_uuid'" *)
| UnexpectedAck            (* "Unexpected status update acknowledgment ..." *)
| WriteFailed              (* "Failed to write acknowledgement for status update ..." *)
| AlreadyExists            (* "The status updates file ... already exists." *)
| MkdirFailed              (* "Failed to create ..." *)
| OpenFailed               (* "Failed to open ... for status updates" *)
| OpenStreamFileFailed     (* "Failed to open status updates stream file ..." *)
| LseekFailed              (* "Failed to lseek status updates stream file ..." *)
| TruncateFailed           (* "Failed to truncate status updates file ..." *)
| ReadFailed               (* "Failed to read status updates file ..." *)
| RemoveFailed             (* "Failed to remove status updates file ..." *)
| MismatchedCheckpoint     (* "Mismatched checkpoint value for status update ..." *)
| MismatchedFrameworkID    (* "Mismatched framework ID for status update ..." *)
| CannotFindStream         (* "Cannot find the status update stream ..." *)
| DuplicateAck             (* "Duplicate status update acknowledgement" *)
| RecoverFailed (e : Error). (* "Failed to recover status update stream ...: " + e *)

#[global] Instance Error_eq_dec : EqDecision Error.
Proof. solve_decision. Defined.

(** [Try<T>] (also [process::Future<T>], which is always ready here). *)
Inductive Try (A : Type) :=
| Err (e : Error)
| Val (a : A).
Arguments Err {A} e.
Arguments Val {A} a.

(** [Result<T>]. *)
Inductive Result (A : Type) :=
| RError (e : Error)
| RNone
| RSome (a : A).
Arguments RError {A} e.
Arguments RNone {A}.
Arguments RSome {A} a.

(** ** The file system *)

(** Modelled from the spec: what [::protobuf::read(fd, true, true)], whose
    code is not part of the source at hand, meets at the current offset of a
    log.  A complete record is returned; a truncated tail record makes the
    reader stop and report none (partial reads are ignored); bytes that do
    not parse are a read error.  In the last two cases the offset is put
    back where it was (failed reads are undone). *)
Inductive Chunk :=
| Good (r : CheckpointRecord)
| Torn
| Corrupt.

#[global] Instance Chunk_eq_dec : EqDecision Chunk.
Proof. solve_decision. Defined.

(** The files that hold logs, each as the chunks a reader meets, and the
    directories. *)
Record FS := mkFS {
  files : gmap (list string) (list Chunk);
  dirs : gset (list string)
}.

(** How a write that fails leaves the file. *)
Inductive WriteOutcome :=
| WriteOk
| WriteError (torn : bool).

(** The outcome of the system calls, per path. *)
Record IO := mkIO {
  mkdir_fails : Path → bool;
  open_fails : Path → bool;
  write_outcome : Path → WriteOutcome;
  lseek_fails : Path → bool;
  ftruncate_fails : Path → bool;
  rm_fails : Path → bool
}.

(** No system call fails. *)
Definition io_ok : IO :=
  mkIO (λ _, false) (λ _, false) (λ _, WriteOk) (λ _, false) (λ _, false) (λ _, false).

(** Modelled from the spec: [Path(p).dirname()], the parent directory of a
    path; its code is not part of the source at hand. *)
Definition dirname (p : Path) : Path := removelast p.

(** Modelled from the spec: [os::exists], true of the root, of a file and of
    a directory; its code is not part of the source at hand. *)
Definition os_exists (fs : FS) (p : Path) : bool :=
  bool_decide (p = []) || bool_decide (p ∈ dom (files fs)) || bool_decide (p ∈ dirs fs).

(** The directory [d] and the directories above it. *)
Definition ancestors (d : Path) : list Path :=
  (λ n, take n d) <$> seq 0 (S (length d)).

(** Modelled from the spec: [os::mkdir(d)], which creates the directory and
    the missing ones above it, and fails where a file is in the way; its
    code is not part of the source at hand. *)
Definition os_mkdir (io : IO) (fs : FS) (d : Path) : Try FS :=
  if mkdir_fails io d then Err MkdirFailed
  else if bool_decide (Exists (λ a, a ∈ dom (files fs)) (ancestors d)) then Err MkdirFailed
  else Val (mkFS (files fs) (list_to_set (ancestors d) ∪ dirs fs)).

(** Modelled from the spec: [os::open(p, O_CREAT | O_SYNC | O_WRONLY |
    O_CLOEXEC, ...)], which creates the file, empty, when it is missing;
    its code is not part of the source at hand. *)
Definition os_open_create (io : IO) (fs : FS) (p : Path) : Try FS :=
  if open_fails io p then Err OpenFailed
  else if bool_decide (p ∈ dirs fs) || negb (os_exists fs (dirname p)) then Err OpenFailed
  else match files fs !! p with
       | Some _ => Val fs
       | None => Val (mkFS (<[p := []]> (files fs)) (dirs fs))
       end.

(** Modelled from the spec: [os::open(p, O_SYNC | O_RDWR | O_CLOEXEC)],
    which needs the file to exist; the result stands for the descriptor by
    the content it reads.  Its code is not part of the source at hand. *)
Definition os_open_rdwr (io : IO) (fs : FS) (p : Path) : Try (list Chunk) :=
  if open_fails io p then Err OpenStreamFileFailed
  else match files fs !! p with
       | Some f => Val f
       | None => Err OpenStreamFileFailed
       end.

(** Modelled from the spec: [::protobuf::write(fd, record)], a synchronous
    append of one record; its code is not part of the source at hand.  The
    descriptor of a stream has its offset at the end of the file (the file
    is new, or was cut at the offset the replay reached).  A write that
    fails may leave the start of a record behind.  A descriptor of a file
    that was removed still accepts the write, which is then invisible. *)
Definition protobuf_write (io : IO) (fs : FS) (p : Path) (r : CheckpointRecord)
  : Try FS * FS :=
  match write_outcome io p with
  | WriteOk =>
      let fs' := mkFS (alter (λ f, f ++ [Good r]) p (files fs)) (dirs fs) in
      (Val fs', fs')
  | WriteError torn =>
      let fs' := if torn then mkFS (alter (λ f, f ++ [Torn]) p (files fs)) (dirs fs)
                 else fs in
      (Err WriteFailed, fs')
  end.

(** Modelled from the spec: [os::ftruncate(fd, pos)] with [pos], the offset
    [os::lseek(fd, 0, SEEK_CUR)] returns, counted in chunks; its code is not
    part of the source at hand. *)
Definition os_ftruncate (io : IO) (fs : FS) (p : Path) (pos : nat) : Try FS :=
  if ftruncate_fails io p then Err TruncateFailed
  else Val (mkFS (alter (take pos) p (files fs)) (dirs fs)).

(** Modelled from the spec: [os::rm(p)]; its code is not part of the source
    at hand. *)
Definition os_rm (io : IO) (fs : FS) (p : Path) : Try FS :=
  if rm_fails io p then Err RemoveFailed
  else Val (mkFS (delete p (files fs)) (dirs fs)).

(** ** [StatusUpdateStream] *)

Module StatusUpdateStream.

(** The stream object.  The descriptor [fd] is not a field of its own: both
    constructor calls pass [fd] exactly when they pass [path], so [fd] is
    the open file at [path] and [CHECK_SOME(fd)] holds under
    [checkpointed()]. *)
Record t := mk {
  terminated : bool;
  frameworkId : option FrameworkID;
  timeout : option Time;
  pending : list Update;
  streamId : StreamId;
  path : option Path;
  received : gset N;
  acknowledged : gset N;
  error : option Error
}.

(** [StatusUpdateStream::State]. *)
Record State := mkState {
  updates : list Update;
  state_error : bool;
  state_terminated : bool
}.

(** The private constructor [StatusUpdateStream(_streamId, _path, _fd)]. *)
Definition new (sid : StreamId) (p : option Path) : t :=
  mk false None None [] sid p ∅ ∅ None.

Definition set_timeout (o : option Time) (s : t) : t :=
  mk (terminated s) (frameworkId s) o (pending s) (streamId s) (path s)
     (received s) (acknowledged s) (error s).

Definition set_frameworkId (o : option FrameworkID) (s : t) : t :=
  mk (terminated s) o (timeout s) (pending s) (streamId s) (path s)
     (received s) (acknowledged s) (error s).

Definition set_error (o : option Error) (s : t) : t :=
  mk (terminated s) (frameworkId s) (timeout s) (pending s) (streamId s) (path s)
     (received s) (acknowledged s) o.

(** [checkpointed()]. *)
Definition checkpointed (s : t) : bool := bool_decide (is_Some (path s)).

(** [next()]. *)
Definition next (s : t) : Result Update :=
  match error s with
  | Some e => RError e
  | None =>
      match pending s with
      | u :: _ => RSome u
      | [] => RNone
      end
  end.

(** [create(streamId, frameworkId, path)]. *)
Definition create (io : IO) (sid : StreamId) (fid : option FrameworkID)
    (p : option Path) (fs : FS) : Try t * FS :=
  match p with
  | Some p =>
      if os_exists fs p then (Err AlreadyExists, fs)
      else
        match os_mkdir io fs (dirname p) with
        | Err e => (Err e, fs)
        | Val fs1 =>
            match os_open_create io fs1 p with
            | Err e => (Err e, fs1)
            | Val fs2 => (Val (set_frameworkId fid (new sid (Some p))), fs2)
            end
        end
  | None => (Val (set_frameworkId fid (new sid None)), fs)
  end.

Section WithTerminal.

(** [protobuf::isTerminalState], declared in [common/protobuf_utils.hpp]. *)
Variable isTerminalState : StateValue → bool.

(** [_handle(update, type)]: the update or acknowledgement applied to the
    structures in memory.  [pending.pop()] is only reached with a non-empty
    queue. *)
Definition _handle (u : Update) (type : CheckpointType) (s : t) : option t :=
  if bool_decide (is_Some (error s)) then None            (* CHECK_NONE(error) *)
  else
    statusUuid ← status_uuid u;                            (* CHECK_SOME(statusUuid) *)
    match type with
    | UPDATE =>
        Some (mk (terminated s)
                 (if has_framework_id u then framework_id u else frameworkId s)
                 (timeout s)
                 (pending s ++ [u])
                 (streamId s) (path s)
                 ({[statusUuid]} ∪ received s)
                 (acknowledged s)
                 (error s))
    | ACK =>
        Some (mk (if terminated s then true else isTerminalState (status_state u))
                 (frameworkId s)
                 (timeout s)
                 (tail (pending s))
                 (streamId s) (path s)
                 (received s)
                 ({[statusUuid]} ∪ acknowledged s)
                 (error s))
    end.

(** [handle(update, type)]: checkpoint, then [_handle]. *)
Definition handle (io : IO) (u : Update) (type : CheckpointType) (s : t) (fs : FS)
  : option (Try unit * t * FS) :=
  if bool_decide (is_Some (error s)) then None            (* CHECK_NONE(error) *)
  else
    match path s with
    | Some p =>
        let record :=
          match type with
          | UPDATE => RecUpdate u
          | ACK => RecAck (status_uuid u)
          end in
        match protobuf_write io fs p record with
        | (Err e, fs') => Some (Err e, set_error (Some e) s, fs')
        | (Val _, fs') => s' ← _handle u type s; Some (Val (), s', fs')
        end
    | None => s' ← _handle u type s; Some (Val (), s', fs)
    end.

(** [update(update)]. *)
Definition update (io : IO) (u : Update) (s : t) (fs : FS)
  : option (Try bool * t * FS) :=
  match error s with
  | Some e => Some (Err e, s, fs)
  | None =>
      match status_uuid u with
      | None => Some (Err MissingStatusUuid, s, fs)
      | Some statusUuid =>
          if bool_decide (statusUuid ∈ acknowledged s) then Some (Val false, s, fs)
          else if bool_decide (statusUuid ∈ received s) then Some (Val false, s, fs)
          else
            '(result, s', fs') ← handle io u UPDATE s fs;
            match result with
            | Err e => Some (Err e, s', fs')
            | Val _ => Some (Val true, s', fs')
            end
      end
  end.

(** [acknowledgement(statusUuid)]. *)
Definition acknowledgement (io : IO) (statusUuid : UUID) (s : t) (fs : FS)
  : option (Try bool * t * FS) :=
  match error s with
  | Some e => Some (Err e, s, fs)
  | None =>
      match next s with
      | RError e => Some (Err e, s, fs)
      | RNone => Some (Err UnexpectedAck, s, fs)
      | RSome u =>
          if bool_decide (statusUuid ∈ acknowledged s) then Some (Val false, s, fs)
          else
            updateStatusUuid ← status_uuid u;              (* CHECK_SOME *)
            if bool_decide (statusUuid ≠ updateStatusUuid) then Some (Val false, s, fs)
            else
              '(result, s', fs') ← handle io u ACK s fs;
              match result with
              | Err e => Some (Err e, s', fs')
              | Val _ => Some (Val true, s', fs')
              end
      end
  end.

(** What the loop of [recover] leaves behind: an early [return Error(...)],
    or the stream, the updates seen, the offset reached and the last value
    of [record] (none or an error). *)
Inductive Replay :=
| ReplayFailed (e : Error)
| ReplayDone (s : t) (ups : list Update) (pos : nat) (corrupt : bool).

(** The [while (true)] loop of [recover], on what is left of the file. *)
Fixpoint replay (chunks : list Chunk) (s : t) (ups : list Update) (pos : nat)
  : option Replay :=
  match chunks with
  | [] => Some (ReplayDone s ups pos false)
  | Torn :: _ => Some (ReplayDone s ups pos false)
  | Corrupt :: _ => Some (ReplayDone s ups pos true)
  | Good record :: rest =>
      match record with
      | RecAck _ =>
          match next s with
          | RError e => Some (ReplayFailed e)
          | RNone => Some (ReplayFailed UnexpectedAck)
          | RSome u => s' ← _handle u ACK s; replay rest s' ups (S pos)
          end
      | RecUpdate u =>
          s' ← _handle u UPDATE s; replay rest s' (ups ++ [u]) (S pos)
      end
  end.

(** [recover(streamId, path, strict)]. *)
Definition recover (io : IO) (sid : StreamId) (p : Path) (strict : bool) (fs : FS)
  : option (Result (t * State) * FS) :=
  if os_exists fs (dirname p) && negb (os_exists fs p) then Some (RNone, fs)
  else
    match os_open_rdwr io fs p with
    | Err e => Some (RError e, fs)
    | Val chunks =>
        r ← replay chunks (new sid (Some p)) [] 0;
        match r with
        | ReplayFailed e => Some (RError e, fs)
        | ReplayDone stream ups pos corrupt =>
            if lseek_fails io p then Some (RError LseekFailed, fs)
            else
              match os_ftruncate io fs p pos with
              | Err e => Some (RError e, fs)
              | Val fs1 =>
                  if corrupt && strict then Some (RError ReadFailed, fs1)
                  else
                    let state := mkState ups corrupt (terminated stream) in
                    match ups with
                    | [] =>
                        match os_rm io fs1 p with
                        | Err e => Some (RError e, fs1)
                        | Val fs2 => Some (RNone, fs2)
                        end
                    | _ :: _ => Some (RSome (stream, state), fs1)
                    end
              end
        end
    end.

End WithTerminal.

End StatusUpdateStream.

(** ** [StatusUpdateManagerProcess] *)

Module StatusUpdateManagerProcess.

(** Modelled from the spec: a message to self scheduled by [delay(duration,
    self(), &timeout, streamId, duration)] of libprocess, whose code is not
    part of the source at hand.  It is delivered once [due] has passed and
    then runs [timeout(streamId, duration)]. *)
Record Timer := mkTimer {
  due : Time;
  timer_stream : StreamId;
  timer_duration : Duration
}.

(** The actor and what it acts on.  [streams], [frameworkStreams] and
    [paused] are its fields; [clock] is [Clock::now()], [timers] the messages
    scheduled with [delay] and not yet delivered, [forwarded] the calls of
    [forwardCallback] so far (oldest first), [fs] the file system. *)
Record t := mk {
  streams : gmap nat StatusUpdateStream.t;
  frameworkStreams : gmap string (gset nat);
  paused : bool;
  clock : Time;
  timers : list Timer;
  forwarded : list Update;
  fs : FS
}.

(** [State::StreamState]. *)
Record StreamState := mkStreamState {
  updates : list Update;
  terminated : bool
}.

(** [State]. *)
Record State := mkState {
  state_streams : gmap nat (option StreamState);
  errors : nat
}.

(** The actor after its constructor, on a given file system and clock. *)
Definition init (now : Time) (fs0 : FS) : t :=
  mk ∅ ∅ false now [] [] fs0.

Definition set_streams (x : gmap nat StatusUpdateStream.t) (m : t) : t :=
  mk x (frameworkStreams m) (paused m) (clock m) (timers m) (forwarded m) (fs m).

Definition set_frameworkStreams (x : gmap string (gset nat)) (m : t) : t :=
  mk (streams m) x (paused m) (clock m) (timers m) (forwarded m) (fs m).

Definition set_paused (x : bool) (m : t) : t :=
  mk (streams m) (frameworkStreams m) x (clock m) (timers m) (forwarded m) (fs m).

Definition set_clock (x : Time) (m : t) : t :=
  mk (streams m) (frameworkStreams m) (paused m) x (timers m) (forwarded m) (fs m).

Definition set_timers (x : list Timer) (m : t) : t :=
  mk (streams m) (frameworkStreams m) (paused m) (clock m) x (forwarded m) (fs m).

Definition set_fs (x : FS) (m : t) : t :=
  mk (streams m) (frameworkStreams m) (paused m) (clock m) (timers m) (forwarded m) x.

(** [streams[streamId] = stream]. *)
Definition put_stream (sid : StreamId) (s : StatusUpdateStream.t) (m : t) : t :=
  set_streams (<[sid := s]> (streams m)) m.

(** [frameworkStreams[frameworkId]], which is empty when the key is new. *)
Definition streams_of (fid : FrameworkID) (index : gmap string (gset nat)) : gset nat :=
  default ∅ (index !! fid).

(** [frameworkStreams[frameworkId].insert(streamId)]. *)
Definition index_insert (fid : FrameworkID) (sid : StreamId)
    (index : gmap string (gset nat)) : gmap string (gset nat) :=
  <[fid := {[sid]} ∪ streams_of fid index]> index.

(** Run [f] on every element of [l] in turn; an abort stops everything. *)
Fixpoint foreach {A} (f : A → t → option t) (l : list A) (m : t) : option t :=
  match l with
  | [] => Some m
  | x :: l' => m' ← f x m; foreach f l' m'
  end.

(** [pause()]. *)
Definition pause (m : t) : t := set_paused true m.

(** [cleanupStatusUpdateStream(streamId)]. *)
Definition cleanupStatusUpdateStream (sid : StreamId) (m : t) : option t :=
  stream ← streams m !! sid;                     (* CHECK(streams.contains(streamId)) *)
  index ←
    match StatusUpdateStream.frameworkId stream with
    | Some frameworkId =>
        ids ← (frameworkStreams m !! frameworkId : option (gset nat));
                                                 (* CHECK(frameworkStreams.contains(..)) *)
        let ids' : gset nat := ids ∖ {[sid]} in
        if bool_decide (ids' = ∅) then Some (delete frameworkId (frameworkStreams m))
        else Some (<[frameworkId := ids']> (frameworkStreams m))
    | None => Some (frameworkStreams m)
    end;
  Some (set_streams (delete sid (streams m)) (set_frameworkStreams index m)).

(** [cleanup(frameworkId)]. *)
Definition cleanup (frameworkId : FrameworkID) (m : t) : option t :=
  match frameworkStreams m !! frameworkId with
  | Some ids => foreach cleanupStatusUpdateStream (elements ids) m
  | None => Some m
  end.

Section WithCollaborators.

(** [protobuf::isTerminalState], declared in [common/protobuf_utils.hpp]. *)
Variable isTerminalState : StateValue → bool.
(** The callback [getPath] handed to [initialize]. *)
Variable getPath : StreamId → Path.
(** [slave::STATUS_UPDATE_RETRY_INTERVAL_MIN] and [..._MAX], declared in
    [slave/constants.hpp].  [duration * 2] below is exact for durations up
    to [RETRY_MAX]. *)
Variable RETRY_MIN RETRY_MAX : Duration.

(** [createStatusUpdateStream(streamId, frameworkId, checkpoint)]. *)
Definition createStatusUpdateStream (io : IO) (sid : StreamId)
    (frameworkId : option FrameworkID) (checkpoint : bool) (m : t) : Try unit * t :=
  match StatusUpdateStream.create io sid frameworkId
          (if checkpoint then Some (getPath sid) else None) (fs m) with
  | (Err e, fs') => (Err e, set_fs fs' m)
  | (Val stream, fs') =>
      let m1 := put_stream sid stream (set_fs fs' m) in
      (Val (),
       match frameworkId with
       | Some f => set_frameworkStreams (index_insert f sid (frameworkStreams m1)) m1
       | None => m1
       end)
  end.

(** [forward(streamId, update, duration)]: calls the callback and schedules
    [timeout(streamId, duration)]; returns the timeout of that timer. *)
Definition forward (sid : StreamId) (u : Update) (duration : Duration) (m : t)
  : option (Time * t) :=
  if paused m then None                                    (* CHECK(!paused) *)
  else
    let deadline := (clock m + duration)%Z in
    Some (deadline,
          mk (streams m) (frameworkStreams m) (paused m) (clock m)
             (timers m ++ [mkTimer deadline sid duration])
             (forwarded m ++ [u])
             (fs m)).

(** [stream->timeout = forward(streamId, update, duration)] for the stream
    [stream] registered under [sid]. *)
Definition forward_and_arm (sid : StreamId) (stream : StatusUpdateStream.t)
    (u : Update) (duration : Duration) (m : t) : option t :=
  '(deadline, m') ← forward sid u duration m;
  Some (put_stream sid (StatusUpdateStream.set_timeout (Some deadline) stream) m').

(** [update(update, streamId, checkpoint)]. *)
Definition update (io : IO) (u : Update) (sid : StreamId) (checkpoint : bool) (m : t)
  : option (Try unit * t) :=
  let '(create, m1) :=
    match streams m !! sid with
    | None => createStatusUpdateStream io sid (framework_id u) checkpoint m
    | Some _ => (Val (), m)
    end in
  match create with
  | Err e => Some (Err e, m1)
  | Val _ =>
      stream ← streams m1 !! sid;                          (* CHECK(streams.contains(streamId)) *)
      if negb (eqb (StatusUpdateStream.checkpointed stream) checkpoint)
      then Some (Err MismatchedCheckpoint, m1)
      else if negb (eqb (has_framework_id u)
                        (bool_decide (is_Some (StatusUpdateStream.frameworkId stream))))
      then Some (Err MismatchedFrameworkID, m1)
      else if has_framework_id u
              && bool_decide (framework_id u ≠ StatusUpdateStream.frameworkId stream)
      then Some (Err MismatchedFrameworkID, m1)
      else
        '(result, stream', fs') ← StatusUpdateStream.update isTerminalState io u stream (fs m1);
        let m2 := put_stream sid stream' (set_fs fs' m1) in
        match result with
        | Err e => Some (Err e, m2)
        | Val false => Some (Val (), m2)
        | Val true =>
            if negb (paused m2) && bool_decide (length (StatusUpdateStream.pending stream') = 1%nat)
            then
              if bool_decide (is_Some (StatusUpdateStream.timeout stream')) then None
                                                            (* CHECK_NONE(stream->timeout) *)
              else
                match StatusUpdateStream.next stream' with
                | RError e => Some (Err e, m2)
                | RNone => None                             (* CHECK_SOME(next) *)
                | RSome next =>
                    m3 ← forward_and_arm sid stream' next RETRY_MIN m2;
                    Some (Val (), m3)
                end
            else Some (Val (), m2)
        end
  end.

(** [acknowledgement(streamId, uuid)]. *)
Definition acknowledgement (io : IO) (sid : StreamId) (uuid : UUID) (m : t)
  : option (Try bool * t) :=
  match streams m !! sid with
  | None => Some (Err CannotFindStream, m)
  | Some stream =>
      '(result, stream1, fs') ← StatusUpdateStream.acknowledgement isTerminalState io uuid stream (fs m);
      let m1 := put_stream sid stream1 (set_fs fs' m) in
      match result with
      | Err e => Some (Err e, m1)
      | Val false => Some (Err DuplicateAck, m1)
      | Val true =>
          let stream2 := StatusUpdateStream.set_timeout None stream1 in
          let m2 := put_stream sid stream2 m1 in
          match StatusUpdateStream.next stream2 with
          | RError e => Some (Err e, m2)
          | next =>
              let terminated := StatusUpdateStream.terminated stream2 in
              if terminated then
                m3 ← cleanupStatusUpdateStream sid m2;
                Some (Val (negb terminated), m3)
              else
                match next with
                | RSome n =>
                    if negb (paused m2) then
                      m3 ← forward_and_arm sid stream2 n RETRY_MIN m2;
                      Some (Val (negb terminated), m3)
                    else Some (Val (negb terminated), m2)
                | _ => Some (Val (negb terminated), m2)
                end
          end
      end
  end.

(** [recoverStatusUpdateStream(streamId, strict)]. *)
Definition recoverStatusUpdateStream (io : IO) (sid : StreamId) (strict : bool) (m : t)
  : option (Result StatusUpdateStream.State * t) :=
  '(result, fs') ← StatusUpdateStream.recover isTerminalState io sid (getPath sid) strict (fs m);
  let m1 := set_fs fs' m in
  match result with
  | RError e => Some (RError e, m1)
  | RNone => Some (RNone, m1)
  | RSome (stream, streamState) =>
      if StatusUpdateStream.terminated stream then Some (RSome streamState, m1)
      else
        let m2 :=
          match StatusUpdateStream.frameworkId stream with
          | Some f => set_frameworkStreams (index_insert f sid (frameworkStreams m1)) m1
          | None => m1
          end in
        match StatusUpdateStream.next stream with
        | RError e => Some (RError e, m2)
        | RSome n =>
            if negb (paused m2) then
              m3 ← forward_and_arm sid stream n RETRY_MIN m2;
              Some (RSome streamState, m3)
            else Some (RSome streamState, put_stream sid stream m2)
        | RNone => Some (RSome streamState, put_stream sid stream m2)
        end
  end.

(** The strict branch of [recover]: every stream is cleaned up, and the two
    maps are checked to be empty. *)
Definition cleanup_all (m : t) : option t :=
  m' ← foreach cleanupStatusUpdateStream (elements (dom (streams m))) m;
  if bool_decide (streams m' = ∅) && bool_decide (frameworkStreams m' = ∅)
  then Some m' else None.

(** The [foreach] of [recover(streamIds, strict)], with [state] as built so
    far. *)
Fixpoint recover_from (io : IO) (streamIds : list StreamId) (strict : bool)
    (state : State) (m : t) : option (Try State * t) :=
  match streamIds with
  | [] => Some (Val state, m)
  | sid :: rest =>
      '(result, m1) ← recoverStatusUpdateStream io sid strict m;
      match result with
      | RError e =>
          if strict then
            m2 ← cleanup_all m1;
            Some (Err (RecoverFailed e), m2)
          else recover_from io rest strict (mkState (state_streams state) (S (errors state))) m1
      | RNone =>
          recover_from io rest strict
            (mkState (<[sid := None]> (state_streams state)) (errors state)) m1
      | RSome streamState =>
          recover_from io rest strict
            (mkState
               (<[sid := Some (mkStreamState (StatusUpdateStream.updates streamState)
                                             (StatusUpdateStream.state_terminated streamState))]>
                  (state_streams state))
               (if StatusUpdateStream.state_error streamState
                then S (errors state) else errors state))
            m1
      end
  end.

(** [recover(streamIds, strict)]. *)
Definition recover (io : IO) (streamIds : list StreamId) (strict : bool) (m : t)
  : option (Try State * t) :=
  recover_from io streamIds strict (mkState ∅ 0) m.

(** One turn of the loop of [resume()]. *)
Definition resume_stream (entry : nat * StatusUpdateStream.t) (m : t) : option t :=
  let '(sid, stream) := entry in
  match StatusUpdateStream.next stream with
  | RSome u => forward_and_arm sid stream u RETRY_MIN m
  | _ => Some m
  end.

(** [resume()]. *)
Definition resume (m : t) : option t :=
  let m1 := set_paused false m in
  foreach resume_stream (map_to_list (streams m1)) m1.

(** [timeout(streamId, duration)]. *)
Definition timeout (sid : StreamId) (duration : Duration) (m : t) : option t :=
  if paused m then Some m
  else
    match streams m !! sid with
    | None => Some m
    | Some stream =>
        match StatusUpdateStream.pending stream with
        | [] => Some m
        | u :: _ =>
            deadline ← StatusUpdateStream.timeout stream;  (* CHECK_SOME(stream->timeout) *)
            if bool_decide (deadline ≤ clock m)%Z            (* expired() *)
            then
              let duration_ := Z.min (duration * 2) RETRY_MAX in
              forward_and_arm sid stream u duration_ m
            else Some m
        end
    end.

(** Modelled from the spec: the [i]-th scheduled message is delivered, if it
    is due (the retry scheduler of libprocess; a timer fires once, at or
    after its deadline). *)
Definition deliver (i : nat) (m : t) : option t :=
  match timers m !! i with
  | Some timer =>
      if bool_decide (due timer ≤ clock m)%Z
      then timeout (timer_stream timer) (timer_duration timer)
                   (set_timers (delete i (timers m)) m)
      else Some m
  | None => Some m
  end.

(** What happens to the actor, one message at a time. *)
Inductive Event :=
| EUpdate (io : IO) (u : Update) (sid : StreamId) (checkpoint : bool)
| EAcknowledgement (io : IO) (sid : StreamId) (uuid : UUID)
| ERecover (io : IO) (streamIds : list StreamId) (strict : bool)
| ECleanup (frameworkId : FrameworkID)
| EPause
| EResume
| EDeliver (i : nat)
| ETick (dt : Duration)
| EFiles (fs' : FS).

(** The actor after an event; [ETick] lets time pass and [EFiles] lets the
    embedder change the files (it is the one to collect them). *)
Definition step (e : Event) (m : t) : option t :=
  match e with
  | EUpdate io u sid checkpoint => snd <$> update io u sid checkpoint m
  | EAcknowledgement io sid uuid => snd <$> acknowledgement io sid uuid m
  | ERecover io streamIds strict => snd <$> recover io streamIds strict m
  | ECleanup f => cleanup f m
  | EPause => Some (pause m)
  | EResume => resume m
  | EDeliver i => deliver i m
  | ETick dt => if bool_decide (0 ≤ dt)%Z then Some (set_clock (clock m + dt)%Z m) else Some m
  | EFiles fs' => Some (set_fs fs' m)
  end.

(** The actor after a sequence of events. *)
Fixpoint run (es : list Event) (m : t) : option t :=
  match es with
  | [] => Some m
  | e :: es' => m' ← step e m; run es' m'
  end.

(** The states the actor can be in between two messages. *)
Inductive reachable : t → Prop :=
| reachable_init now fs0 : reachable (init now fs0)
| reachable_step e m m' : reachable m → step e m = Some m' → reachable m'.

End WithCollaborators.

End StatusUpdateManagerProcess.

(** ** One stream and its checkpoint file over time *)

Module StreamLife.

(** The stream object registered under one stream id (if any), the updates
    it accepted so far, oldest first (through [update], or through the
    replay that rebuilt it, which returns them as [State::updates]), and the
    file system holding its checkpoint file. *)
Record t := mk {
  live : option StatusUpdateStream.t;
  accepted : list Update;
  disk : FS
}.

(** What can happen to the stream. *)
Inductive Op :=
| OCreate (io : IO) (frameworkId : option FrameworkID) (checkpoint : bool)
| OUpdate (io : IO) (u : Update)
| OAcknowledgement (io : IO) (uuid : UUID)
| ORecover (io : IO) (strict : bool)
| ODrop.

Section WithStream.

Variable isTerminalState : StateValue → bool.
(** The stream id and the path of its checkpoint file. *)
Variable sid : StreamId.
Variable p : Path.

(** [OCreate] is [StatusUpdateStream::create], done when no stream is
    registered; [OUpdate] and [OAcknowledgement] are the operations of the
    registered stream; [ORecover] is [StatusUpdateStream::recover], whose
    stream replaces the registered one; [ODrop] destroys the registered
    stream (clean-up, or the end of the process). *)
Definition step (op : Op) (l : t) : option t :=
  match op with
  | OCreate io frameworkId checkpoint =>
      match live l with
      | Some _ => Some l
      | None =>
          match StatusUpdateStream.create io sid frameworkId
                  (if checkpoint then Some p else None) (disk l) with
          | (Err _, fs') => Some (mk None [] fs')
          | (Val s, fs') => Some (mk (Some s) [] fs')
          end
      end
  | OUpdate io u =>
      match live l with
      | None => Some l
      | Some s =>
          '(result, s', fs') ← StatusUpdateStream.update isTerminalState io u s (disk l);
          match result with
          | Val true => Some (mk (Some s') (accepted l ++ [u]) fs')
          | _ => Some (mk (Some s') (accepted l) fs')
          end
      end
  | OAcknowledgement io uuid =>
      match live l with
      | None => Some l
      | Some s =>
          '(_, s', fs') ← StatusUpdateStream.acknowledgement isTerminalState io uuid s (disk l);
          Some (mk (Some s') (accepted l) fs')
      end
  | ORecover io strict =>
      '(result, fs') ← StatusUpdateStream.recover isTerminalState io sid p strict (disk l);
      match result with
      | RSome (s, state) => Some (mk (Some s) (StatusUpdateStream.updates state) fs')
      | _ => Some (mk (live l) (accepted l) fs')
      end
  | ODrop => Some (mk None [] (disk l))
  end.

Fixpoint run (ops : list Op) (l : t) : option t :=
  match ops with
  | [] => Some l
  | op :: ops' => l' ← step op l; run ops' l'
  end.

End WithStream.

(** The UUIDs of a list of updates, in order. *)
Definition uuids (l : list Update) : list N := omap status_uuid l.


End StreamLife.

(** * The vocabulary of the properties *)

(** The files after a successful checkpoint of [r] by the stream [s]. *)
Definition logged (s : StatusUpdateStream.t) (r : CheckpointRecord) (fs : FS) : FS :=
  match StatusUpdateStream.path s with
  | Some p => mkFS (alter (λ f, f ++ [Good r]) p (files fs)) (dirs fs)
  | None => fs
  end.

(** The records [::protobuf::read] returns before it reports none or an
    error. *)
Fixpoint good_prefix (chunks : list Chunk) : list CheckpointRecord :=
  match chunks with
  | Good r :: rest => r :: good_prefix rest
  | _ => []
  end.

(** The updates among some records. *)
Definition update_records (records : list CheckpointRecord) : list Update :=
  omap (λ r, match r with RecUpdate u => Some u | RecAck _ => None end) records.

(** ** Invariants of the manager *)

(** The stream [sid] is listed under its framework. *)
Definition indexed (index : gmap string (gset nat)) (sid : nat)
    (s : StatusUpdateStream.t) : Prop :=
  ∀ f, StatusUpdateStream.frameworkId s = Some f →
       sid ∈ StatusUpdateManagerProcess.streams_of f index.

(** What holds of a registered stream: it is not terminated; a timeout is
    set only while an update is pending; and when the manager is not paused
    and the stream has no sticky error, a pending update has a timeout. *)
Definition stream_ok (is_paused : bool) (s : StatusUpdateStream.t) : Prop :=
  StatusUpdateStream.terminated s = false
  ∧ (is_Some (StatusUpdateStream.timeout s) → StatusUpdateStream.pending s ≠ [])
  ∧ (is_paused = false → StatusUpdateStream.error s = None →
     StatusUpdateStream.pending s ≠ [] → is_Some (StatusUpdateStream.timeout s)).

(** Every registered stream is well formed and listed under its framework. *)
Definition streams_ok (is_paused : bool) (index : gmap string (gset nat))
    (M : gmap nat StatusUpdateStream.t) : Prop :=
  map_Forall (λ sid s, stream_ok is_paused s ∧ indexed index sid s) M.

Section ManagerInvariants.

(** A property of the durations timers are armed with. *)
Variable D : Duration → Prop.

Definition timers_ok (l : list StatusUpdateManagerProcess.Timer) : Prop :=
  Forall (λ timer, D (StatusUpdateManagerProcess.timer_duration timer)) l.

(** The invariant of the manager. *)
Definition inv (m : StatusUpdateManagerProcess.t) : Prop :=
  streams_ok (StatusUpdateManagerProcess.paused m)
             (StatusUpdateManagerProcess.frameworkStreams m)
             (StatusUpdateManagerProcess.streams m)
  ∧ timers_ok (StatusUpdateManagerProcess.timers m).

(** While [resume] runs: the streams still to be visited are as they were,
    the visited ones already obey the unpaused discipline. *)
Definition resuming (index : gmap string (gset nat))
    (rest : list (nat * StatusUpdateStream.t)) (m : StatusUpdateManagerProcess.t) : Prop :=
  StatusUpdateManagerProcess.paused m = false
  ∧ timers_ok (StatusUpdateManagerProcess.timers m)
  ∧ StatusUpdateManagerProcess.frameworkStreams m = index
  ∧ NoDup rest.*1
  ∧ (∀ sid s, (sid, s) ∈ rest → StatusUpdateManagerProcess.streams m !! sid = Some s)
  ∧ map_Forall (λ sid s,
       stream_ok (bool_decide (sid ∈ rest.*1)) s ∧ indexed index sid s)
       (StatusUpdateManagerProcess.streams m).

End ManagerInvariants.

(** ** Invariants of a stream and its log *)

(** The fields of a stream that the log determines. *)
Definition core (s : StatusUpdateStream.t)
  : bool * list Update * gset N * gset N :=
  (StatusUpdateStream.terminated s, StatusUpdateStream.pending s,
   StatusUpdateStream.received s, StatusUpdateStream.acknowledged s).

(** The stream [s] agrees with the updates [acc] it accepted: every accepted
    update has a UUID, no UUID was accepted twice, [received] holds the
    accepted UUIDs, and the accepted updates are the acknowledged ones
    followed by the pending ones. *)
Definition consistent (s : StatusUpdateStream.t) (acc : list Update) : Prop :=
  Forall (λ u, is_Some (status_uuid u)) acc
  ∧ NoDup (StreamLife.uuids acc)
  ∧ StatusUpdateStream.received s = list_to_set (StreamLife.uuids acc)
  ∧ ∃ acked, acc = acked ++ StatusUpdateStream.pending s
             ∧ StatusUpdateStream.acknowledged s = list_to_set (StreamLife.uuids acked).

Section StreamLogInvariants.

Variable isTerminalState : StateValue → bool.
(** The stream id and the path of its checkpoint file. *)
Variable sid : StreamId.
Variable p : Path.

(** The log replays to a stream that agrees with the updates replayed. *)
Definition log_ok (chunks : list Chunk) : Prop :=
  ∃ s0 ups pos c,
    StatusUpdateStream.replay isTerminalState chunks
      (StatusUpdateStream.new sid (Some p)) [] 0
    = Some (StatusUpdateStream.ReplayDone s0 ups pos c)
    ∧ consistent s0 ups.

(** The log holds complete records only, and replays to the core of [s] and
    to the updates [acc]. *)
Definition in_sync (s : StatusUpdateStream.t) (acc : list Update)
    (chunks : list Chunk) : Prop :=
  ∃ records s0,
    chunks = Good <$> records
    ∧ StatusUpdateStream.replay isTerminalState chunks
        (StatusUpdateStream.new sid (Some p)) [] 0
      = Some (StatusUpdateStream.ReplayDone s0 acc (length chunks) false)
    ∧ core s = core s0.

(** What holds of the stream and its file between two operations. *)
Definition life_inv (l : StreamLife.t) : Prop :=
  (∀ s, StreamLife.live l = Some s →
        consistent s (StreamLife.accepted l)
        ∧ ∀ p', StatusUpdateStream.path s = Some p' → p' = p)
  ∧ (∀ chunks, files (StreamLife.disk l) !! p = Some chunks →
       log_ok chunks
       ∧ ∀ s, StreamLife.live l = Some s →
              StatusUpdateStream.error s = None →
              is_Some (StatusUpdateStream.path s) →
              in_sync s (StreamLife.accepted l) chunks).

End StreamLogInvariants.

(** ** Further vocabulary *)

(** [frameworkStreams] lists registered streams only, each under its own
    framework id. *)
Definition index_sound (m : StatusUpdateManagerProcess.t) : Prop :=
  ∀ f sid,
    sid ∈ StatusUpdateManagerProcess.streams_of f
            (StatusUpdateManagerProcess.frameworkStreams m) →
    ∃ s, StatusUpdateManagerProcess.streams m !! sid = Some s
         ∧ StatusUpdateStream.frameworkId s = Some f.

(** A message [timeout(sid, _)] is scheduled for the time [d]. *)
Definition scheduled (sid : nat) (d : Time)
    (l : list StatusUpdateManagerProcess.Timer) : Prop :=
  ∃ timer, timer ∈ l
           ∧ StatusUpdateManagerProcess.due timer = d
           ∧ StatusUpdateManagerProcess.timer_stream timer = sid.

(** What a registered stream keeps true of its own fields: it knows its id,
    it checkpoints to the file [getPath] names, every pending update has a
    UUID that was received, and what was acknowledged was received. *)
Definition well_kept (getPath : nat → list string) (sid : nat)
    (s : StatusUpdateStream.t) : Prop :=
  StatusUpdateStream.streamId s = sid
  ∧ (∀ p, StatusUpdateStream.path s = Some p → p = getPath sid)
  ∧ Forall (λ u, ∃ a, status_uuid u = Some a ∧ a ∈ StatusUpdateStream.received s)
           (StatusUpdateStream.pending s)
  ∧ StatusUpdateStream.acknowledged s ⊆ StatusUpdateStream.received s.

(** A property of registered streams that the operations of a stream keep:
    it holds of a new stream, and survives [_handle] (of an update, or of an
    acknowledgement of the head of the queue) and the assignments to
    [timeout] and [error]. *)
Record stable (isTerminalState : Z → bool) (getPath : nat → list string)
    (P : nat → StatusUpdateStream.t → Prop) : Prop := mkStable {
  stable_new : ∀ sid fid (checkpoint : bool),
    P sid (StatusUpdateStream.set_frameworkId fid
             (StatusUpdateStream.new sid
                (if checkpoint then Some (getPath sid) else None)));
  stable_update : ∀ sid u s s',
    P sid s →
    StatusUpdateStream._handle isTerminalState u UPDATE s = Some s' → P sid s';
  stable_ack : ∀ sid u q s s',
    P sid s → StatusUpdateStream.pending s = u :: q →
    StatusUpdateStream._handle isTerminalState u ACK s = Some s' → P sid s';
  stable_timeout : ∀ sid o s, P sid s → P sid (StatusUpdateStream.set_timeout o s);
  stable_error : ∀ sid e s, P sid s → P sid (StatusUpdateStream.set_error e s)
}.

(** The update [resume()] forwards for a stream: the head of its queue,
    unless the stream carries a sticky error. *)
Definition resumed_update (s : StatusUpdateStream.t) : option Update :=
  match StatusUpdateStream.next s with
  | RSome u => Some u
  | _ => None
  end.

(** The stream after [resume()] at time [now]. *)
Definition resumed_stream (now : Time) (RETRY_MIN : Duration)
    (s : StatusUpdateStream.t) : StatusUpdateStream.t :=
  match resumed_update s with
  | Some _ => StatusUpdateStream.set_timeout (Some (now + RETRY_MIN)%Z) s
  | None => s
  end.

(** The timer [resume()] arms for a registered stream at time [now]. *)
Definition resumed_timer (now : Time) (RETRY_MIN : Duration)
    (entry : nat * StatusUpdateStream.t) : option StatusUpdateManagerProcess.Timer :=
  match resumed_update entry.2 with
  | Some _ => Some (StatusUpdateManagerProcess.mkTimer (now + RETRY_MIN)%Z entry.1 RETRY_MIN)
  | None => None
  end.

(** The recovery an event asks for, if any, is for stream ids that are not
    registered, each named once: recovery as it is run when the actor
    starts. *)
Definition fresh_recovery (e : StatusUpdateManagerProcess.Event)
    (m : StatusUpdateManagerProcess.t) : Prop :=
  match e with
  | StatusUpdateManagerProcess.ERecover _ streamIds _ =>
      NoDup streamIds
      ∧ Forall (λ sid, StatusUpdateManagerProcess.streams m !! sid = None) streamIds
  | _ => True
  end.

(** Every recovery of a run is a [fresh_recovery]. *)
Fixpoint recovers_fresh (isTerminalState : Z → bool) (getPath : nat → list string)
    (RETRY_MIN RETRY_MAX : Z) (es : list StatusUpdateManagerProcess.Event)
    (m : StatusUpdateManagerProcess.t) : Prop :=
  match es with
  | [] => True
  | e :: es' =>
      fresh_recovery e m
      ∧ ∀ m', StatusUpdateManagerProcess.step isTerminalState getPath RETRY_MIN RETRY_MAX e m
              = Some m' →
              recovers_fresh isTerminalState getPath RETRY_MIN RETRY_MAX es' m'
  end.

(** Every registered stream without sticky error whose timeout is set has a
    message [timeout] scheduled for that time. *)
Definition retries_scheduled (M : gmap nat StatusUpdateStream.t)
    (l : list StatusUpdateManagerProcess.Timer) : Prop :=
  ∀ sid s d,
    M !! sid = Some s → StatusUpdateStream.error s = None →
    StatusUpdateStream.timeout s = Some d → scheduled sid d l.

(** A file of complete records, followed at most by the start of one more. *)
Definition torn_tail (chunks : list Chunk) : Prop :=
  ∃ records tail, chunks = (Good <$> records) ++ tail ∧ (tail = [] ∨ tail = [Torn]).

(** What holds of the checkpoint file between two operations, also after a
    write that failed: the file is a [torn_tail], and the complete records
    of the file of a stream that carries a sticky error replay to that
    stream and to the updates it accepted. *)
Definition crash_consistent (isTerminalState : Z → bool) (sid : nat) (p : list string)
    (l : StreamLife.t) : Prop :=
  (∀ chunks, files (StreamLife.disk l) !! p = Some chunks → torn_tail chunks)
  ∧ (∀ s chunks,
       StreamLife.live l = Some s →
       is_Some (StatusUpdateStream.error s) → is_Some (StatusUpdateStream.path s) →
       files (StreamLife.disk l) !! p = Some chunks →
       ∃ s0,
         StatusUpdateStream.replay isTerminalState (Good <$> good_prefix chunks)
           (StatusUpdateStream.new sid (Some p)) [] 0
         = Some (StatusUpdateStream.ReplayDone s0 (StreamLife.accepted l)
                   (length (good_prefix chunks)) false)
         ∧ core s = core s0).



(** * Concrete runs *)

Module Example.

Import StatusUpdateManagerProcess.

(** A terminal-state predicate: state 2 ends a stream. *)
Definition isTerminalState (state : StateValue) : bool := Z.eqb state 2.

(** A path function: one file per stream id under [/meta/streams]. *)
Definition getPath (sid : StreamId) : Path := ["meta"; "streams"; pretty sid].

(** Modelled from the spec: the retry bounds [RETRY_MIN] and [RETRY_MAX],
    whose declarations in [slave/constants.hpp] are not part of the source
    at hand; the spec suggests 10 s and 10 min.  In nanoseconds. *)
Definition RETRY_MIN : Duration := 10 * 1000000000.
Definition RETRY_MAX : Duration := 600 * 1000000000.

Definition fs0 : FS := mkFS ∅ ∅.

Definition uA : Update := mkUpdate (Some 1%N) (Some "F") 1.
Definition uB : Update := mkUpdate (Some 2%N) (Some "F") 1.
Definition uC : Update := mkUpdate (Some 3%N) (Some "F") 2.

Definition m_run (es : list Event) : t :=
  default (init 0 fs0) (run isTerminalState getPath RETRY_MIN RETRY_MAX es (init 0 fs0)).

(** System calls of which every write fails, leaving a torn record or not. *)
Definition io_write_fails (torn : bool) : IO :=
  mkIO (λ _, false) (λ _, false) (λ _, WriteError torn) (λ _, false) (λ _, false) (λ _, false).

(** The stream registered under [sid] (the fresh stream if there is none). *)
Definition stream_of (sid : StreamId) (m : t) : StatusUpdateStream.t :=
  default (StatusUpdateStream.new sid None) (streams m !! sid).

(** ** One stream: updates, a duplicate, an acknowledgement, a failed write
    and a recovery *)

Definition life_ops : list StreamLife.Op :=
  [StreamLife.OCreate io_ok (Some "F") true;
   StreamLife.OUpdate io_ok uA;
   StreamLife.OUpdate io_ok uB;
   StreamLife.OUpdate io_ok uA;
   StreamLife.OAcknowledgement io_ok 1%N;
   StreamLife.OUpdate (io_write_fails true) uC;
   StreamLife.ORecover io_ok true;
   StreamLife.OUpdate io_ok uC].

Definition life_end : StreamLife.t :=
  default (StreamLife.mk None [] fs0)
    (StreamLife.run isTerminalState 1%nat (getPath 1) life_ops (StreamLife.mk None [] fs0)).

Definition life_stream : StatusUpdateStream.t :=
  default (StatusUpdateStream.new 1 None) (StreamLife.live life_end).

(** ** An acknowledgement that is not for the head *)

Definition s_one_pending : StatusUpdateStream.t :=
  StatusUpdateStream.mk false None None [mkUpdate (Some 7%N) None 0] 1%nat None {[7%N]} ∅ None.

(** ** Duplicates *)

Definition m_one : t := m_run [EUpdate io_ok uA 1 true].

(** ** A terminal acknowledgement *)

Definition m_terminal : t :=
  m_run [EUpdate io_ok uC 1 true; EUpdate io_ok uA 2 false].

(** ** Recovery *)



(** The file holds a terminal update and its acknowledgement. *)
Definition fs_terminal : FS :=
  mkFS {[ getPath 1 := [Good (RecUpdate uC); Good (RecAck (Some 3%N))] ]}
       {[ ["meta"; "streams"] ]}.

Definition m_before_recovery : t := m_run [EFiles fs_terminal].



(** ** Retries *)

Definition m_backoff : t :=
  m_run [EUpdate io_ok uA 1 false;
         ETick RETRY_MIN; EDeliver 0;
         ETick (2 * RETRY_MIN); EDeliver 0].

Definition m_due : t := m_run [EUpdate io_ok uA 1 false; ETick RETRY_MIN].

(** ** Pausing *)

Definition m_paused : t := pause m_one.

(** The checkpoint of the acknowledgement fails while the retry timer of
    the head is armed. *)
Definition m_sticky : t :=
  m_run [EUpdate io_ok uA 1 true; EAcknowledgement (io_write_fails false) 1 1%N].

(** ** An update without [status_uuid] *)

Definition u_no_uuid : Update := mkUpdate None (Some "F") 1.


(** ** Further runs *)

(** A second framework has a stream of its own. *)
Definition uG : Update := mkUpdate (Some 4%N) (Some "G") 1.

Definition m_two_frameworks : t :=
  m_run [EUpdate io_ok uA 1 false; EUpdate io_ok uB 2 false; EUpdate io_ok uG 3 false].

(** Two updates are pending on one stream. *)
Definition m_queue : t :=
  m_run [EUpdate io_ok uA 1 false; EUpdate io_ok uB 1 false].

(** Recovery comes first, then updates. *)
Definition es_recover_first : list Event :=
  [EFiles fs_terminal; ERecover io_ok [1%nat; 2%nat] false;
   EUpdate io_ok uA 2 false; EUpdate io_ok uG 3 false; ECleanup "F"].

(** The file holds an update and then bytes that do not parse. *)
Definition fs_corrupt : FS :=
  mkFS {[ getPath 1 := [Good (RecUpdate uA); Corrupt] ]} {[ ["meta"; "streams"] ]}.

(** The file holds an update that was not acknowledged. *)
Definition fs_open : FS :=
  mkFS {[ getPath 1 := [Good (RecUpdate uA)] ]} {[ ["meta"; "streams"] ]}.

Definition m_before_open_recovery : t := m_run [EFiles fs_open].

(** A stream whose second checkpoint fails half way. *)
Definition life_torn_ops : list StreamLife.Op :=
  [StreamLife.OCreate io_ok (Some "F") true;
   StreamLife.OUpdate io_ok uA;
   StreamLife.OUpdate (io_write_fails true) uB].

Definition life_torn : StreamLife.t :=
  default (StreamLife.mk None [] fs0)
    (StreamLife.run isTerminalState 1%nat (getPath 1) life_torn_ops
       (StreamLife.mk None [] fs0)).

Definition life_torn_stream : StatusUpdateStream.t :=
  default (StatusUpdateStream.new 1 None) (StreamLife.live life_torn).

End Example.


(** * Properties of a stream *)

Section StreamProperties.

Variable isTerminalState : StateValue → bool.

Abbreviation s_update := (StatusUpdateStream.update isTerminalState).
Abbreviation s_acknowledgement := (StatusUpdateStream.acknowledgement isTerminalState).
Abbreviation s_handle := (StatusUpdateStream.handle isTerminalState).
Abbreviation s__handle := (StatusUpdateStream._handle isTerminalState).

Import StatusUpdateStream.


Lemma handle_write_fails io u type s fs p torn :
  path s = Some p → error s = None →
  write_outcome io p = WriteError torn →
  ∃ fs', s_handle io u type s fs = Some (Err WriteFailed, set_error (Some WriteFailed) s, fs').
Proof.
  intros Hp He Hw. unfold handle, protobuf_write.
  rewrite He, Hp, Hw. simpl. destruct torn; eauto.
Qed.

Lemma sticky_error_update e io u s fs :
  error s = Some e → s_update io u s fs = Some (Err e, s, fs).
Proof. intros He. unfold update. by rewrite He. Qed.

Lemma sticky_error_acknowledgement e io a s fs :
  error s = Some e → s_acknowledgement io a s fs = Some (Err e, s, fs).
Proof. intros He. unfold acknowledgement. by rewrite He. Qed.

Lemma sticky_error_next e s : error s = Some e → next s = RError e.
Proof. intros He. unfold next. by rewrite He. Qed.

(** [C2] [acknowledgement] guards its mutation.  On a stream without sticky
    error: with an empty queue it returns the error "unexpected
    acknowledgment" and changes nothing; with a non-empty queue, an
    acknowledged UUID or a UUID other than the head's returns [false]
    (duplicate) and changes nothing; and whenever the stream or the files
    change, the queue was non-empty, the UUID was the head's and it was not
    yet acknowledged. *)
Theorem acknowledgement_mutates_only_on_head io uuid s fs :
  error s = None →
  (pending s = [] →
     StatusUpdateStream.acknowledgement isTerminalState io uuid s fs = Some (Err UnexpectedAck, s, fs))
  ∧ (∀ h q, pending s = h :: q → uuid ∈ acknowledged s →
       StatusUpdateStream.acknowledgement isTerminalState io uuid s fs = Some (Val false, s, fs))
  ∧ (∀ h q b, pending s = h :: q → status_uuid h = Some b → uuid ≠ b →
       StatusUpdateStream.acknowledgement isTerminalState io uuid s fs = Some (Val false, s, fs))
  ∧ (∀ r s' fs', StatusUpdateStream.acknowledgement isTerminalState io uuid s fs = Some (r, s', fs') →
       (s', fs') ≠ (s, fs) →
       ∃ h q, pending s = h :: q ∧ status_uuid h = Some uuid ∧ uuid ∉ acknowledged s).
Proof.
  intros He. unfold acknowledgement, next. rewrite He.
  repeat split.
  - by intros ->.
  - intros h q -> Hin. by rewrite bool_decide_eq_true_2.
  - intros h q b -> Hb Hne. case_bool_decide; [done|].
    rewrite Hb. simpl. by rewrite bool_decide_eq_true_2.
  - intros r s' fs'. destruct (pending s) as [|h q] eqn:Hp.
    + intros [= <- <- <-] Hne. by destruct Hne.
    + case_bool_decide as Hack.
      { intros [= <- <- <-] Hne. by destruct Hne. }
      destruct (status_uuid h) as [b|] eqn:Hb; [|done]. simpl.
      case_bool_decide as Hne.
      { intros [= <- <- <-] Hd. by destruct Hd. }
      intros _ _. exists h, q. split; [done|]. split; [|done].
      destruct (decide (uuid = b)) as [->|]; [done|]. by destruct Hne.
Qed.






(** What [_handle] leaves alone. *)
Lemma _handle_frame u type s s' :
  s__handle u type s = Some s' →
  timeout s' = timeout s ∧ error s' = error s ∧ error s = None
  ∧ path s' = path s ∧ streamId s' = streamId s.
Proof.
  unfold _handle. case_bool_decide as He; [done|].
  destruct (status_uuid u); [|done]. simpl.
  assert (error s = None) by (destruct (error s); [exfalso; eauto | done]).
  destruct type; intros [= <-]; simpl; tauto.
Qed.

(** The three ways [update] can end. *)
Lemma update_cases io u s fs r s' fs' :
  s_update io u s fs = Some (r, s', fs') →
  (r = Val true ∧ error s = None ∧ s__handle u UPDATE s = Some s')
  ∨ (r ≠ Val true ∧ s' = s ∧ fs' = fs)
  ∨ (r = Err WriteFailed ∧ error s = None ∧ s' = set_error (Some WriteFailed) s).
Proof.
  unfold update. destruct (error s) as [e|] eqn:He.
  { intros [= <- <- <-]. right; left. done. }
  destruct (status_uuid u) as [a|] eqn:Hu.
  2:{ intros [= <- <- <-]. right; left. done. }
  case_bool_decide. { intros [= <- <- <-]. right; left. done. }
  case_bool_decide. { intros [= <- <- <-]. right; left. done. }
  unfold handle, protobuf_write. rewrite He. simpl.
  destruct (path s) as [p|].
  - destruct (write_outcome io p) as [|torn].
    + destruct (s__handle u UPDATE s) as [s1|]; [|done]. simpl.
      intros [= <- <- <-]. left. done.
    + intros [= <- <- <-]. right; right. done.
  - destruct (s__handle u UPDATE s) as [s1|]; [|done]. simpl.
    intros [= <- <- <-]. left. done.
Qed.

(** The three ways [acknowledgement] can end. *)
Lemma acknowledgement_cases io uuid s fs r s' fs' :
  s_acknowledgement io uuid s fs = Some (r, s', fs') →
  (r = Val true ∧ error s = None
     ∧ ∃ h q, pending s = h :: q ∧ status_uuid h = Some uuid
              ∧ (uuid ∉ acknowledged s) ∧ s__handle h ACK s = Some s')
  ∨ (r ≠ Val true ∧ s' = s ∧ fs' = fs)
  ∨ (r = Err WriteFailed ∧ error s = None ∧ s' = set_error (Some WriteFailed) s).
Proof.
  unfold acknowledgement, next. destruct (error s) as [e|] eqn:He.
  { intros [= <- <- <-]. right; left. done. }
  destruct (pending s) as [|h q] eqn:Hp.
  { intros [= <- <- <-]. right; left. done. }
  case_bool_decide as Hack. { intros [= <- <- <-]. right; left. done. }
  destruct (status_uuid h) as [b|] eqn:Hb; [|done]. simpl.
  case_bool_decide as Hne. { intros [= <- <- <-]. right; left. done. }
  assert (uuid = b) as -> by (destruct (decide (uuid = b)); [done | by destruct Hne]).
  unfold handle, protobuf_write. rewrite He. simpl.
  destruct (path s) as [p|].
  - destruct (write_outcome io p) as [|torn].
    + destruct (s__handle h ACK s) as [s1|] eqn:Hh; [|done]. simpl.
      intros [= <- <- <-]. left. eauto 10.
    + intros [= <- <- <-]. right; right. done.
  - destruct (s__handle h ACK s) as [s1|] eqn:Hh; [|done]. simpl.
    intros [= <- <- <-]. left. eauto 10.
Qed.

(** The replay leaves [timeout] and [error] as the constructor set them. *)
Lemma replay_frame chunks : ∀ s ups pos s' ups' pos' c,
  StatusUpdateStream.replay isTerminalState chunks s ups pos
    = Some (ReplayDone s' ups' pos' c) →
  timeout s' = timeout s ∧ error s' = error s.
Proof.
  induction chunks as [|[r| |] rest IH]; intros s ups pos s' ups' pos' c; simpl.
  - by intros [= <- <- <- <-].
  - destruct r as [u|a].
    + destruct (s__handle u UPDATE s) as [s1|] eqn:Hh; [|done]. simpl.
      intros H. apply IH in H as [-> ->].
      apply _handle_frame in Hh. tauto.
    + destruct (next s) as [e| |u]; [done|done|].
      destruct (s__handle u ACK s) as [s1|] eqn:Hh; [|done]. simpl.
      intros H. apply IH in H as [-> ->].
      apply _handle_frame in Hh. tauto.
  - by intros [= <- <- <- <-].
  - by intros [= <- <- <- <-].
Qed.

(** A recovered stream has no timeout and no sticky error, and its state
    reports its [terminated] flag. *)
Lemma recover_fresh io sid p strict fs s st fs' :
  StatusUpdateStream.recover isTerminalState io sid p strict fs
    = Some (RSome (s, st), fs') →
  timeout s = None ∧ error s = None ∧ state_terminated st = terminated s.
Proof.
  unfold recover.
  destruct (os_exists fs (dirname p) && negb (os_exists fs p)); [done|].
  destruct (os_open_rdwr io fs p) as [e|chunks]; [done|].
  destruct (replay _ chunks _ _ _) as [[e|s1 ups pos c]|] eqn:Hr; [done| |done].
  simpl. destruct (lseek_fails io p); [done|].
  destruct (os_ftruncate io fs p pos) as [e|fs1]; [done|].
  destruct (c && strict); [done|].
  destruct ups as [|u ups].
  { destruct (os_rm io fs1 p); done. }
  intros [= <- <- <-]. apply replay_frame in Hr as [-> ->]. done.
Qed.

(** An update that is new to the stream is accepted when the checkpoint
    succeeds. *)
Lemma update_accepts io u a s fs :
  error s = None → status_uuid u = Some a →
  a ∉ acknowledged s → a ∉ received s →
  (∀ p, path s = Some p → write_outcome io p = WriteOk) →
  s_update io u s fs
  = Some (Val true,
          mk (terminated s)
             (if has_framework_id u then framework_id u else frameworkId s)
             (timeout s) (pending s ++ [u]) (streamId s) (path s)
             ({[a]} ∪ received s) (acknowledged s) (error s),
          logged s (RecUpdate u) fs).
Proof.
  intros He Hu Hack Hrec Hw. unfold update, handle, _handle, protobuf_write, logged.
  rewrite He, Hu. simpl.
  rewrite !bool_decide_eq_false_2 by done.
  destruct (path s) as [p|]; [|done]. by rewrite (Hw p).
Qed.

(** The acknowledgement of the head of the queue is handled when the
    checkpoint succeeds. *)
Lemma acknowledgement_head io uuid h q s fs :
  error s = None → pending s = h :: q → status_uuid h = Some uuid →
  uuid ∉ acknowledged s →
  (∀ p, path s = Some p → write_outcome io p = WriteOk) →
  s_acknowledgement io uuid s fs
  = Some (Val true,
          mk (if terminated s then true else isTerminalState (status_state h))
             (frameworkId s) (timeout s) q (streamId s) (path s)
             (received s) ({[uuid]} ∪ acknowledged s) (error s),
          logged s (RecAck (Some uuid)) fs).
Proof.
  intros He Hq Hu Hack Hw.
  unfold acknowledgement, next, handle, _handle, protobuf_write, logged.
  rewrite He, Hq, Hu. simpl.
  rewrite bool_decide_eq_false_2 by done.
  rewrite bool_decide_eq_false_2 by (intros Hne; by apply Hne).
  destruct (path s) as [p|]; [|done]. by rewrite (Hw p).
Qed.

Lemma take_good_prefix chunks :
  take (length (good_prefix chunks)) chunks = Good <$> good_prefix chunks.
Proof.
  induction chunks as [|[r| |] rest IH]; simpl; [done| |done..]. by rewrite IH.
Qed.

(** A replay that is not cut short has read the whole good prefix and
    collected its updates. *)
Lemma replay_done chunks : ∀ s ups pos s' ups' pos' c,
  StatusUpdateStream.replay isTerminalState chunks s ups pos
    = Some (ReplayDone s' ups' pos' c) →
  ups' = ups ++ update_records (good_prefix chunks)
  ∧ pos' = (pos + length (good_prefix chunks))%nat.
Proof.
  induction chunks as [|[r| |] rest IH]; intros s ups pos s' ups' pos' c; simpl.
  - intros [= <- <- <- <-]. by rewrite app_nil_r, Nat.add_0_r.
  - destruct r as [u|a].
    + destruct (s__handle u UPDATE s) as [s1|]; [|done]. simpl.
      intros H. apply IH in H as [-> ->]. unfold update_records. simpl.
      rewrite <- app_assoc. split; [done|lia].
    + destruct (next s) as [e| |u]; [done|done|].
      destruct (s__handle u ACK s) as [s1|]; [|done]. simpl.
      intros H. apply IH in H as [-> ->]. unfold update_records. simpl.
      split; [done|lia].
  - intros [= <- <- <- <-]. by rewrite app_nil_r, Nat.add_0_r.
  - intros [= <- <- <- <-]. by rewrite app_nil_r, Nat.add_0_r.
Qed.



End StreamProperties.

(** * Invariants of the manager *)

Import StatusUpdateManagerProcess.

Lemma streams_of_insert f sid index f' :
  streams_of f' (index_insert f sid index)
  = if decide (f = f') then {[sid]} ∪ streams_of f index else streams_of f' index.
Proof.
  unfold streams_of, index_insert. rewrite lookup_insert.
  by destruct (decide (f = f')).
Qed.

Lemma indexed_insert_mono index f sid sid' s :
  indexed index sid' s → indexed (index_insert f sid index) sid' s.
Proof.
  intros H f' Hf'. rewrite streams_of_insert.
  destruct (decide (f = f')) as [->|]; [|by apply H].
  apply elem_of_union_r. by apply H.
Qed.

Lemma indexed_insert_self index f sid s :
  StatusUpdateStream.frameworkId s = Some f → indexed (index_insert f sid index) sid s.
Proof.
  intros Hf f' Hf'. rewrite Hf in Hf'. injection Hf' as <-.
  rewrite streams_of_insert, decide_True by done. set_solver.
Qed.

Lemma streams_ok_index_insert b index f sid M :
  streams_ok b index M → streams_ok b (index_insert f sid index) M.
Proof.
  intros H i s Hi. destruct (H i s Hi) as [? ?].
  split; [done|]. by apply indexed_insert_mono.
Qed.

Lemma streams_ok_put b index M sid s :
  streams_ok b index (delete sid M) → stream_ok b s → indexed index sid s →
  streams_ok b index (<[sid := s]> M).
Proof.
  intros HM Hs Hi. rewrite <- insert_delete_eq.
  apply map_Forall_insert_2; done.
Qed.

Lemma streams_ok_delete b index M sid :
  streams_ok b index M → streams_ok b index (delete sid M).
Proof. apply map_Forall_delete. Qed.

Lemma streams_ok_lookup b index M sid s :
  streams_ok b index M → M !! sid = Some s → stream_ok b s ∧ indexed index sid s.
Proof. intros H Hs. by apply (H sid s). Qed.

(** [forward] only adds a timer and a call of the callback. *)
Lemma forward_spec sid u d m deadline m' :
  forward sid u d m = Some (deadline, m') →
  paused m = false ∧ deadline = (clock m + d)%Z
  ∧ m' = mk (streams m) (frameworkStreams m) (paused m) (clock m)
            (timers m ++ [mkTimer (clock m + d)%Z sid d]) (forwarded m ++ [u]) (fs m).
Proof.
  unfold forward. destruct (paused m); [done|]. by intros [= <- <-].
Qed.

Lemma forward_and_arm_spec sid s u d m m' :
  forward_and_arm sid s u d m = Some m' →
  paused m = false
  ∧ m' = mk (<[sid := StatusUpdateStream.set_timeout (Some (clock m + d)%Z) s]> (streams m))
            (frameworkStreams m) (paused m) (clock m)
            (timers m ++ [mkTimer (clock m + d)%Z sid d]) (forwarded m ++ [u]) (fs m).
Proof.
  unfold forward_and_arm.
  destruct (forward sid u d m) as [[deadline m1]|] eqn:Hf; [|done]. simpl.
  apply forward_spec in Hf as (Hp & -> & ->). by intros [= <-].
Qed.

(** The index after [cleanupStatusUpdateStream] still lists the others. *)
Lemma cleanupStatusUpdateStream_spec sid m m' :
  cleanupStatusUpdateStream sid m = Some m' →
  ∃ s, streams m !! sid = Some s
    ∧ streams m' = delete sid (streams m)
    ∧ paused m' = paused m ∧ timers m' = timers m ∧ forwarded m' = forwarded m
    ∧ clock m' = clock m ∧ fs m' = fs m
    ∧ (∀ f i, i ≠ sid → i ∈ streams_of f (frameworkStreams m) →
              i ∈ streams_of f (frameworkStreams m'))
    ∧ (∀ f, StatusUpdateStream.frameworkId s = Some f →
            sid ∉ streams_of f (frameworkStreams m')).
Proof.
  unfold cleanupStatusUpdateStream.
  destruct (streams m !! sid) as [s|] eqn:Hs; [|done]. simpl.
  destruct (StatusUpdateStream.frameworkId s) as [f|] eqn:Hf.
  - destruct (frameworkStreams m !! f) as [ids|] eqn:Hids; [|done]. simpl.
    case_bool_decide as Hempty; simpl; intros [= <-]; exists s; simpl;
      (repeat split; [done..| |]).
    + intros f' i Hne. unfold streams_of.
      destruct (decide (f = f')) as [<-|Hff].
      * rewrite Hids. simpl. set_solver.
      * by rewrite lookup_delete_ne.
    + intros f' Hf'. rewrite Hf in Hf'. injection Hf' as <-.
      unfold streams_of. rewrite lookup_delete_eq. set_solver.
    + intros f' i Hne. unfold streams_of.
      destruct (decide (f = f')) as [<-|Hff].
      * rewrite Hids, lookup_insert_eq. simpl. set_solver.
      * by rewrite lookup_insert_ne.
    + intros f' Hf'. rewrite Hf in Hf'. injection Hf' as <-.
      unfold streams_of. rewrite lookup_insert_eq. set_solver.
  - simpl. intros [= <-]. exists s. simpl. repeat split; try done.
    intros f Hf'. congruence.
Qed.

(** A created stream is the fresh stream with its framework set. *)
Lemma create_spec io sid fid p fs0 s fs' :
  StatusUpdateStream.create io sid fid p fs0 = (Val s, fs') →
  s = StatusUpdateStream.set_frameworkId fid (StatusUpdateStream.new sid p).
Proof.
  unfold StatusUpdateStream.create. destruct p as [p|].
  - destruct (os_exists fs0 p); [done|].
    destruct (os_mkdir io fs0 (dirname p)) as [e|fs1]; [done|].
    destruct (os_open_create io fs1 p) as [e|fs2]; [done|].
    by intros [= <- <-].
  - by intros [= <- <-].
Qed.

Lemma stream_ok_set_error b e s :
  stream_ok b s → stream_ok b (StatusUpdateStream.set_error (Some e) s).
Proof. intros (? & ? & ?). destruct s. repeat split; simpl in *; done. Qed.

Lemma indexed_set_error index sid e s :
  indexed index sid s → indexed index sid (StatusUpdateStream.set_error e s).
Proof. by destruct s. Qed.

Lemma put_stream_twice sid a b m :
  put_stream sid a (put_stream sid b m) = put_stream sid a m.
Proof.
  unfold put_stream, set_streams. simpl. by rewrite insert_insert_eq.
Qed.

Lemma put_stream_same sid s m :
  streams m !! sid = Some s → put_stream sid s (set_fs (fs m) m) = m.
Proof.
  intros H. destruct m; unfold put_stream, set_streams, set_fs; simpl in *.
  by rewrite insert_id.
Qed.

Lemma foreach_ind {A} (f : A → t → option t) (J : list A → t → Prop) :
  (∀ x l m m', J (x :: l) m → f x m = Some m' → J l m') →
  ∀ l m m', J l m → foreach f l m = Some m' → J [] m'.
Proof.
  intros Hf l. induction l as [|x l IH]; intros m m' Hm; simpl.
  - by intros [= <-].
  - destruct (f x m) as [m1|] eqn:Hx; [|done]. simpl. eauto.
Qed.

Lemma stream_ok_paused b s : stream_ok b s → stream_ok true s.
Proof. intros (? & ? & ?). repeat split; done. Qed.

Section ManagerFacts.

Variable isTerminalState : StateValue → bool.
Variable getPath : StreamId → Path.
Variable RETRY_MIN : Duration.

Import StatusUpdateManagerProcess.

Abbreviation f_update := (update isTerminalState getPath RETRY_MIN).

Lemma createStatusUpdateStream_spec io sid fid checkpoint m r m1 :
  createStatusUpdateStream getPath io sid fid checkpoint m = (r, m1) →
  (∃ e, r = Err e ∧ ∃ fs', m1 = set_fs fs' m)
  ∨ (r = Val () ∧
     let s := StatusUpdateStream.set_frameworkId fid
                (StatusUpdateStream.new sid (if checkpoint then Some (getPath sid) else None)) in
     streams m1 = <[sid := s]> (streams m)
     ∧ frameworkStreams m1 = match fid with
                             | Some f => index_insert f sid (frameworkStreams m)
                             | None => frameworkStreams m
                             end
     ∧ paused m1 = paused m ∧ timers m1 = timers m ∧ forwarded m1 = forwarded m
     ∧ clock m1 = clock m).
Proof.
  unfold createStatusUpdateStream.
  destruct (StatusUpdateStream.create _ _ _ _ _) as [[e|s] fs'] eqn:Hc.
  - intros [= <- <-]. left. eauto.
  - apply create_spec in Hc as ->. intros [= <- <-]. right.
    split; [done|]. destruct fid; done.
Qed.

(** With the stream registered, [update] does not create one. *)
Lemma update_after_create io u sid checkpoint m m1 :
  streams m !! sid = None →
  createStatusUpdateStream getPath io sid (framework_id u) checkpoint m = (Val (), m1) →
  f_update io u sid checkpoint m = f_update io u sid checkpoint m1.
Proof.
  intros Hnone Hc. unfold update. rewrite Hnone, Hc.
  apply createStatusUpdateStream_spec in Hc as [(e & ? & _)|(_ & Hs & _)]; [done|].
  simpl in Hs.
  assert (is_Some (streams m1 !! sid)) as [s E] by (rewrite Hs, lookup_insert_eq; eauto).
  rewrite E. simpl. rewrite E. done.
Qed.

(** What [_handle] does for an update. *)
Lemma _handle_update_spec u s s' :
  StatusUpdateStream._handle isTerminalState u UPDATE s = Some s' →
  ∃ a, status_uuid u = Some a
    ∧ s' = StatusUpdateStream.mk (StatusUpdateStream.terminated s)
             (if has_framework_id u then framework_id u else StatusUpdateStream.frameworkId s)
             (StatusUpdateStream.timeout s)
             (StatusUpdateStream.pending s ++ [u])
             (StatusUpdateStream.streamId s) (StatusUpdateStream.path s)
             ({[a]} ∪ StatusUpdateStream.received s)
             (StatusUpdateStream.acknowledged s)
             (StatusUpdateStream.error s).
Proof.
  unfold StatusUpdateStream._handle. case_bool_decide; [done|].
  destruct (status_uuid u) as [a|]; [|done]. simpl. intros [= <-]. eauto.
Qed.

(** What [_handle] does for an acknowledgement. *)
Lemma _handle_ack_spec u s s' :
  StatusUpdateStream._handle isTerminalState u ACK s = Some s' →
  ∃ a, status_uuid u = Some a
    ∧ s' = StatusUpdateStream.mk
             (if StatusUpdateStream.terminated s then true
              else isTerminalState (status_state u))
             (StatusUpdateStream.frameworkId s)
             (StatusUpdateStream.timeout s)
             (tail (StatusUpdateStream.pending s))
             (StatusUpdateStream.streamId s) (StatusUpdateStream.path s)
             (StatusUpdateStream.received s)
             ({[a]} ∪ StatusUpdateStream.acknowledged s)
             (StatusUpdateStream.error s).
Proof.
  unfold StatusUpdateStream._handle. case_bool_decide; [done|].
  destruct (status_uuid u) as [a|]; [|done]. simpl. intros [= <-]. eauto.
Qed.

End ManagerFacts.

Section ManagerInvariant.

Variable isTerminalState : StateValue → bool.
Variable getPath : StreamId → Path.
Variable RETRY_MIN RETRY_MAX : Duration.

(** A property of durations that holds of [RETRY_MIN] and survives the
    backoff step. *)
Variable D : Duration → Prop.
Hypothesis D_min : D RETRY_MIN.
Hypothesis D_backoff : ∀ d, D d → D (Z.min (d * 2) RETRY_MAX).

Set Default Proof Using "All".

Import StatusUpdateManagerProcess.

Abbreviation m_update := (update isTerminalState getPath RETRY_MIN).
Abbreviation m_acknowledgement := (acknowledgement isTerminalState RETRY_MIN).
Abbreviation m_recover := (recover isTerminalState getPath RETRY_MIN).
Abbreviation m_recoverStatusUpdateStream :=
  (recoverStatusUpdateStream isTerminalState getPath RETRY_MIN).
Abbreviation m_step := (step isTerminalState getPath RETRY_MIN RETRY_MAX).
Abbreviation m_reachable := (reachable isTerminalState getPath RETRY_MIN RETRY_MAX).

Lemma forward_and_arm_inv sid s u d m m' :
  forward_and_arm sid s u d m = Some m' →
  streams_ok (paused m) (frameworkStreams m) (delete sid (streams m)) →
  timers_ok D (timers m) →
  StatusUpdateStream.terminated s = false →
  StatusUpdateStream.pending s ≠ [] →
  indexed (frameworkStreams m) sid s →
  D d →
  inv D m'.
Proof.
  intros H HM HT Hterm Hpend Hidx Hd.
  apply forward_and_arm_spec in H as [Hp ->].
  split; simpl.
  - apply streams_ok_put; [done| |by destruct s].
    destruct s; repeat split; simpl in *; eauto.
  - apply Forall_app. split; [done|]. by constructor.
Qed.

Lemma foreach_inv {A} (f : A → t → option t) (P : t → Prop) :
  (∀ x m m', P m → f x m = Some m' → P m') →
  ∀ l m m', P m → foreach f l m = Some m' → P m'.
Proof.
  intros Hf l. induction l as [|x l IH]; intros m m' Hm; simpl.
  - by intros [= <-].
  - destruct (f x m) as [m1|] eqn:Hx; [|done]. simpl. eauto.
Qed.

Lemma cleanupStatusUpdateStream_inv sid m m' :
  cleanupStatusUpdateStream sid m = Some m' →
  streams_ok (paused m) (frameworkStreams m) (delete sid (streams m)) →
  timers_ok D (timers m) →
  inv D m'.
Proof.
  intros H HM HT.
  apply cleanupStatusUpdateStream_spec in H
    as (s & Hs & Hstr & Hp & Ht & _ & _ & _ & Hidx & _).
  split; [|by rewrite Ht].
  rewrite Hstr, Hp. intros i s' Hi.
  destruct (HM i s' Hi) as [Hok Hind]. split; [done|].
  intros f Hf. apply Hidx; [|by apply Hind].
  intros ->. by rewrite lookup_delete_eq in Hi.
Qed.

Lemma cleanupStatusUpdateStream_inv' sid m m' :
  inv D m → cleanupStatusUpdateStream sid m = Some m' → inv D m'.
Proof.
  intros [HM HT] H. eapply cleanupStatusUpdateStream_inv; [done| |done].
  by apply streams_ok_delete.
Qed.

Lemma cleanup_inv f m m' : inv D m → cleanup f m = Some m' → inv D m'.
Proof.
  unfold cleanup. intros Hinv.
  destruct (frameworkStreams m !! f) as [ids|]; [|by intros [= <-]].
  apply foreach_inv; [|done]. intros x m1 m2. apply cleanupStatusUpdateStream_inv'.
Qed.

Lemma cleanup_all_inv m m' : inv D m → cleanup_all m = Some m' → inv D m'.
Proof.
  unfold cleanup_all. intros Hinv.
  destruct (foreach _ _ m) as [m1|] eqn:H; [|done]. simpl.
  destruct (_ && _); [|done]. intros [= <-].
  revert H. apply foreach_inv; [|done]. intros x m2 m3. apply cleanupStatusUpdateStream_inv'.
Qed.

Lemma pause_inv m : inv D m → inv D (pause m).
Proof.
  intros [HM HT]. split; [|done]. simpl.
  intros i s Hi. destruct (HM i s Hi) as [(? & ? & ?) ?].
  repeat split; done.
Qed.

Lemma set_fs_inv x m : inv D m → inv D (set_fs x m).
Proof. done. Qed.

Lemma set_clock_inv x m : inv D m → inv D (set_clock x m).
Proof. done. Qed.

Lemma createStatusUpdateStream_inv io sid fid checkpoint m r m1 :
  inv D m → streams m !! sid = None →
  createStatusUpdateStream getPath io sid fid checkpoint m = (r, m1) → inv D m1.
Proof.
  intros [HM HT] Hnone H.
  apply createStatusUpdateStream_spec in H as [(e & -> & fs' & ->)|(-> & H)]; [done|].
  simpl in H. destruct H as (Hs & Hi & Hp & Ht & _).
  split; [|by rewrite Ht]. rewrite Hs, Hi, Hp.
  apply streams_ok_put.
  - apply streams_ok_delete. destruct fid; [by apply streams_ok_index_insert|done].
  - repeat split; simpl; [by intros [? ?]|done].
  - destruct fid as [f|]; [by apply indexed_insert_self|]. by intros f.
Qed.

Lemma put_stream_inv sid s m :
  inv D m → stream_ok (paused m) s → indexed (frameworkStreams m) sid s →
  inv D (put_stream sid s m).
Proof.
  intros [HM HT] Hs Hi. split; [|done]. simpl.
  apply streams_ok_put; [by apply streams_ok_delete|done..].
Qed.

Lemma update_registered_inv io u sid checkpoint m s0 r m' :
  inv D m → streams m !! sid = Some s0 →
  m_update io u sid checkpoint m = Some (r, m') → inv D m'.
Proof.
  intros Hinv Hs0. pose proof Hinv as [HM HT].
  destruct (streams_ok_lookup _ _ _ _ _ HM Hs0) as [(Hterm & Hto1 & Hto2) Hidx].
  unfold update. rewrite Hs0. simpl. rewrite Hs0. simpl.
  destruct (negb (eqb _ checkpoint)); [by intros [= <- <-]|].
  destruct (negb (eqb (has_framework_id u) _)) eqn:Hc2; [by intros [= <- <-]|].
  destruct (has_framework_id u && _) eqn:Hc3; [by intros [= <- <-]|].
  assert ((if has_framework_id u then framework_id u
           else StatusUpdateStream.frameworkId s0) = StatusUpdateStream.frameworkId s0) as Hfid.
  { destruct (has_framework_id u); [|done]. simpl in Hc3.
    apply bool_decide_eq_false in Hc3.
    destruct (decide (framework_id u = StatusUpdateStream.frameworkId s0)); [done|].
    by destruct Hc3. }
  clear Hc2 Hc3.
  destruct (StatusUpdateStream.update _ io u s0 (fs m)) as [[[res s1] fs1]|] eqn:Hu; [|done].
  simpl. apply update_cases in Hu as [(-> & He & Hh)|[(Hr & -> & ->)|(-> & He & ->)]].
  - apply _handle_update_spec in Hh as (a & Ha & ->). rewrite Hfid. simpl.
    rewrite He. simpl.
    destruct (negb (paused m)) eqn:Hp; simpl.
    + case_bool_decide as Hlen.
      * case_bool_decide; [done|].
        unfold StatusUpdateStream.next. simpl.
        destruct (StatusUpdateStream.pending s0 ++ [u]) as [|n q] eqn:Hq.
        { by destruct (StatusUpdateStream.pending s0). }
        destruct (forward_and_arm _ _ _ _ _) as [m3|] eqn:Hf; [|done]. simpl.
        intros [= <- <-]. eapply forward_and_arm_inv; [exact Hf|simpl..|exact D_min].
        -- rewrite delete_insert_eq. by apply streams_ok_delete.
        -- done.
        -- done.
        -- done.
        -- done.
      * intros [= <- <-]. apply (put_stream_inv sid _ (set_fs fs1 m)); [done| |done].
        repeat split; simpl; [done| |].
        -- intros _. by destruct (StatusUpdateStream.pending s0).
        -- intros Hpz _ _. apply Hto2; [done..|].
           intros Hnil. rewrite Hnil in Hlen. by destruct Hlen.
    + intros [= <- <-]. apply (put_stream_inv sid _ (set_fs fs1 m)); [done| |done].
      repeat split; simpl; [done| |].
      * intros _. by destruct (StatusUpdateStream.pending s0).
      * intros Hpz. simpl in Hpz. rewrite Hpz in Hp. done.
  - assert (put_stream sid s0 (set_fs (fs m) m) = m) as ->.
    { destruct m; unfold put_stream, set_streams, set_fs; simpl in *.
      by rewrite insert_id. }
    destruct res as [e|[|]]; [by intros [= <- <-]|done|by intros [= <- <-]].
  - intros [= <- <-]. apply (put_stream_inv sid _ (set_fs fs1 m)); [done| |].
    + by apply stream_ok_set_error.
    + by apply indexed_set_error.
Qed.

Lemma update_inv io u sid checkpoint m r m' :
  inv D m → m_update io u sid checkpoint m = Some (r, m') → inv D m'.
Proof.
  intros Hinv. destruct (streams m !! sid) as [s0|] eqn:Hs0.
  { by apply update_registered_inv with s0. }
  destruct (createStatusUpdateStream getPath io sid (framework_id u) checkpoint m)
    as [[e|[]] m1] eqn:Hc.
  - unfold update. rewrite Hs0, Hc. intros [= <- <-].
    by eapply createStatusUpdateStream_inv.
  - rewrite (update_after_create isTerminalState getPath RETRY_MIN _ _ _ _ _ _ Hs0 Hc).
    pose proof (createStatusUpdateStream_inv _ _ _ _ _ _ _ Hinv Hs0 Hc) as Hinv1.
    apply createStatusUpdateStream_spec in Hc as [(e & ? & _)|(_ & Hs & _)]; [done|].
    simpl in Hs. eapply update_registered_inv; [done|].
    rewrite Hs. apply lookup_insert_eq.
Qed.

Lemma acknowledgement_inv io sid uuid m r m' :
  inv D m → m_acknowledgement io sid uuid m = Some (r, m') → inv D m'.
Proof.
  intros Hinv. pose proof Hinv as [HM HT]. unfold acknowledgement.
  destruct (streams m !! sid) as [s0|] eqn:Hs0; [|by intros [= <- <-]].
  destruct (streams_ok_lookup _ _ _ _ _ HM Hs0) as [(Hterm & Hto1 & Hto2) Hidx].
  destruct (StatusUpdateStream.acknowledgement _ io uuid s0 (fs m))
    as [[[res s1] fs1]|] eqn:Ha; [|done].
  simpl. apply acknowledgement_cases in Ha
    as [(-> & He & h & q & Hq & Hh & _ & Hs1)|[(Hr & -> & ->)|(-> & He & ->)]].
  - apply _handle_ack_spec in Hs1 as (a & _ & ->).
    rewrite put_stream_twice.
    unfold StatusUpdateStream.next, StatusUpdateStream.set_timeout. simpl.
    rewrite Hterm, Hq, He. simpl.
    destruct (isTerminalState (status_state h)) eqn:Hfin.
    + destruct q as [|n q'];
        (destruct (cleanupStatusUpdateStream _ _) as [m3|] eqn:Hc; [|done]);
        simpl; intros [= <- <-];
        (eapply cleanupStatusUpdateStream_inv; [exact Hc|simpl|done]);
        rewrite delete_insert_eq; by apply streams_ok_delete.
    + destruct q as [|n q']; simpl.
      * intros [= <- <-]. apply (put_stream_inv sid _ (set_fs fs1 m)); [done| |done].
        (split; [|split]); simpl; [done|by intros [? ?]|done].
      * destruct (negb (paused m)) eqn:Hp.
        -- destruct (forward_and_arm _ _ _ _ _) as [m3|] eqn:Hf; [|done]. simpl.
           intros [= <- <-].
           eapply forward_and_arm_inv; [exact Hf|simpl..|exact D_min]; try done.
           rewrite delete_insert_eq. by apply streams_ok_delete.
        -- intros [= <- <-]. apply (put_stream_inv sid _ (set_fs fs1 m)); [done| |done].
           (split; [|split]); simpl; [done|by intros [? ?]|].
           intros Hpz. rewrite Hpz in Hp. done.
  - rewrite put_stream_same by done.
    destruct res as [e|[|]]; [by intros [= <- <-]|done|by intros [= <- <-]].
  - intros [= <- <-]. apply (put_stream_inv sid _ (set_fs fs1 m)); [done| |].
    + by apply stream_ok_set_error.
    + by apply indexed_set_error.
Qed.

Lemma recoverStatusUpdateStream_inv io sid strict m r m' :
  inv D m → m_recoverStatusUpdateStream io sid strict m = Some (r, m') → inv D m'.
Proof.
  intros Hinv. pose proof Hinv as [HM HT]. unfold recoverStatusUpdateStream.
  destruct (StatusUpdateStream.recover _ io sid (getPath sid) strict (fs m))
    as [[[e| |[s st]] fs1]|] eqn:Hr; simpl; [by intros [= <- <-]..| |done].
  apply recover_fresh in Hr as (Hto & He & _).
  destruct (StatusUpdateStream.terminated s) eqn:Hterm; [by intros [= <- <-]|].
  unfold StatusUpdateStream.next. rewrite He.
  set (m2 := match StatusUpdateStream.frameworkId s with
             | Some f => _ | None => _ end).
  assert (inv D m2 ∧ indexed (frameworkStreams m2) sid s ∧ paused m2 = paused m) as (Hinv2 & Hidx & Hp2).
  { subst m2. destruct (StatusUpdateStream.frameworkId s) as [f|] eqn:Hf.
    - split; [|split; [by apply indexed_insert_self|done]].
      split; [|done]. simpl. by apply streams_ok_index_insert.
    - split; [done|]. split; [|done]. intros f. congruence. }
  clearbody m2. destruct Hinv2 as [HM2 HT2].
  destruct (StatusUpdateStream.pending s) as [|n q] eqn:Hq.
  - intros [= <- <-]. apply put_stream_inv; [done| |done].
    (split; [|split]); [done| |done]. rewrite Hto. by intros [? ?].
  - destruct (negb (paused m2)) eqn:Hp.
    + destruct (forward_and_arm _ _ _ _ _) as [m3|] eqn:Hf; [|done]. simpl.
      intros [= <- <-].
      eapply forward_and_arm_inv; [exact Hf| | | | | |exact D_min]; try done.
      * by apply streams_ok_delete.
      * by rewrite Hq.
    + intros [= <- <-]. apply put_stream_inv; [done| |done].
      (split; [|split]); [done|by rewrite Hq|].
      intros Hpz. rewrite Hpz in Hp. done.
Qed.

Lemma recover_from_inv io streamIds strict : ∀ state m r m',
  inv D m →
  recover_from isTerminalState getPath RETRY_MIN io streamIds strict state m = Some (r, m') →
  inv D m'.
Proof.
  induction streamIds as [|sid rest IH]; intros state m r m' Hinv; simpl.
  { by intros [= <- <-]. }
  destruct (m_recoverStatusUpdateStream io sid strict m) as [[res m1]|] eqn:Hr; [|done].
  simpl. apply recoverStatusUpdateStream_inv in Hr; [|done].
  destruct res as [e| |st]; [|by apply IH..].
  destruct strict; [|by apply IH].
  destruct (cleanup_all m1) as [m2|] eqn:Hc; [|done]. simpl.
  intros [= <- <-]. by eapply cleanup_all_inv.
Qed.

Lemma recover_inv io streamIds strict m r m' :
  inv D m → m_recover io streamIds strict m = Some (r, m') → inv D m'.
Proof. apply recover_from_inv. Qed.

Lemma resume_inv m m' : inv D m → resume RETRY_MIN m = Some m' → inv D m'.
Proof.
  intros [HM HT]. unfold resume. intros H.
  assert (resuming D (frameworkStreams m) [] m') as (Hp & HT' & Hi & _ & _ & HM').
  { revert H. apply foreach_ind.
    - intros [sid s] rest m1 m2 (Hp & HT1 & Hi & Hnd & Hrest & HM1) Hstep.
      simpl in Hnd. apply NoDup_cons in Hnd as [Hnotin Hnd].
      assert (streams m1 !! sid = Some s) as Hs by (apply Hrest; left).
      destruct (HM1 sid s Hs) as [(Hterm & Hto1 & _) Hidx].
      assert (∀ i, i ≠ sid → i ∈ ((sid, s) :: rest).*1 ↔ i ∈ rest.*1) as Hmem.
      { intros i Hne. simpl. set_solver. }
      unfold resume_stream, StatusUpdateStream.next in Hstep.
      destruct (StatusUpdateStream.error s) as [e|] eqn:He;
        [|destruct (StatusUpdateStream.pending s) as [|u q] eqn:Hq].
      + injection Hstep as <-. split_and!; [done..| |].
        * intros i x Hin. apply Hrest. by right.
        * intros i x Hix. destruct (HM1 i x Hix) as [Hok ?]. split; [|done].
          destruct (decide (i = sid)) as [->|Hne].
          -- rewrite Hs in Hix. injection Hix as <-.
             destruct Hok as (? & ? & ?). split; [done|]. split; [done|].
             intros _ He' Hq'. congruence.
          -- by rewrite <- (bool_decide_ext _ _ (Hmem i Hne)).
      + injection Hstep as <-. split_and!; [done..| |].
        * intros i x Hin. apply Hrest. by right.
        * intros i x Hix. destruct (HM1 i x Hix) as [Hok ?]. split; [|done].
          destruct (decide (i = sid)) as [->|Hne].
          -- rewrite Hs in Hix. injection Hix as <-.
             destruct Hok as (? & ? & ?). split; [done|]. split; [done|].
             intros _ He' Hq'. congruence.
          -- by rewrite <- (bool_decide_ext _ _ (Hmem i Hne)).
      + apply forward_and_arm_spec in Hstep as [_ ->]. split_and!; simpl; [done| |done|done| |].
        * apply Forall_app. split; [done|]. constructor; [exact D_min|constructor].
        * intros i x Hin. rewrite lookup_insert_ne; [apply Hrest; by right|].
          intros <-. apply Hnotin. apply list_elem_of_fmap. by exists (sid, x).
        * intros i x. destruct (decide (i = sid)) as [->|Hne].
          -- rewrite lookup_insert_eq. intros [= <-].
             split; [|by destruct s].
             destruct s; (split; [|split]); simpl in *; [done| |eauto]. congruence.
          -- rewrite lookup_insert_ne by done. intros Hix.
             destruct (HM1 i x Hix) as [Hok ?]. split; [|done].
             by rewrite <- (bool_decide_ext _ _ (Hmem i Hne)).
    - split_and!; simpl; [done|done|done| | |].
      + apply NoDup_fst_map_to_list.
      + intros sid s. apply elem_of_map_to_list.
      + intros i x Hix. destruct (HM i x Hix) as [Hok ?]. split; [|done].
        rewrite bool_decide_eq_true_2.
        * by eapply stream_ok_paused.
        * apply list_elem_of_fmap. exists (i, x). split; [done|].
          by apply elem_of_map_to_list. }
  split; [|done]. rewrite Hp, Hi. intros i x Hix.
  destruct (HM' i x Hix) as [Hok ?]. split; [|done].
  rewrite bool_decide_eq_false_2 in Hok; [done|]. simpl. set_solver.
Qed.

Lemma timeout_inv sid d m m' :
  inv D m → D d → timeout RETRY_MAX sid d m = Some m' → inv D m'.
Proof.
  intros Hinv Hd. pose proof Hinv as [HM HT]. unfold timeout.
  destruct (paused m) eqn:Hp; [by intros [= <-]|].
  destruct (streams m !! sid) as [s|] eqn:Hs; [|by intros [= <-]].
  destruct (streams_ok_lookup _ _ _ _ _ HM Hs) as [(Hterm & Hto1 & Hto2) Hidx].
  destruct (StatusUpdateStream.pending s) as [|u q] eqn:Hq; [by intros [= <-]|].
  destruct (StatusUpdateStream.timeout s) as [deadline|]; [|done]. simpl.
  case_bool_decide; [|by intros [= <-]].
  intros Hf. eapply forward_and_arm_inv; [exact Hf| | | | | |by apply D_backoff]; try done.
  - rewrite Hp. by apply streams_ok_delete.
  - by rewrite Hq.
Qed.

Lemma deliver_inv i m m' : inv D m → deliver RETRY_MAX i m = Some m' → inv D m'.
Proof.
  intros Hinv. pose proof Hinv as [HM HT]. unfold deliver.
  destruct (timers m !! i) as [timer|] eqn:Hi; [|by intros [= <-]].
  case_bool_decide; [|by intros [= <-]].
  apply timeout_inv.
  - split; [done|]. simpl. by apply Forall_delete.
  - unfold timers_ok in HT. rewrite Forall_lookup in HT. by apply (HT i).
Qed.

Lemma step_inv e m m' : inv D m → m_step e m = Some m' → inv D m'.
Proof.
  intros Hinv. destruct e; simpl.
  - destruct (m_update _ _ _ _ _) as [[r m1]|] eqn:H; [|done]. simpl.
    intros [= <-]. by eapply update_inv.
  - destruct (m_acknowledgement _ _ _ _) as [[r m1]|] eqn:H; [|done]. simpl.
    intros [= <-]. by eapply acknowledgement_inv.
  - destruct (m_recover _ _ _ _) as [[r m1]|] eqn:H; [|done]. simpl.
    intros [= <-]. by eapply recover_inv.
  - by apply cleanup_inv.
  - intros [= <-]. by apply pause_inv.
  - by apply resume_inv.
  - by apply deliver_inv.
  - case_bool_decide; by intros [= <-].
  - by intros [= <-].
Qed.

Lemma init_inv now fs0 : inv D (init now fs0).
Proof. split; simpl; [apply map_Forall_empty|constructor]. Qed.

Lemma reachable_inv m : m_reachable m → inv D m.
Proof.
  induction 1 as [now fs0|e m m' _ IH Hstep]; [apply init_inv|by eapply step_inv].
Qed.

End ManagerInvariant.

Set Default Proof Using "Type".

(** * Properties of the manager *)

Section ManagerProperties.

Variable isTerminalState : StateValue → bool.
Variable getPath : StreamId → Path.
Variable RETRY_MIN RETRY_MAX : Duration.

Import StatusUpdateManagerProcess.

Abbreviation p_update := (update isTerminalState getPath RETRY_MIN).
Abbreviation p_acknowledgement := (acknowledgement isTerminalState RETRY_MIN).
Abbreviation p_recoverStatusUpdateStream :=
  (recoverStatusUpdateStream isTerminalState getPath RETRY_MIN).
Abbreviation p_run := (run isTerminalState getPath RETRY_MIN RETRY_MAX).
Abbreviation p_reachable := (reachable isTerminalState getPath RETRY_MIN RETRY_MAX).

Lemma run_reachable es : ∀ m m',
  p_reachable m → p_run es m = Some m' → p_reachable m'.
Proof.
  induction es as [|e es IH]; intros m m' Hm; simpl.
  - by intros [= <-].
  - destruct (step _ _ _ _ e m) as [m1|] eqn:He; [|done]. simpl.
    apply IH. by eapply reachable_step.
Qed.

(** Every registered stream of a reachable state is well formed. *)
Lemma reachable_streams_ok m :
  p_reachable m → streams_ok (paused m) (frameworkStreams m) (streams m).
Proof.
  intros H.
  by destruct (reachable_inv isTerminalState getPath RETRY_MIN RETRY_MAX
                 (λ _, True) I (λ _ _, I) m H).
Qed.

(** [cleanupStatusUpdateStream] passes its checks on a listed stream. *)
Lemma cleanupStatusUpdateStream_total sid s m :
  streams m !! sid = Some s → indexed (frameworkStreams m) sid s →
  is_Some (cleanupStatusUpdateStream sid m).
Proof.
  intros Hs Hidx. unfold cleanupStatusUpdateStream. rewrite Hs. simpl.
  destruct (StatusUpdateStream.frameworkId s) as [f|] eqn:Hf; [|by eexists].
  specialize (Hidx f Hf). unfold streams_of in Hidx.
  destruct (frameworkStreams m !! f) as [ids|]; [|set_solver]. simpl.
  case_bool_decide; by eexists.
Qed.

(** [C5] The acknowledgement of the head of a registered stream succeeds
    when its checkpoint does.  If the acknowledged update is terminal, the
    result is [false], the stream is gone from [streams] and from
    [frameworkStreams] under its framework id, and a later acknowledgement
    for the same stream id fails with "cannot find the status update
    stream".  If the update is not terminal, the result is [true] and the
    stream stays registered. *)
Theorem terminal_acknowledgement_removes_stream io m sid s h q uuid :
  p_reachable m →
  streams m !! sid = Some s →
  StatusUpdateStream.error s = None →
  StatusUpdateStream.pending s = h :: q →
  status_uuid h = Some uuid →
  uuid ∉ StatusUpdateStream.acknowledged s →
  (∀ p, StatusUpdateStream.path s = Some p → write_outcome io p = WriteOk) →
  ∃ m',
    p_acknowledgement io sid uuid m
      = Some (Val (negb (isTerminalState (status_state h))), m')
    ∧ (isTerminalState (status_state h) = true →
         streams m' !! sid = None
         ∧ (∀ f, StatusUpdateStream.frameworkId s = Some f →
                 sid ∉ streams_of f (frameworkStreams m'))
         ∧ ∀ io' uuid',
             p_acknowledgement io' sid uuid' m' = Some (Err CannotFindStream, m'))
    ∧ (isTerminalState (status_state h) = false → is_Some (streams m' !! sid)).
Proof.
  intros Hreach Hs He Hq Hu Hack Hw.
  destruct (streams_ok_lookup _ _ _ _ _ (reachable_streams_ok m Hreach) Hs)
    as [(Hterm & _ & _) Hidx].
  unfold acknowledgement at 1. rewrite Hs.
  rewrite (acknowledgement_head isTerminalState io uuid h q s (fs m)) by done.
  simpl. rewrite put_stream_twice.
  unfold StatusUpdateStream.next, StatusUpdateStream.set_timeout. simpl.
  rewrite Hterm, He.
  destruct (isTerminalState (status_state h)) eqn:Hfin.
  - set (s2 := StatusUpdateStream.mk _ _ _ _ _ _ _ _ _).
    set (m2 := put_stream sid s2 _).
    destruct (cleanupStatusUpdateStream_total sid s2 m2) as [m3 Hc].
    { apply lookup_insert_eq. }
    { exact Hidx. }
    exists m3. split.
    { destruct q; simpl; rewrite Hc; done. }
    split; [|done]. intros _.
    apply cleanupStatusUpdateStream_spec in Hc
      as (s' & Hs' & Hstr & _ & _ & _ & _ & _ & _ & Hgone).
    assert (streams m3 !! sid = None) as Hnone.
    { rewrite Hstr. apply lookup_delete_eq. }
    split; [done|]. split.
    + intros f Hf. apply Hgone.
      subst m2. simpl in Hs'. rewrite lookup_insert_eq in Hs'. injection Hs' as <-.
      exact Hf.
    + intros io' uuid'. unfold acknowledgement. by rewrite Hnone.
  - destruct q as [|n q']; simpl.
    + eexists. split; [done|]. split; [done|]. intros _. simpl.
      rewrite lookup_insert_eq. by eexists.
    + destruct (negb (paused m)) eqn:Hp.
      * unfold forward_and_arm, forward. simpl.
        destruct (paused m); [done|]. simpl.
        eexists. split; [done|]. split; [done|]. intros _. simpl.
        rewrite lookup_insert_eq. by eexists.
      * eexists. split; [done|]. split; [done|]. intros _. simpl.
        rewrite lookup_insert_eq. by eexists.
Qed.

(** [C8], as amended.  In every reachable state a stream has a timeout only
    while an update is pending, and a pending update of a stream without
    sticky error has a timeout whenever the manager is not paused.
    [pause()] itself changes no stream, so the timeouts stay set while the
    manager is paused. *)
Theorem timeout_set_while_pending m sid s :
  p_reachable m →
  streams m !! sid = Some s →
  (is_Some (StatusUpdateStream.timeout s) → StatusUpdateStream.pending s ≠ [])
  ∧ (StatusUpdateStream.pending s ≠ [] → paused m = false →
     StatusUpdateStream.error s = None → is_Some (StatusUpdateStream.timeout s))
  ∧ streams (pause m) = streams m.
Proof.
  intros Hreach Hs.
  destruct (streams_ok_lookup _ _ _ _ _ (reachable_streams_ok m Hreach) Hs)
    as [(_ & Hto1 & Hto2) _].
  split; [done|]. split; [|done]. intros Hq Hp He. by apply Hto2.
Qed.

(** Every timer of a reachable state was armed with a duration between
    [RETRY_MIN] and [RETRY_MAX]. *)
Lemma reachable_timers_bounded m :
  (0 ≤ RETRY_MIN ≤ RETRY_MAX)%Z →
  p_reachable m →
  Forall (λ timer, (RETRY_MIN ≤ timer_duration timer ≤ RETRY_MAX)%Z) (timers m).
Proof.
  intros Hb H.
  refine (proj2 (reachable_inv isTerminalState getPath RETRY_MIN RETRY_MAX
                   (λ d, (RETRY_MIN ≤ d ≤ RETRY_MAX)%Z) _ _ m H)); lia.
Qed.

(** [C9] The retry schedule.  An accepted update that finds the queue of its
    stream empty is forwarded and its timer armed with [RETRY_MIN].  A timer
    that expires while the manager is not paused, the stream is registered,
    an update is pending and the deadline has passed forwards the head again
    and arms a timer with [min (2 * duration) RETRY_MAX], where [duration]
    is what the expired timer was armed with.  After a non-terminal
    acknowledgement the next pending update is forwarded with [RETRY_MIN].
    No timer of a reachable state has a duration above [RETRY_MAX]. *)
Theorem retry_schedule_bounded_backoff :
  (RETRY_MIN ≤ RETRY_MAX)%Z →
  (∀ io u a sid s m,
     streams m !! sid = Some s → paused m = false →
     StatusUpdateStream.error s = None →
     StatusUpdateStream.pending s = [] → StatusUpdateStream.timeout s = None →
     framework_id u = StatusUpdateStream.frameworkId s →
     status_uuid u = Some a →
     a ∉ StatusUpdateStream.acknowledged s → a ∉ StatusUpdateStream.received s →
     (∀ p, StatusUpdateStream.path s = Some p → write_outcome io p = WriteOk) →
     ∃ m', p_update io u sid (StatusUpdateStream.checkpointed s) m = Some (Val (), m')
       ∧ forwarded m' = forwarded m ++ [u]
       ∧ timers m' = timers m ++ [mkTimer (clock m + RETRY_MIN) sid RETRY_MIN]
       ∧ StatusUpdateStream.timeout <$> streams m' !! sid
         = Some (Some (clock m + RETRY_MIN)%Z))
  ∧ (∀ sid duration m s u q deadline,
       paused m = false → streams m !! sid = Some s →
       StatusUpdateStream.pending s = u :: q →
       StatusUpdateStream.timeout s = Some deadline → (deadline ≤ clock m)%Z →
       let duration_ := Z.min (duration * 2) RETRY_MAX in
       ∃ m', timeout RETRY_MAX sid duration m = Some m'
         ∧ forwarded m' = forwarded m ++ [u]
         ∧ timers m' = timers m ++ [mkTimer (clock m + duration_) sid duration_]
         ∧ StatusUpdateStream.timeout <$> streams m' !! sid
           = Some (Some (clock m + duration_)%Z)
         ∧ (duration_ ≤ RETRY_MAX)%Z)
  ∧ (∀ io sid uuid m s h n q,
       streams m !! sid = Some s → paused m = false →
       StatusUpdateStream.error s = None →
       StatusUpdateStream.terminated s = false →
       StatusUpdateStream.pending s = h :: n :: q →
       status_uuid h = Some uuid → uuid ∉ StatusUpdateStream.acknowledged s →
       isTerminalState (status_state h) = false →
       (∀ p, StatusUpdateStream.path s = Some p → write_outcome io p = WriteOk) →
       ∃ m', p_acknowledgement io sid uuid m = Some (Val true, m')
         ∧ forwarded m' = forwarded m ++ [n]
         ∧ timers m' = timers m ++ [mkTimer (clock m + RETRY_MIN) sid RETRY_MIN]
         ∧ StatusUpdateStream.timeout <$> streams m' !! sid
           = Some (Some (clock m + RETRY_MIN)%Z))
  ∧ (∀ m, p_reachable m →
       Forall (λ timer, (timer_duration timer ≤ RETRY_MAX)%Z) (timers m)).
Proof.
  intros Hb. split_and!.
  - intros io u a sid s m Hs Hp He Hq Hto Hfid Hu Hack Hrec Hw.
    unfold update. rewrite Hs. simpl. rewrite Hs. simpl.
    rewrite eqb_reflx. simpl.
    unfold has_framework_id. rewrite Hfid.
    rewrite eqb_reflx. simpl.
    rewrite (bool_decide_eq_false_2 (_ ≠ _)) by (intros Hne; by apply Hne).
    rewrite andb_false_r.
    rewrite (update_accepts isTerminalState io u a s (fs m)) by done.
    simpl. rewrite Hp, Hq, Hto, He. simpl.
    unfold forward_and_arm, forward. simpl. rewrite Hp. simpl.
    eexists. split; [done|]. simpl. rewrite lookup_insert_eq. done.
  - intros sid duration m s u q deadline Hp Hs Hq Hto Hle duration_.
    unfold timeout. rewrite Hp, Hs, Hq, Hto. simpl.
    rewrite bool_decide_eq_true_2 by done.
    unfold forward_and_arm, forward. rewrite Hp. simpl.
    eexists. split; [done|]. simpl. rewrite lookup_insert_eq.
    split_and!; [done..|]. subst duration_. lia.
  - intros io sid uuid m s h n q Hs Hp He Hterm Hq Hu Hack Hfin Hw.
    unfold acknowledgement. rewrite Hs.
    rewrite (acknowledgement_head isTerminalState io uuid h (n :: q) s (fs m)) by done.
    simpl. rewrite put_stream_twice.
    unfold StatusUpdateStream.next, StatusUpdateStream.set_timeout. simpl.
    rewrite Hterm, He, Hfin, Hp. simpl.
    unfold forward_and_arm, forward. simpl. rewrite Hp. simpl.
    eexists. split; [done|]. simpl. rewrite lookup_insert_eq. done.
  - intros m Hm.
    refine (proj2 (reachable_inv isTerminalState getPath RETRY_MIN RETRY_MAX
                     (λ d, (d ≤ RETRY_MAX)%Z) _ _ m Hm)); lia.
Qed.


(** The checks of [update] on a registered stream pass when the update
    agrees with the stream. *)
Lemma update_checks_pass u s checkpoint :
  StatusUpdateStream.checkpointed s = checkpoint →
  framework_id u = StatusUpdateStream.frameworkId s →
  negb (eqb (StatusUpdateStream.checkpointed s) checkpoint) = false
  ∧ negb (eqb (has_framework_id u)
              (bool_decide (is_Some (StatusUpdateStream.frameworkId s)))) = false
  ∧ has_framework_id u
    && bool_decide (framework_id u ≠ StatusUpdateStream.frameworkId s) = false.
Proof.
  intros <- Hfid. unfold has_framework_id. rewrite Hfid, !eqb_reflx.
  rewrite (bool_decide_eq_false_2 (_ ≠ _)) by (intros Hne; by apply Hne).
  by rewrite andb_false_r.
Qed.




(** [C4] A failed checkpoint is sticky.  When the write of a checkpointed
    stream fails, [update] (of a new update) and [acknowledgement] (of the
    head) return the error; the stream is the old one with [error] set, so
    that [received], [acknowledged], [pending] and [terminated] are as
    before; afterwards [update], [acknowledgement] and [next] return that
    error and change nothing; and the manager keeps the stream registered,
    answering later calls for it with an error and no change. *)
Theorem checkpoint_failure_is_sticky io u a uuid h q sid m s p torn :
  streams m !! sid = Some s →
  StatusUpdateStream.path s = Some p →
  StatusUpdateStream.error s = None →
  write_outcome io p = WriteError torn →
  framework_id u = StatusUpdateStream.frameworkId s →
  let s1 := StatusUpdateStream.set_error (Some WriteFailed) s in
  (status_uuid u = Some a →
   a ∉ StatusUpdateStream.acknowledged s → a ∉ StatusUpdateStream.received s →
   ∃ fs',
     StatusUpdateStream.update isTerminalState io u s (fs m)
       = Some (Err WriteFailed, s1, fs')
     ∧ p_update io u sid true m = Some (Err WriteFailed, put_stream sid s1 (set_fs fs' m)))
  ∧ (StatusUpdateStream.pending s = h :: q → status_uuid h = Some uuid →
     uuid ∉ StatusUpdateStream.acknowledged s →
     ∃ fs',
       StatusUpdateStream.acknowledgement isTerminalState io uuid s (fs m)
         = Some (Err WriteFailed, s1, fs')
       ∧ p_acknowledgement io sid uuid m
         = Some (Err WriteFailed, put_stream sid s1 (set_fs fs' m)))
  ∧ (StatusUpdateStream.received s1 = StatusUpdateStream.received s
     ∧ StatusUpdateStream.acknowledged s1 = StatusUpdateStream.acknowledged s
     ∧ StatusUpdateStream.pending s1 = StatusUpdateStream.pending s
     ∧ StatusUpdateStream.terminated s1 = StatusUpdateStream.terminated s
     ∧ StatusUpdateStream.error s1 = Some WriteFailed)
  ∧ (∀ io' u' fs1,
       StatusUpdateStream.update isTerminalState io' u' s1 fs1
       = Some (Err WriteFailed, s1, fs1))
  ∧ (∀ io' uuid' fs1,
       StatusUpdateStream.acknowledgement isTerminalState io' uuid' s1 fs1
       = Some (Err WriteFailed, s1, fs1))
  ∧ StatusUpdateStream.next s1 = RError WriteFailed
  ∧ (∀ fs', streams (put_stream sid s1 (set_fs fs' m)) !! sid = Some s1)
  ∧ (∀ m1, streams m1 !! sid = Some s1 →
       (∀ io' u' checkpoint, ∃ e, p_update io' u' sid checkpoint m1 = Some (Err e, m1))
       ∧ (∀ io' uuid', p_acknowledgement io' sid uuid' m1 = Some (Err WriteFailed, m1))).
Proof.
  intros Hs Hp He Hw Hfid s1.
  assert (StatusUpdateStream.error s1 = Some WriteFailed) as He1 by by destruct s.
  split; [|split; [|split; [by destruct s|split_and!]]].
  - intros Hu Hack Hrec.
    destruct (handle_write_fails isTerminalState io u UPDATE s (fs m) p torn Hp He Hw)
      as [fs' Hh].
    assert (StatusUpdateStream.update isTerminalState io u s (fs m)
            = Some (Err WriteFailed, s1, fs')) as Hupd.
    { unfold StatusUpdateStream.update. rewrite He, Hu.
      rewrite !bool_decide_eq_false_2 by done. by rewrite Hh. }
    exists fs'. split; [done|].
    unfold update. rewrite Hs. simpl. rewrite Hs. simpl.
    destruct (update_checks_pass u s true) as (-> & -> & ->); [|done|].
    { unfold StatusUpdateStream.checkpointed. rewrite Hp.
      apply bool_decide_eq_true_2. by eexists. }
    by rewrite Hupd.
  - intros Hq Hu Hack.
    destruct (handle_write_fails isTerminalState io h ACK s (fs m) p torn Hp He Hw)
      as [fs' Hh].
    assert (StatusUpdateStream.acknowledgement isTerminalState io uuid s (fs m)
            = Some (Err WriteFailed, s1, fs')) as Hackd.
    { unfold StatusUpdateStream.acknowledgement, StatusUpdateStream.next.
      rewrite He, Hq, Hu. simpl.
      rewrite bool_decide_eq_false_2 by done.
      rewrite bool_decide_eq_false_2 by (intros Hne; by apply Hne).
      by rewrite Hh. }
    exists fs'. split; [done|].
    unfold acknowledgement. rewrite Hs, Hackd. done.
  - intros. by apply sticky_error_update.
  - intros. by apply sticky_error_acknowledgement.
  - by apply sticky_error_next.
  - intros fs'. simpl. apply lookup_insert_eq.
  - intros m1 Hs1. split.
    + intros io' u' checkpoint.
      unfold update. rewrite Hs1. simpl. rewrite Hs1. simpl.
      destruct (negb (eqb _ checkpoint)); [by eexists|].
      destruct (negb (eqb (has_framework_id u') _)); [by eexists|].
      destruct (has_framework_id u' && _); [by eexists|].
      rewrite put_stream_same by done. by eexists.
    + intros io' uuid'. clearbody s1. unfold acknowledgement. rewrite Hs1.
      rewrite (sticky_error_acknowledgement isTerminalState WriteFailed) by done. simpl.
      by rewrite put_stream_same.
Qed.

(** An update refused for a mismatch leaves the manager as it was, and so
    does an update without [status_uuid] for a registered stream. *)
Lemma schema_error_on_registered_stream io u sid checkpoint m s e m' :
  streams m !! sid = Some s →
  p_update io u sid checkpoint m = Some (Err e, m') →
  e = MismatchedCheckpoint ∨ e = MismatchedFrameworkID ∨ e = MissingStatusUuid →
  m' = m.
Proof.
  intros Hs H Hkind. unfold update in H. rewrite Hs in H. simpl in H.
  rewrite Hs in H. simpl in H.
  destruct (negb (eqb _ checkpoint)); [by simplify_eq|].
  destruct (negb (eqb (has_framework_id u) _)); [by simplify_eq|].
  destruct (has_framework_id u && _); [by simplify_eq|].
  destruct (StatusUpdateStream.update _ io u s (fs m)) as [[[res s1] fs1]|] eqn:Hu; [|done].
  simpl in H.
  apply update_cases in Hu as [(-> & He & Hh)|[(Hr & -> & ->)|(-> & He & ->)]].
  - apply _handle_update_spec in Hh as (a & Ha & ->).
    unfold StatusUpdateStream.next in H. simpl in H. rewrite He in H.
    destruct (negb (paused _) && _); [|done].
    case_bool_decide; [done|].
    destruct (StatusUpdateStream.pending s ++ [u]); [done|].
    by destruct (forward_and_arm _ _ _ _ _).
  - rewrite put_stream_same in H by done.
    destruct res as [?|[|]]; [by simplify_eq|done..].
  - injection H as <- _. by destruct Hkind as [? | [? | ?]].
Qed.

End ManagerProperties.

(** * The stream and its log over time *)

Lemma uuids_app l1 l2 :
  StreamLife.uuids (l1 ++ l2) = StreamLife.uuids l1 ++ StreamLife.uuids l2.
Proof. apply omap_app. Qed.

Lemma consistent_core s s0 acc : core s = core s0 → consistent s acc → consistent s0 acc.
Proof.
  unfold core, consistent. intros [= Ht Hp Hr Ha]. by rewrite Hp, Hr, Ha.
Qed.

Lemma filter_none {A} (P : A → Prop) `{∀ x, Decision (P x)} (l : list A) :
  (∀ x, x ∈ l → ¬ P x) → filter P l = [].
Proof.
  induction l as [|x l IH]; intros Hl; [done|].
  rewrite filter_cons_False by (apply Hl; left). apply IH.
  intros y Hy. apply Hl. by right.
Qed.

Lemma filter_all {A} (P : A → Prop) `{∀ x, Decision (P x)} (l : list A) :
  (∀ x, x ∈ l → P x) → filter P l = l.
Proof.
  induction l as [|x l IH]; intros Hl; [done|].
  rewrite filter_cons_True by (apply Hl; left). f_equal. apply IH.
  intros y Hy. apply Hl. by right.
Qed.

Lemma filter_not_in_left (l1 l2 : list N) :
  NoDup (l1 ++ l2) →
  filter (λ a, a ∉ (list_to_set l1 : gset N)) (l1 ++ l2) = l2.
Proof.
  intros Hnd. apply NoDup_app in Hnd as (_ & Hdisj & _).
  rewrite filter_app, filter_none, filter_all; [done| |].
  - intros a Ha Hin. apply elem_of_list_to_set in Hin. by apply (Hdisj a).
  - intros a Ha Hn. apply Hn. by apply elem_of_list_to_set.
Qed.

(** What the claim states follows from [consistent]. *)
Lemma consistent_claim s acc :
  consistent s acc →
  StatusUpdateStream.acknowledged s ⊆ StatusUpdateStream.received s
  ∧ StreamLife.uuids (StatusUpdateStream.pending s)
    = filter (λ a, a ∉ StatusUpdateStream.acknowledged s) (StreamLife.uuids acc)
  ∧ (∀ a, a ∈ StreamLife.uuids (StatusUpdateStream.pending s)
          ↔ a ∈ StatusUpdateStream.received s ∖ StatusUpdateStream.acknowledged s)
  ∧ NoDup (StreamLife.uuids (StatusUpdateStream.pending s)).
Proof.
  intros (Hall & Hnd & Hrec & acked & Hacc & Hack).
  rewrite Hacc, uuids_app in Hnd, Hrec. rewrite Hacc, uuids_app.
  rewrite Hrec, Hack. split_and!.
  - set_solver.
  - by rewrite filter_not_in_left.
  - intros a. apply NoDup_app in Hnd as (_ & Hdisj & _). set_solver.
  - by apply NoDup_app in Hnd as (_ & _ & ?).
Qed.

Section StreamLifeProperties.

Variable isTerminalState : StateValue → bool.
Variable sid : StreamId.
Variable p : Path.

Abbreviation l__handle := (StatusUpdateStream._handle isTerminalState).
Abbreviation l_replay := (StatusUpdateStream.replay isTerminalState).
Abbreviation l_update := (StatusUpdateStream.update isTerminalState).
Abbreviation l_acknowledgement := (StatusUpdateStream.acknowledgement isTerminalState).
Abbreviation l_recover := (StatusUpdateStream.recover isTerminalState).
Abbreviation fresh := (StatusUpdateStream.new sid (Some p)).

Lemma consistent_new fid q :
  consistent (StatusUpdateStream.set_frameworkId fid (StatusUpdateStream.new sid q)) [].
Proof.
  split_and!; [constructor|constructor|done|]. by exists [].
Qed.

Lemma consistent_set_error e s acc :
  consistent s acc → consistent (StatusUpdateStream.set_error e s) acc.
Proof. apply consistent_core. by destruct s. Qed.

Lemma consistent_update u a s s' acc :
  consistent s acc → l__handle u UPDATE s = Some s' →
  status_uuid u = Some a → a ∉ StatusUpdateStream.received s →
  consistent s' (acc ++ [u]).
Proof.
  intros (Hall & Hnd & Hrec & acked & Hacc & Hack) Hh Hu Hfresh.
  apply _handle_update_spec in Hh as (a' & Ha' & ->).
  rewrite Hu in Ha'. injection Ha' as <-.
  unfold consistent. simpl. rewrite uuids_app. unfold StreamLife.uuids at 2 4. simpl.
  rewrite Hu. simpl. split_and!.
  - apply Forall_app. split; [done|]. constructor; [by eexists|constructor].
  - apply NoDup_app. split_and!; [done| |apply NoDup_singleton].
    intros x Hx Hxa. apply list_elem_of_singleton in Hxa as ->.
    apply Hfresh. rewrite Hrec. by apply elem_of_list_to_set.
  - rewrite Hrec, list_to_set_app_L. set_solver.
  - exists acked. split; [|done]. by rewrite Hacc, <- app_assoc.
Qed.

Lemma consistent_acknowledgement h q s s' acc :
  consistent s acc → StatusUpdateStream.pending s = h :: q →
  l__handle h ACK s = Some s' →
  consistent s' acc.
Proof.
  intros (Hall & Hnd & Hrec & acked & Hacc & Hack) Hq Hh.
  apply _handle_ack_spec in Hh as (a & Ha & ->).
  unfold consistent. simpl. rewrite Hq. simpl. split_and!; [done..|].
  exists (acked ++ [h]). split.
  - by rewrite Hacc, Hq, <- app_assoc.
  - rewrite uuids_app, list_to_set_app_L, Hack. unfold StreamLife.uuids at 2. simpl.
    rewrite Ha. simpl. set_solver.
Qed.

(** [_handle] acts on the core fields only. *)
Lemma _handle_core u type s s0 s' :
  core s = core s0 → StatusUpdateStream.error s0 = None →
  l__handle u type s = Some s' →
  ∃ s0', l__handle u type s0 = Some s0' ∧ core s' = core s0'.
Proof.
  unfold core. intros [= Ht Hp Hr Ha] He0 Hh.
  unfold StatusUpdateStream._handle in *. rewrite He0. simpl.
  case_bool_decide; [done|].
  destruct (status_uuid u) as [a|]; [|done]. simpl in *.
  destruct type; injection Hh as <-; eexists; (split; [done|]); simpl;
    by rewrite Ht, Hp, Hr, Ha.
Qed.

(** Reading complete records first and the rest afterwards. *)
Lemma replay_app_good records : ∀ rest s ups pos,
  l_replay ((Good <$> records) ++ rest) s ups pos
  = match l_replay (Good <$> records) s ups pos with
    | Some (StatusUpdateStream.ReplayDone s1 ups1 pos1 _) => l_replay rest s1 ups1 pos1
    | other => other
    end.
Proof.
  induction records as [|r records IH]; intros rest s ups pos; simpl; [done|].
  destruct r as [u|a].
  - destruct (l__handle u UPDATE s) as [s1|]; [|done]. simpl. apply IH.
  - destruct (StatusUpdateStream.next s) as [e| |u]; [done..|].
    destruct (l__handle u ACK s) as [s1|]; [|done]. simpl. apply IH.
Qed.

(** The replay of the records read is the replay of the file. *)
Lemma replay_good_prefix chunks : ∀ s ups pos s' ups' pos' c,
  l_replay chunks s ups pos = Some (StatusUpdateStream.ReplayDone s' ups' pos' c) →
  l_replay (Good <$> good_prefix chunks) s ups pos = Some (StatusUpdateStream.ReplayDone s' ups' pos' false).
Proof.
  induction chunks as [|[r| |] rest IH]; intros s ups pos s' ups' pos' c; simpl;
    [by intros [= <- <- <- <-]| |by intros [= <- <- <- <-]..].
  destruct r as [u|a].
  - destruct (l__handle u UPDATE s) as [s1|]; [|done]. simpl. apply IH.
  - destruct (StatusUpdateStream.next s) as [e| |u]; [done..|].
    destruct (l__handle u ACK s) as [s1|]; [|done]. simpl. apply IH.
Qed.

Lemma good_prefix_good records : good_prefix (Good <$> records) = records.
Proof. induction records as [|r records IH]; simpl; [done|]. by f_equal. Qed.

(** The ways [update] can end, with the files. *)
Lemma update_life_cases io u s fs0 r s' fs' :
  l_update io u s fs0 = Some (r, s', fs') →
  (r = Val true ∧ StatusUpdateStream.error s = None
     ∧ (∃ a, status_uuid u = Some a ∧ a ∉ StatusUpdateStream.received s)
     ∧ l__handle u UPDATE s = Some s' ∧ fs' = logged s (RecUpdate u) fs0)
  ∨ (r ≠ Val true ∧ s' = s ∧ fs' = fs0)
  ∨ (r = Err WriteFailed ∧ StatusUpdateStream.error s = None
     ∧ s' = StatusUpdateStream.set_error (Some WriteFailed) s
     ∧ ∃ p', StatusUpdateStream.path s = Some p'
             ∧ (fs' = fs0
                ∨ fs' = mkFS (alter (λ f, f ++ [Torn]) p' (files fs0)) (dirs fs0))).
Proof.
  unfold StatusUpdateStream.update. destruct (StatusUpdateStream.error s) as [e|] eqn:He.
  { intros [= <- <- <-]. right; left. done. }
  destruct (status_uuid u) as [a|] eqn:Hu.
  2:{ intros [= <- <- <-]. right; left. done. }
  case_bool_decide. { intros [= <- <- <-]. right; left. done. }
  case_bool_decide. { intros [= <- <- <-]. right; left. done. }
  unfold StatusUpdateStream.handle, protobuf_write, logged. rewrite He. simpl.
  destruct (StatusUpdateStream.path s) as [p'|].
  - destruct (write_outcome io p') as [|torn].
    + destruct (l__handle u UPDATE s) as [s1|]; [|done]. simpl.
      intros [= <- <- <-]. left. eauto 10.
    + intros [= <- <- <-]. right; right. split_and!; [done..|].
      exists p'. split; [done|]. destruct torn; eauto.
  - destruct (l__handle u UPDATE s) as [s1|]; [|done]. simpl.
    intros [= <- <- <-]. left. eauto 10.
Qed.

(** The ways [acknowledgement] can end, with the files. *)
Lemma acknowledgement_life_cases io uuid s fs0 r s' fs' :
  l_acknowledgement io uuid s fs0 = Some (r, s', fs') →
  (StatusUpdateStream.error s = None
     ∧ ∃ h q, StatusUpdateStream.pending s = h :: q
              ∧ l__handle h ACK s = Some s' ∧ fs' = logged s (RecAck (status_uuid h)) fs0)
  ∨ (s' = s ∧ fs' = fs0)
  ∨ (StatusUpdateStream.error s = None
     ∧ s' = StatusUpdateStream.set_error (Some WriteFailed) s
     ∧ ∃ p', StatusUpdateStream.path s = Some p'
             ∧ (fs' = fs0
                ∨ fs' = mkFS (alter (λ f, f ++ [Torn]) p' (files fs0)) (dirs fs0))).
Proof.
  unfold StatusUpdateStream.acknowledgement, StatusUpdateStream.next.
  destruct (StatusUpdateStream.error s) as [e|] eqn:He.
  { intros [= <- <- <-]. right; left. done. }
  destruct (StatusUpdateStream.pending s) as [|h q] eqn:Hp.
  { intros [= <- <- <-]. right; left. done. }
  case_bool_decide as Hack. { intros [= <- <- <-]. right; left. done. }
  destruct (status_uuid h) as [b|] eqn:Hb; [|done]. simpl.
  case_bool_decide as Hne. { intros [= <- <- <-]. right; left. done. }
  unfold StatusUpdateStream.handle, protobuf_write, logged. rewrite He. simpl.
  destruct (StatusUpdateStream.path s) as [p'|].
  - destruct (write_outcome io p') as [|torn].
    + destruct (l__handle h ACK s) as [s1|] eqn:Hh; [|done]. simpl.
      intros [= <- <- <-]. left. split; [done|]. by exists h, q.
    + intros [= <- <- <-]. right; right. split_and!; [done..|].
      exists p'. split; [done|]. destruct torn; eauto.
  - destruct (l__handle h ACK s) as [s1|] eqn:Hh; [|done]. simpl.
    intros [= <- <- <-]. left. split; [done|]. by exists h, q.
Qed.

(** The ways [recover] can end, with the files: nothing is touched; or the
    file is cut down to the records read and the rebuilt stream returned;
    or the file is cut down, or removed, and no stream returned. *)
Lemma recover_life_cases io strict fs0 r fs' :
  l_recover io sid p strict fs0 = Some (r, fs') →
  ((∀ x, r ≠ RSome x) ∧ fs' = fs0)
  ∨ ∃ chunks s1 ups pos c,
      files fs0 !! p = Some chunks
      ∧ l_replay chunks fresh [] 0 = Some (StatusUpdateStream.ReplayDone s1 ups pos c)
      ∧ ((r = RSome (s1, StatusUpdateStream.mkState ups c (StatusUpdateStream.terminated s1))
          ∧ fs' = mkFS (<[p := take pos chunks]> (files fs0)) (dirs fs0))
         ∨ ((∀ x, r ≠ RSome x)
            ∧ (fs' = mkFS (<[p := take pos chunks]> (files fs0)) (dirs fs0)
               ∨ fs' = mkFS (delete p (files fs0)) (dirs fs0)))).
Proof.
  unfold StatusUpdateStream.recover.
  destruct (os_exists fs0 (dirname p) && negb (os_exists fs0 p)).
  { intros [= <- <-]. by left. }
  unfold os_open_rdwr. destruct (open_fails io p); [intros [= <- <-]; by left|].
  destruct (files fs0 !! p) as [chunks|] eqn:Hfile; [|intros [= <- <-]; by left].
  destruct (l_replay chunks fresh [] 0) as [[e|s1 ups pos c]|] eqn:Hr;
    [intros [= <- <-]; by left| |done].
  simpl. destruct (lseek_fails io p); [intros [= <- <-]; by left|].
  unfold os_ftruncate. destruct (ftruncate_fails io p); [intros [= <- <-]; by left|].
  assert (alter (take pos) p (files fs0) = <[p := take pos chunks]> (files fs0)) as ->.
  { apply map_eq. intros i. destruct (decide (i = p)) as [->|].
    - by rewrite lookup_alter_eq, lookup_insert_eq, Hfile.
    - by rewrite lookup_alter_ne, lookup_insert_ne. }
  intros H. right. exists chunks, s1, ups, pos, c. split; [done|]. split; [done|].
  destruct (c && strict).
  { injection H as <- <-. right. split; [done|]. by left. }
  destruct ups as [|u ups'].
  - unfold os_rm in H. destruct (rm_fails io p); injection H as <- <-.
    + right. split; [done|]. by left.
    + right. split; [done|]. right. simpl. by rewrite delete_insert_eq.
  - injection H as <- <-. by left.
Qed.

Lemma in_sync_log_ok s acc chunks :
  in_sync isTerminalState sid p s acc chunks → consistent s acc → log_ok isTerminalState sid p chunks.
Proof.
  intros (records & s0 & _ & Hr & Hcore) Hc.
  exists s0, acc, (length chunks), false. split; [done|]. by eapply consistent_core.
Qed.

Lemma replay_error s0 chunks ups pos c :
  l_replay chunks fresh [] 0 = Some (StatusUpdateStream.ReplayDone s0 ups pos c) →
  StatusUpdateStream.error s0 = None.
Proof. intros H. by apply replay_frame in H as [_ ->]. Qed.

Lemma in_sync_update u s s' acc chunks :
  in_sync isTerminalState sid p s acc chunks → l__handle u UPDATE s = Some s' →
  in_sync isTerminalState sid p s' (acc ++ [u]) (chunks ++ [Good (RecUpdate u)]).
Proof.
  intros (records & s0 & -> & Hr & Hcore) Hh.
  destruct (_handle_core _ _ _ _ _ Hcore (replay_error _ _ _ _ _ Hr) Hh)
    as (s0' & Hh0 & Hcore').
  exists (records ++ [RecUpdate u]), s0'. split_and!; [by rewrite fmap_app| |done].
  rewrite replay_app_good, Hr. simpl. rewrite Hh0. simpl.
  by rewrite length_app, Nat.add_1_r.
Qed.

Lemma in_sync_acknowledgement h q a s s' acc chunks :
  in_sync isTerminalState sid p s acc chunks → StatusUpdateStream.pending s = h :: q →
  l__handle h ACK s = Some s' →
  in_sync isTerminalState sid p s' acc (chunks ++ [Good (RecAck a)]).
Proof.
  intros (records & s0 & -> & Hr & Hcore) Hq Hh.
  pose proof (replay_error _ _ _ _ _ Hr) as He0.
  destruct (_handle_core _ _ _ _ _ Hcore He0 Hh) as (s0' & Hh0 & Hcore').
  exists (records ++ [RecAck a]), s0'. split_and!; [by rewrite fmap_app| |done].
  rewrite replay_app_good, Hr. simpl.
  unfold StatusUpdateStream.next. rewrite He0.
  assert (StatusUpdateStream.pending s0 = h :: q) as ->.
  { unfold core in Hcore. injection Hcore as _ Hp _ _. by rewrite <- Hp. }
  rewrite Hh0. simpl. by rewrite length_app, Nat.add_1_r.
Qed.

Lemma in_sync_torn s acc chunks :
  in_sync isTerminalState sid p s acc chunks → consistent s acc → log_ok isTerminalState sid p (chunks ++ [Torn]).
Proof.
  intros (records & s0 & -> & Hr & Hcore) Hc.
  exists s0, acc, (length (Good <$> records)), false.
  split; [|by eapply consistent_core].
  by rewrite replay_app_good, Hr.
Qed.

Lemma log_ok_take chunks s1 ups pos c :
  log_ok isTerminalState sid p chunks →
  l_replay chunks fresh [] 0 = Some (StatusUpdateStream.ReplayDone s1 ups pos c) →
  take pos chunks = Good <$> good_prefix chunks
  ∧ l_replay (take pos chunks) fresh [] 0
    = Some (StatusUpdateStream.ReplayDone s1 ups (length (take pos chunks)) false)
  ∧ consistent s1 ups.
Proof.
  intros (s0 & ups0 & pos0 & c0 & Hr0 & Hc) Hr.
  rewrite Hr in Hr0. injection Hr0 as <- <- <- <-.
  pose proof (replay_done _ _ _ _ _ _ _ _ _ Hr) as [_ Hpos]. simpl in Hpos. subst pos.
  rewrite take_good_prefix. split_and!; [done| |done].
  rewrite length_fmap. by apply replay_good_prefix in Hr.
Qed.

Lemma in_sync_take s acc chunks s1 ups pos c :
  in_sync isTerminalState sid p s acc chunks →
  l_replay chunks fresh [] 0 = Some (StatusUpdateStream.ReplayDone s1 ups pos c) →
  take pos chunks = chunks.
Proof.
  intros (records & s0 & -> & Hr & _) Hr'. rewrite Hr in Hr'.
  injection Hr' as _ _ <- _. by apply take_ge.
Qed.

Lemma replay_path chunks : ∀ s ups pos s' ups' pos' c,
  l_replay chunks s ups pos = Some (StatusUpdateStream.ReplayDone s' ups' pos' c) →
  StatusUpdateStream.path s' = StatusUpdateStream.path s.
Proof.
  induction chunks as [|[r| |] rest IH]; intros s ups pos s' ups' pos' c; simpl;
    [by intros [= <- <- <- <-]| |by intros [= <- <- <- <-]..].
  destruct r as [u|a].
  - destruct (l__handle u UPDATE s) as [s1|] eqn:Hh; [|done]. simpl.
    intros H. apply IH in H as ->. by apply _handle_frame in Hh as (_ & _ & _ & -> & _).
  - destruct (StatusUpdateStream.next s) as [e| |u]; [done..|].
    destruct (l__handle u ACK s) as [s1|] eqn:Hh; [|done]. simpl.
    intros H. apply IH in H as ->. by apply _handle_frame in Hh as (_ & _ & _ & -> & _).
Qed.

(** What [create] does to the files. *)
Lemma create_life io fid q fs0 r fs' :
  StatusUpdateStream.create io sid fid q fs0 = (r, fs') →
  (∃ e, r = Err e ∧ files fs' = files fs0)
  ∨ (r = Val (StatusUpdateStream.set_frameworkId fid (StatusUpdateStream.new sid q))
     ∧ match q with
       | None => fs' = fs0
       | Some p' => files fs' = <[p' := []]> (files fs0)
       end).
Proof.
  unfold StatusUpdateStream.create. destruct q as [p'|]; [|intros [= <- <-]; by right].
  destruct (os_exists fs0 p') eqn:Hex; [intros [= <- <-]; left; eauto|].
  unfold os_mkdir. destruct (mkdir_fails io _); [intros [= <- <-]; left; eauto|].
  case_bool_decide; [intros [= <- <-]; left; eauto|].
  unfold os_open_create. simpl.
  destruct (open_fails io p'); [intros [= <- <-]; left; eauto|].
  destruct (_ || _); [intros [= <- <-]; left; eauto|].
  assert (files fs0 !! p' = None) as ->.
  { unfold os_exists in Hex. apply orb_false_iff in Hex as [Hex _].
    apply orb_false_iff in Hex as [_ Hex]. apply bool_decide_eq_false in Hex.
    by apply not_elem_of_dom. }
  intros [= <- <-]. by right.
Qed.

Lemma life_inv_files l l' :
  life_inv isTerminalState sid p l →
  StreamLife.live l' = None →
  files (StreamLife.disk l') = files (StreamLife.disk l) →
  life_inv isTerminalState sid p l'.
Proof.
  intros [_ Hfiles] Hlive Heq. split; [by rewrite Hlive|].
  rewrite Heq, Hlive. intros chunks Hc. split; [by apply Hfiles|done].
Qed.

Lemma step_life_inv op l l' :
  life_inv isTerminalState sid p l → StreamLife.step isTerminalState sid p op l = Some l' → life_inv isTerminalState sid p l'.
Proof.
  intros Hinv. pose proof Hinv as [Hlive Hfiles]. destruct op as [io fid checkpoint|io u|io uuid|io strict|]; simpl.
  - (* create *)
    destruct (StreamLife.live l) as [s|] eqn:Hl; [by intros [= <-]|].
    destruct (StatusUpdateStream.create _ _ _ _ _) as [r fs'] eqn:Hc.
    apply create_life in Hc as [(e & -> & Hf)|[-> Hf]].
    { simpl. intros [= <-]. by eapply life_inv_files. }
    simpl. intros [= <-]. split; simpl.
    + intros s [= <-]. split; [apply consistent_new|].
      destruct checkpoint; simpl; congruence.
    + destruct checkpoint.
      * rewrite Hf, lookup_insert_eq. intros chunks [= <-].
        assert (in_sync isTerminalState sid p (StatusUpdateStream.set_frameworkId fid fresh) [] []) as Hsync.
        { by exists [], fresh. }
        split; [eapply in_sync_log_ok; [done|apply consistent_new]|].
        by intros s [= <-] _ _.
      * subst fs'. intros chunks Hch. split; [by apply Hfiles|].
        intros s [= <-] _ [? ?]. done.
  - (* update *)
    destruct (StreamLife.live l) as [s|] eqn:Hl; [|by intros [= <-]].
    destruct (Hlive s eq_refl) as [Hcons Hpath].
    destruct (l_update io u s (StreamLife.disk l)) as [[[r s'] fs']|] eqn:Hu; [|done].
    simpl. apply update_life_cases in Hu
      as [(-> & He & (a & Ha & Hfresh) & Hh & ->)|[(Hr & -> & ->)|(-> & He & -> & p' & Hp' & Hfs)]].
    + intros [= <-].
      pose proof (_handle_frame _ _ _ _ _ Hh) as (_ & He' & _ & Hpath' & _).
      split; simpl.
      * intros ? [= <-]. split; [by eapply consistent_update|].
        intros p'. rewrite Hpath'. apply Hpath.
      * intros chunks'. unfold logged.
        destruct (StatusUpdateStream.path s) as [p'|] eqn:Hp'; simpl.
        -- rewrite (Hpath p' eq_refl). rewrite lookup_alter_eq.
           destruct (files (StreamLife.disk l) !! p) as [chunks|] eqn:Hch; [|done].
           simpl. intros [= <-].
           destruct (Hfiles chunks eq_refl) as [_ Hsync].
           specialize (Hsync s eq_refl He (ltac:(by eexists))).
           pose proof (in_sync_update u s s' _ _ Hsync Hh) as Hsync'.
           split; [eapply in_sync_log_ok; [done|by eapply consistent_update]|].
           by intros ? [= <-] _ _.
        -- intros Hch. split; [by apply Hfiles|].
           intros ? [= <-] _ [? Hsome]. congruence.
    + assert (∀ l1, l1 = StreamLife.mk (Some s) (StreamLife.accepted l) (StreamLife.disk l) →
                    life_inv isTerminalState sid p l1) as Hsame.
      { intros l1 ->. destruct l; simpl in *. by rewrite <- Hl. }
      destruct r as [e|[|]]; [|done|]; intros [= <-]; by apply Hsame.
    + intros [= <-]. split; simpl.
      * intros ? [= <-]. split; [by apply consistent_set_error|].
        intros p''. destruct s; simpl in *. apply Hpath.
      * intros chunks' Hch'. split; [|intros ? [= <-]; by destruct s].
        rewrite (Hpath p' Hp') in Hfs.
        destruct Hfs as [->| ->]; [by apply Hfiles|].
        simpl in Hch'. rewrite lookup_alter_eq in Hch'.
        destruct (files (StreamLife.disk l) !! p) as [chunks|] eqn:Hch; [|done].
        injection Hch' as <-.
        destruct (Hfiles chunks eq_refl) as [_ Hsync].
        eapply in_sync_torn; [|done]. apply Hsync; [done..|by eexists].
  - (* acknowledgement *)
    destruct (StreamLife.live l) as [s|] eqn:Hl; [|by intros [= <-]].
    destruct (Hlive s eq_refl) as [Hcons Hpath].
    destruct (l_acknowledgement io uuid s (StreamLife.disk l)) as [[[r s'] fs']|] eqn:Hu; [|done].
    simpl. apply acknowledgement_life_cases in Hu
      as [(He & h & q & Hq & Hh & ->)|[(-> & ->)|(He & -> & p' & Hp' & Hfs)]].
    + intros [= <-].
      pose proof (_handle_frame _ _ _ _ _ Hh) as (_ & He' & _ & Hpath' & _).
      split; simpl.
      * intros ? [= <-]. split; [by eapply consistent_acknowledgement|].
        intros p'. rewrite Hpath'. apply Hpath.
      * intros chunks'. unfold logged.
        destruct (StatusUpdateStream.path s) as [p'|] eqn:Hp'; simpl.
        -- rewrite (Hpath p' eq_refl). rewrite lookup_alter_eq.
           destruct (files (StreamLife.disk l) !! p) as [chunks|] eqn:Hch; [|done].
           simpl. intros [= <-].
           destruct (Hfiles chunks eq_refl) as [_ Hsync].
           specialize (Hsync s eq_refl He (ltac:(by eexists))).
           pose proof (in_sync_acknowledgement h q (status_uuid h) s s' _ _ Hsync Hq Hh)
             as Hsync'.
           split; [eapply in_sync_log_ok; [done|by eapply consistent_acknowledgement]|].
           by intros ? [= <-] _ _.
        -- intros Hch. split; [by apply Hfiles|].
           intros ? [= <-] _ [? Hsome]. congruence.
    + intros [= <-]. destruct l; simpl in *. by rewrite <- Hl.
    + intros [= <-]. split; simpl.
      * intros ? [= <-]. split; [by apply consistent_set_error|].
        intros p''. destruct s; simpl in *. apply Hpath.
      * intros chunks' Hch'. split; [|intros ? [= <-]; by destruct s].
        rewrite (Hpath p' Hp') in Hfs.
        destruct Hfs as [->| ->]; [by apply Hfiles|].
        simpl in Hch'. rewrite lookup_alter_eq in Hch'.
        destruct (files (StreamLife.disk l) !! p) as [chunks|] eqn:Hch; [|done].
        injection Hch' as <-.
        destruct (Hfiles chunks eq_refl) as [_ Hsync].
        eapply in_sync_torn; [|done]. apply Hsync; [done..|by eexists].
  - (* recover *)
    destruct (l_recover io sid p strict (StreamLife.disk l)) as [[r fs']|] eqn:Hr; [|done].
    simpl. apply recover_life_cases in Hr
      as [[Hno ->]|(chunks & s1 & ups & pos & c & Hch & Hrep & Hcases)].
    { destruct r as [e| |[s st]]; [| |by destruct (Hno (s, st))]; intros [= <-];
        by destruct l. }
    destruct (Hfiles chunks Hch) as [Hlog Hsync].
    destruct (log_ok_take chunks s1 ups pos c Hlog Hrep) as (Htake & Hrep' & Hcons1).
    destruct Hcases as [[-> ->]|[Hno Hfs]].
    + intros [= <-]. split; simpl.
      * intros ? [= <-]. split; [done|].
        intros p'. rewrite (replay_path _ _ _ _ _ _ _ _ Hrep). simpl. congruence.
      * rewrite lookup_insert_eq. intros ? [= <-].
        assert (in_sync isTerminalState sid p s1 ups (take pos chunks)) as Hsync1.
        { exists (good_prefix chunks), s1. by rewrite Hrep'. }
        split; [by eapply in_sync_log_ok|]. by intros ? [= <-] _ _.
    + assert (life_inv isTerminalState sid p (StreamLife.mk (StreamLife.live l) (StreamLife.accepted l) fs')) as Hgoal.
      { split; [done|]. simpl. destruct Hfs as [->| ->]; simpl.
        - rewrite lookup_insert_eq. intros ? [= <-].
          split.
          + exists s1, ups, (length (take pos chunks)), false. by rewrite Hrep'.
          + intros s Hs He Hp. specialize (Hsync s Hs He Hp).
            by rewrite (in_sync_take _ _ _ _ _ _ _ Hsync Hrep).
        - by rewrite lookup_delete_eq. }
      destruct r as [e| |[s st]]; [| |by destruct (Hno (s, st))]; by intros [= <-].
  - (* drop *)
    intros [= <-]. by eapply life_inv_files.
Qed.

Lemma run_life_inv ops : ∀ l l',
  life_inv isTerminalState sid p l → StreamLife.run isTerminalState sid p ops l = Some l' → life_inv isTerminalState sid p l'.
Proof.
  induction ops as [|op ops IH]; intros l l' Hinv; simpl.
  - by intros [= <-].
  - destruct (StreamLife.step _ _ _ op l) as [l1|] eqn:Hs; [|done]. simpl.
    apply IH. by eapply step_life_inv.
Qed.

Lemma life_inv_init fs0 :
  files fs0 !! p = None → life_inv isTerminalState sid p (StreamLife.mk None [] fs0).
Proof. intros Hnone. split; simpl; [done|]. by rewrite Hnone. Qed.

(** [C1] The sets and the queue of a stream agree.  Start with no stream and
    no checkpoint file, and let any sequence of creations, updates,
    acknowledgements, recoveries (each replaying the file as it then is) and
    destructions happen, whatever the outcome of the system calls.  Then for
    the stream registered at the end: [acknowledged] is a subset of
    [received]; [received] holds exactly the UUIDs of the updates accepted;
    the UUIDs of [pending] are those of the accepted updates that are not
    acknowledged, in the order of acceptance, each once; and they are
    exactly the members of [received] that are not in [acknowledged]. *)
Theorem received_acknowledged_pending_agree ops fs0 l s :
  files fs0 !! p = None →
  StreamLife.run isTerminalState sid p ops (StreamLife.mk None [] fs0) = Some l →
  StreamLife.live l = Some s →
  StatusUpdateStream.acknowledged s ⊆ StatusUpdateStream.received s
  ∧ StatusUpdateStream.received s = list_to_set (StreamLife.uuids (StreamLife.accepted l))
  ∧ StreamLife.uuids (StatusUpdateStream.pending s)
    = filter (λ a, a ∉ StatusUpdateStream.acknowledged s)
             (StreamLife.uuids (StreamLife.accepted l))
  ∧ (∀ a, a ∈ StreamLife.uuids (StatusUpdateStream.pending s)
          ↔ a ∈ StatusUpdateStream.received s ∖ StatusUpdateStream.acknowledged s)
  ∧ NoDup (StreamLife.uuids (StatusUpdateStream.pending s))
  ∧ length (StreamLife.uuids (StatusUpdateStream.pending s))
    = length (StatusUpdateStream.pending s).
Proof.
  intros Hnone Hrun Hlive.
  destruct (run_life_inv ops _ _ (life_inv_init fs0 Hnone) Hrun) as [Hl _].
  destruct (Hl s Hlive) as [Hcons _].
  destruct (consistent_claim s _ Hcons) as (H1 & H2 & H3 & H4).
  destruct Hcons as (Hall & _ & Hrec & acked & Hacc & _).
  split_and!; try done.
  rewrite Hacc in Hall. apply Forall_app in Hall as [_ Hall].
  clear -Hall. induction Hall as [|u q [a Ha] _ IH]; [done|].
  unfold StreamLife.uuids in *. simpl. rewrite Ha. simpl. by f_equal.
Qed.

End StreamLifeProperties.


(** * Further properties of the manager and its streams *)

(** * Properties every registered stream keeps *)

Section StreamInvariants.

Variable isTerminalState : StateValue → bool.
Variable getPath : StreamId → Path.
Variable RETRY_MIN RETRY_MAX : Duration.
Variable P : nat → StatusUpdateStream.t → Prop.
Hypothesis P_stable : stable isTerminalState getPath P.

Set Default Proof Using "All".

Abbreviation kept m := (map_Forall P (streams m)).

Lemma kept_new sid fid (checkpoint : bool) :
  P sid (StatusUpdateStream.set_frameworkId fid
           (StatusUpdateStream.new sid (if checkpoint then Some (getPath sid) else None))).
Proof. by destruct P_stable. Qed.

Lemma kept_update sid u s s' :
  P sid s → StatusUpdateStream._handle isTerminalState u UPDATE s = Some s' → P sid s'.
Proof. destruct P_stable as [_ H _ _ _]. apply H. Qed.

Lemma kept_ack sid u q s s' :
  P sid s → StatusUpdateStream.pending s = u :: q →
  StatusUpdateStream._handle isTerminalState u ACK s = Some s' → P sid s'.
Proof. destruct P_stable as [_ _ H _ _]. apply H. Qed.

Lemma kept_timeout sid o s : P sid s → P sid (StatusUpdateStream.set_timeout o s).
Proof. destruct P_stable as [_ _ _ H _]. apply H. Qed.

Lemma kept_error sid e s : P sid s → P sid (StatusUpdateStream.set_error e s).
Proof. destruct P_stable as [_ _ _ _ H]. apply H. Qed.

Lemma replay_kept sid chunks : ∀ s ups pos s' ups' pos' c,
  P sid s →
  StatusUpdateStream.replay isTerminalState chunks s ups pos
    = Some (StatusUpdateStream.ReplayDone s' ups' pos' c) →
  P sid s'.
Proof.
  induction chunks as [|[[u|a]| |] chunks IH]; intros s ups pos s' ups' pos' c HP; simpl;
    try (intros [= <- _ _ _]; exact HP).
  - destruct (StatusUpdateStream._handle _ u UPDATE s) as [s1|] eqn:Hh; [|done]. simpl.
    apply IH. by eapply kept_update.
  - unfold StatusUpdateStream.next.
    destruct (StatusUpdateStream.error s); [done|].
    destruct (StatusUpdateStream.pending s) as [|h q] eqn:Hq; [done|].
    destruct (StatusUpdateStream._handle _ h ACK s) as [s1|] eqn:Hh; [|done]. simpl.
    apply IH. by eapply kept_ack.
Qed.

Lemma recover_kept io sid strict fs0 s st fs' :
  StatusUpdateStream.recover isTerminalState io sid (getPath sid) strict fs0
    = Some (RSome (s, st), fs') →
  P sid s.
Proof.
  intros H. unfold StatusUpdateStream.recover in H.
  destruct (_ && _); [done|].
  destruct (os_open_rdwr _ _ _) as [e|chunks]; [done|].
  destruct (StatusUpdateStream.replay _ _ _ _ _) as [[e|s1 ups pos c]|] eqn:Hr; [done| |done].
  simpl in H.
  destruct (lseek_fails _ _); [done|].
  destruct (os_ftruncate _ _ _ _) as [e|fs1]; [done|].
  destruct (c && strict); [done|].
  destruct ups as [|u ups].
  { by destruct (os_rm _ _ _). }
  injection H as <- _ _.
  eapply replay_kept; [|exact Hr].
  exact (kept_new sid None true).
Qed.

Lemma put_stream_kept sid s m : kept m → P sid s → kept (put_stream sid s m).
Proof. intros Hm Hs. by apply map_Forall_insert_2. Qed.

Lemma forward_and_arm_kept sid s u d m m' :
  kept m → P sid s → forward_and_arm sid s u d m = Some m' → kept m'.
Proof.
  intros Hm Hs H. apply forward_and_arm_spec in H as (_ & ->). simpl.
  apply map_Forall_insert_2; [|done]. by apply kept_timeout.
Qed.

Lemma cleanupStatusUpdateStream_kept sid m m' :
  kept m → cleanupStatusUpdateStream sid m = Some m' → kept m'.
Proof.
  intros Hm H. apply cleanupStatusUpdateStream_spec in H as (s & _ & -> & _).
  by apply map_Forall_delete.
Qed.

Lemma foreach_kept {A} (f : A → t → option t) :
  (∀ x m m', kept m → f x m = Some m' → kept m') →
  ∀ l m m', kept m → foreach f l m = Some m' → kept m'.
Proof.
  intros Hf. induction l as [|x l IH]; intros m m' Hm; simpl.
  - by intros [= <-].
  - destruct (f x m) as [m1|] eqn:Hx; [|done]. simpl. apply IH. by eapply Hf.
Qed.

Lemma update_kept io u sid checkpoint m r m' :
  kept m → update isTerminalState getPath RETRY_MIN io u sid checkpoint m = Some (r, m') →
  kept m'.
Proof.
  intros Hm H. unfold update in H.
  destruct (match streams m !! sid with
            | None => createStatusUpdateStream getPath io sid (framework_id u) checkpoint m
            | Some _ => (Val (), m) end) as [create m1] eqn:Hc.
  assert (kept m1) as Hm1.
  { destruct (streams m !! sid); [by simplify_eq|].
    apply createStatusUpdateStream_spec in Hc as [(e & -> & fs' & ->)|(-> & Hs & _)]; [done|].
    rewrite Hs. apply map_Forall_insert_2; [|done]. apply kept_new. }
  destruct create as [e|[]]; [by simplify_eq|].
  destruct (streams m1 !! sid) as [stream|] eqn:Hs; [|done]. simpl in H.
  pose proof (Hm1 _ _ Hs) as HP.
  destruct (negb (eqb _ checkpoint)); [by simplify_eq|].
  destruct (negb (eqb (has_framework_id u) _)); [by simplify_eq|].
  destruct (has_framework_id u && _); [by simplify_eq|].
  destruct (StatusUpdateStream.update _ io u stream (fs m1)) as [[[res s1] fs1]|] eqn:Hu; [|done].
  simpl in H.
  assert (P sid s1) as HP1.
  { apply update_cases in Hu as [(-> & He & Hh)|[(Hr & -> & ->)|(-> & He & ->)]];
      [by eapply kept_update|done|by apply kept_error]. }
  assert (kept (put_stream sid s1 (set_fs fs1 m1))) as Hm2 by by apply put_stream_kept.
  destruct res as [e|[|]]; [by simplify_eq| |by simplify_eq].
  destruct (negb _ && _); [|by simplify_eq].
  case_bool_decide; [done|].
  destruct (StatusUpdateStream.next s1); [by simplify_eq|done|].
  destruct (forward_and_arm _ _ _ _ _) as [m3|] eqn:Hf; [|done]. simpl in H.
  injection H as _ <-. by eapply forward_and_arm_kept.
Qed.

Lemma acknowledgement_kept io sid uuid m r m' :
  kept m → acknowledgement isTerminalState RETRY_MIN io sid uuid m = Some (r, m') → kept m'.
Proof.
  intros Hm H. unfold acknowledgement in H.
  destruct (streams m !! sid) as [stream|] eqn:Hs; [|by simplify_eq].
  pose proof (Hm _ _ Hs) as HP.
  destruct (StatusUpdateStream.acknowledgement _ io uuid stream (fs m))
    as [[[res s1] fs1]|] eqn:Ha; [|done].
  simpl in H.
  assert (P sid s1) as HP1.
  { apply acknowledgement_cases in Ha
      as [(-> & He & h & q & Hq & _ & _ & Hh)|[(Hr & -> & ->)|(-> & He & ->)]];
      [by eapply kept_ack|done|by apply kept_error]. }
  assert (kept (put_stream sid s1 (set_fs fs1 m))) as Hm1 by by apply put_stream_kept.
  destruct res as [e|[|]]; [by simplify_eq| |by simplify_eq].
  set (s2 := StatusUpdateStream.set_timeout None s1) in *.
  assert (P sid s2) as HP2 by by apply kept_timeout.
  assert (kept (put_stream sid s2 (put_stream sid s1 (set_fs fs1 m)))) as Hm2
    by by apply put_stream_kept.
  destruct (StatusUpdateStream.next s2) as [e| |n] eqn:Hn; [by simplify_eq|..].
  - destruct (StatusUpdateStream.terminated _); [|by simplify_eq].
    destruct (cleanupStatusUpdateStream _ _) as [m3|] eqn:Hc; [|done]. simpl in H.
    injection H as _ <-. by eapply cleanupStatusUpdateStream_kept.
  - destruct (StatusUpdateStream.terminated _).
    + destruct (cleanupStatusUpdateStream _ _) as [m3|] eqn:Hc; [|done]. simpl in H.
      injection H as _ <-. by eapply cleanupStatusUpdateStream_kept.
    + destruct (negb _); [|by simplify_eq].
      destruct (forward_and_arm _ _ _ _ _) as [m3|] eqn:Hf; [|done]. simpl in H.
      injection H as _ <-. by eapply forward_and_arm_kept.
Qed.

Lemma recoverStatusUpdateStream_kept io sid strict m r m' :
  kept m →
  recoverStatusUpdateStream isTerminalState getPath RETRY_MIN io sid strict m = Some (r, m') →
  kept m'.
Proof.
  intros Hm H. unfold recoverStatusUpdateStream in H.
  destruct (StatusUpdateStream.recover _ io sid _ strict (fs m)) as [[res fs1]|] eqn:Hr; [|done].
  simpl in H.
  destruct res as [e| |[s st]]; [by simplify_eq..|].
  apply recover_kept in Hr.
  destruct (StatusUpdateStream.terminated s); [by simplify_eq|].
  set (m2 := match StatusUpdateStream.frameworkId s with
             | Some f => _ | None => _ end) in *.
  assert (kept m2) as Hm2 by (unfold m2; by destruct (StatusUpdateStream.frameworkId s)).
  destruct (StatusUpdateStream.next s); [by simplify_eq| |].
  - injection H as _ <-. by apply put_stream_kept.
  - destruct (negb _).
    + destruct (forward_and_arm _ _ _ _ _) as [m3|] eqn:Hf; [|done]. simpl in H.
      injection H as _ <-. by eapply forward_and_arm_kept.
    + injection H as _ <-. by apply put_stream_kept.
Qed.

Lemma recover_from_kept io streamIds strict : ∀ state m r m',
  kept m →
  recover_from isTerminalState getPath RETRY_MIN io streamIds strict state m = Some (r, m') →
  kept m'.
Proof.
  induction streamIds as [|sid rest IH]; intros state m r m' Hm; simpl.
  - by intros [= _ <-].
  - destruct (recoverStatusUpdateStream _ _ _ io sid strict m) as [[res m1]|] eqn:Hr; [|done].
    simpl. apply recoverStatusUpdateStream_kept in Hr; [|done].
    destruct res as [e| |st]; [|by apply IH..].
    destruct strict; [|by apply IH].
    unfold cleanup_all.
    destruct (foreach _ _ m1) as [m2|] eqn:Hf; [|done]. simpl.
    destruct (_ && _); [|done]. intros [= _ <-].
    eapply foreach_kept; [|exact Hr|exact Hf].
    intros x a b. apply cleanupStatusUpdateStream_kept.
Qed.

Lemma resume_kept m m' : kept m → resume RETRY_MIN m = Some m' → kept m'.
Proof.
  intros Hm H. unfold resume in H.
  assert (∀ l m0 m1,
            kept m0 → Forall (λ entry, P entry.1 entry.2) l →
            foreach (resume_stream RETRY_MIN) l m0 = Some m1 → kept m1) as Hloop.
  { induction l as [|[sid s] l IH]; intros m0 m1 Hm0 Hl; simpl.
    - by intros [= <-].
    - apply Forall_cons in Hl as [Hs Hl].
      destruct (StatusUpdateStream.next s).
      + simpl. by apply IH.
      + simpl. by apply IH.
      + destruct (forward_and_arm _ _ _ _ _) as [m2|] eqn:Hf; [|done]. simpl.
        apply IH; [|done]. by eapply forward_and_arm_kept. }
  eapply Hloop; [| |exact H]; [done|].
  apply Forall_forall. intros [sid s] Hin.
  apply elem_of_map_to_list in Hin. by apply (Hm sid s).
Qed.

Lemma timeout_kept sid d m m' : kept m → timeout RETRY_MAX sid d m = Some m' → kept m'.
Proof.
  intros Hm H. unfold timeout in H.
  destruct (paused m); [by simplify_eq|].
  destruct (streams m !! sid) as [s|] eqn:Hs; [|by simplify_eq].
  destruct (StatusUpdateStream.pending s); [by simplify_eq|].
  destruct (StatusUpdateStream.timeout s); [|done]. simpl in H.
  case_bool_decide; [|by simplify_eq].
  eapply forward_and_arm_kept; [done| |exact H]. by apply (Hm sid s).
Qed.

Lemma step_kept e m m' :
  kept m → step isTerminalState getPath RETRY_MIN RETRY_MAX e m = Some m' → kept m'.
Proof.
  intros Hm. destruct e as [io u sid c|io sid uuid|io ids strict|f| | |i|dt|fs']; simpl.
  - destruct (update _ _ _ _ _ _ _ _) as [[r m1]|] eqn:H; [|done]. intros [= <-].
    by eapply update_kept.
  - destruct (acknowledgement _ _ _ _ _ _) as [[r m1]|] eqn:H; [|done]. intros [= <-].
    by eapply acknowledgement_kept.
  - destruct (recover _ _ _ _ _ _ _) as [[r m1]|] eqn:H; [|done]. intros [= <-].
    by eapply recover_from_kept.
  - unfold cleanup. destruct (frameworkStreams m !! f); [|by intros [= <-]].
    apply foreach_kept; [|done]. intros x a b. apply cleanupStatusUpdateStream_kept.
  - by intros [= <-].
  - by apply resume_kept.
  - unfold deliver. destruct (timers m !! i) as [timer|]; [|by intros [= <-]].
    case_bool_decide; [|by intros [= <-]]. by apply timeout_kept.
  - case_bool_decide; by intros [= <-].
  - by intros [= <-].
Qed.

Lemma reachable_kept m :
  reachable isTerminalState getPath RETRY_MIN RETRY_MAX m → kept m.
Proof.
  induction 1 as [now fs0|e m m' _ IH Hstep].
  - apply map_Forall_empty.
  - by eapply step_kept.
Qed.

End StreamInvariants.

Set Default Proof Using "Type".

Lemma well_kept_stable (isTerminalState : StateValue → bool) (getPath : StreamId → Path) :
  stable isTerminalState getPath (well_kept getPath).
Proof.
  split.
  - intros sid fid checkpoint. split_and!; simpl; [done| |done|set_solver].
    intros p. destruct checkpoint; by intros [= <-].
  - intros sid u s s' (Hid & Hpath & Hpending & Hsub) Hh.
    apply _handle_update_spec in Hh as (a & Ha & ->).
    split_and!; simpl; [done|done| |set_solver].
    apply Forall_app. split.
    + eapply Forall_impl; [exact Hpending|]. intros u' (a' & Ha' & Hin).
      exists a'. split; [done|set_solver].
    + apply Forall_singleton. exists a. split; [done|set_solver].
  - intros sid u q s s' (Hid & Hpath & Hpending & Hsub) Hq Hh.
    apply _handle_ack_spec in Hh as (a & Ha & ->).
    rewrite Hq in Hpending. apply Forall_cons in Hpending as [(a' & Ha' & Hin) Hpending].
    rewrite Ha in Ha'. injection Ha' as <-.
    split_and!; simpl; [done|done|by rewrite Hq|set_solver].
  - by intros sid o s.
  - by intros sid e s.
Qed.

Section ManagerChecks.

Variable isTerminalState : StateValue → bool.
Variable getPath : StreamId → Path.
Variable RETRY_MIN RETRY_MAX : Duration.

Abbreviation c_reachable := (reachable isTerminalState getPath RETRY_MIN RETRY_MAX).

(** In every reachable state a registered stream knows its own id, writes
    to the checkpoint file [getPath] names for that id (if it writes at
    all), has only updates with a received UUID in its queue, and has
    acknowledged only UUIDs it received.  This holds whatever the files
    held that recovery replayed. *)
Theorem registered_streams_well_kept m sid s :
  c_reachable m → streams m !! sid = Some s →
  StatusUpdateStream.streamId s = sid
  ∧ (StatusUpdateStream.checkpointed s = true →
     StatusUpdateStream.path s = Some (getPath sid))
  ∧ Forall (λ u, ∃ a, status_uuid u = Some a ∧ a ∈ StatusUpdateStream.received s)
           (StatusUpdateStream.pending s)
  ∧ StatusUpdateStream.acknowledged s ⊆ StatusUpdateStream.received s.
Proof.
  intros Hm Hs.
  pose proof (reachable_kept isTerminalState getPath RETRY_MIN RETRY_MAX
                (well_kept getPath) (well_kept_stable _ _) m Hm sid s Hs) as Hk.
  pose proof Hk as (Hid & Hpath & Hpending & Hsub).
  split_and!; try done.
  unfold StatusUpdateStream.checkpointed. intros Hc.
  apply bool_decide_eq_true in Hc as [p Hp]. by rewrite Hp, (Hpath p Hp).
Qed.


(** The stream's own [acknowledgement] passes its checks when the head of
    the queue has a UUID. *)
Lemma stream_acknowledgement_total io uuid s fs0 :
  Forall (λ u, is_Some (status_uuid u)) (StatusUpdateStream.pending s) →
  is_Some (StatusUpdateStream.acknowledgement isTerminalState io uuid s fs0).
Proof.
  intros Hpending. unfold StatusUpdateStream.acknowledgement, StatusUpdateStream.next.
  destruct (StatusUpdateStream.error s) eqn:He; [by eexists|].
  destruct (StatusUpdateStream.pending s) as [|h q] eqn:Hq; [by eexists|].
  case_bool_decide; [by eexists|].
  apply Forall_cons in Hpending as [[a Ha] _]. rewrite Ha. simpl.
  case_bool_decide; [by eexists|].
  unfold StatusUpdateStream.handle, StatusUpdateStream._handle. rewrite He, Ha. simpl.
  destruct (StatusUpdateStream.path s) as [p|]; [|by eexists].
  unfold protobuf_write. destruct (write_outcome io p) as [|torn]; by eexists.
Qed.


(** No [CHECK] of [acknowledgement] fails in a reachable state: the head
    of the queue has a UUID, and a stream that terminates is found in
    [streams] and under its framework in [frameworkStreams] when it is
    cleaned up. *)
Theorem acknowledgement_passes_its_checks m :
  c_reachable m →
  ∀ io sid uuid, is_Some (acknowledgement isTerminalState RETRY_MIN io sid uuid m).
Proof.
  intros Hm io sid uuid.
  pose proof (reachable_streams_ok _ _ _ _ m Hm) as Hok.
  unfold acknowledgement.
  destruct (streams m !! sid) as [stream|] eqn:Hs; [|by eexists].
  destruct (streams_ok_lookup _ _ _ _ _ Hok Hs) as [_ Hidx].
  pose proof (reachable_kept isTerminalState getPath RETRY_MIN RETRY_MAX
                (well_kept getPath) (well_kept_stable _ _) m Hm sid stream Hs)
    as (_ & _ & Hpending & _).
  destruct (stream_acknowledgement_total io uuid stream (fs m)) as [[[res s1] fs1] Ha].
  { eapply Forall_impl; [exact Hpending|]. intros u' (a & -> & _). by eexists. }
  rewrite Ha. simpl.
  destruct res as [e|[|]]; [by eexists| |by eexists].
  apply acknowledgement_cases in Ha
    as [(_ & He & h & q & Hq & Hh & Hn & Hhandle)|[(Hr & _)|(Hr & _)]]; [|done..].
  apply _handle_ack_spec in Hhandle as (a & Ha & ->).
  unfold StatusUpdateStream.next. simpl. rewrite He.
  assert (∀ (b : bool) m2 n,
            streams m2 !! sid = Some n → frameworkStreams m2 = frameworkStreams m →
            StatusUpdateStream.frameworkId n = StatusUpdateStream.frameworkId stream →
            is_Some (cleanupStatusUpdateStream sid m2 ≫= λ m3, Some (Val b, m3)))
    as Hcleanup.
  { intros b m2 n Hn2 Hindex Hf.
    destruct (cleanupStatusUpdateStream_total sid n m2) as [m3 Hm3]; [done| |].
    - intros f Hn'. rewrite Hindex. apply Hidx. by rewrite <- Hf.
    - rewrite Hm3. by eexists. }
  destruct (tail (StatusUpdateStream.pending stream)) as [|n q'] eqn:Htail.
  - destruct (if StatusUpdateStream.terminated stream then true else _) eqn:Hterm;
      [|by eexists].
    eapply Hcleanup; [simpl; by rewrite lookup_insert_eq|done..].
  - destruct (if StatusUpdateStream.terminated stream then true else _) eqn:Hterm.
    + eapply Hcleanup; [simpl; by rewrite lookup_insert_eq|done..].
    + destruct (paused m) eqn:Hpaused; simpl; [by eexists|].
      unfold forward_and_arm, forward. simpl. rewrite Hpaused. simpl. by eexists.
Qed.

End ManagerChecks.

(** * Pausing and resuming *)

Lemma resumed_update_next s :
  resumed_update s = None ∧ (∀ u, StatusUpdateStream.next s ≠ RSome u)
  ∨ ∃ u, resumed_update s = Some u ∧ StatusUpdateStream.next s = RSome u.
Proof.
  unfold resumed_update. destruct (StatusUpdateStream.next s); [left|left|right]; eauto.
Qed.

Section Resume.

Variable RETRY_MIN : Duration.

(** The loop of [resume()] over the entries still to visit. *)
Lemma resume_loop (l : list (nat * StatusUpdateStream.t)) : ∀ m,
  paused m = false → NoDup l.*1 →
  (∀ sid s, (sid, s) ∈ l → streams m !! sid = Some s) →
  ∃ m', foreach (resume_stream RETRY_MIN) l m = Some m'
    ∧ paused m' = false ∧ clock m' = clock m ∧ fs m' = fs m
    ∧ frameworkStreams m' = frameworkStreams m
    ∧ forwarded m' = forwarded m ++ omap (λ entry, resumed_update entry.2) l
    ∧ timers m' = timers m ++ omap (resumed_timer (clock m) RETRY_MIN) l
    ∧ ∀ sid, streams m' !! sid
             = if decide (sid ∈ l.*1)
               then resumed_stream (clock m) RETRY_MIN <$> streams m !! sid
               else streams m !! sid.
Proof.
  induction l as [|[sid s] l IH]; intros m Hp Hnd Hl.
  { exists m. simpl. rewrite !app_nil_r. by split_and!. }
  simpl in Hnd. apply NoDup_cons in Hnd as [Hsid Hnd].
  assert (streams m !! sid = Some s) as Hs by (apply Hl; left).
  assert (∀ k m1,
            (∀ j, j ≠ sid → streams m1 !! j = streams m !! j) →
            streams m1 !! sid = resumed_stream (clock m) RETRY_MIN <$> streams m !! sid →
            (if decide (k ∈ l.*1)
             then resumed_stream (clock m) RETRY_MIN <$> streams m1 !! k
             else streams m1 !! k)
            = (if decide (k ∈ ((sid, s) :: l).*1)
               then resumed_stream (clock m) RETRY_MIN <$> streams m !! k
               else streams m !! k)) as Hlookup.
  { intros k m1 Hother Hsame. simpl.
    destruct (decide (k = sid)) as [->|Hne].
    - rewrite (decide_False (P := sid ∈ l.*1)) by done.
      rewrite decide_True by left. done.
    - rewrite Hother by done.
      destruct (decide (k ∈ l.*1)) as [Hin|Hin].
      + rewrite decide_True; [done|by right].
      + rewrite decide_False; [done|]. by intros [?|?]%elem_of_cons. }
  change (foreach (resume_stream RETRY_MIN) ((sid, s) :: l) m)
    with (resume_stream RETRY_MIN (sid, s) m ≫= foreach (resume_stream RETRY_MIN) l).
  change (omap (λ entry, resumed_update entry.2) ((sid, s) :: l))
    with (match resumed_update s with
          | Some u => u :: omap (λ entry, resumed_update entry.2) l
          | None => omap (λ entry, resumed_update entry.2) l
          end).
  change (omap (resumed_timer (clock m) RETRY_MIN) ((sid, s) :: l))
    with (match resumed_timer (clock m) RETRY_MIN (sid, s) with
          | Some x => x :: omap (resumed_timer (clock m) RETRY_MIN) l
          | None => omap (resumed_timer (clock m) RETRY_MIN) l
          end).
  unfold resumed_timer at 1. cbn [fst snd].
  destruct (resumed_update_next s) as [[Hnone Hnext]|(u & Hu & Hnext)].
  - assert (resume_stream RETRY_MIN (sid, s) m = Some m) as ->.
    { simpl. destruct (StatusUpdateStream.next s) as [?| |u]; [done..|]. by destruct (Hnext u). }
    simpl. destruct (IH m Hp Hnd) as (m' & -> & ? & ? & ? & ? & Hf & Ht & Hstreams).
    { intros sid' s' Hin. apply Hl. by right. }
    exists m'. rewrite Hnone. split_and!; try done.
    intros k. rewrite Hstreams. apply Hlookup; [done|].
    rewrite Hs. simpl. unfold resumed_stream. by rewrite Hnone.
  - assert (resume_stream RETRY_MIN (sid, s) m
            = Some (mk (<[sid := StatusUpdateStream.set_timeout
                                   (Some (clock m + RETRY_MIN)%Z) s]> (streams m))
                       (frameworkStreams m) (paused m) (clock m)
                       (timers m ++ [mkTimer (clock m + RETRY_MIN)%Z sid RETRY_MIN])
                       (forwarded m ++ [u]) (fs m))) as ->.
    { simpl. rewrite Hnext. unfold forward_and_arm, forward. by rewrite Hp. }
    simpl.
    match goal with |- context [foreach _ l ?x] => set (m1 := x) end.
    destruct (IH m1) as (m' & -> & ? & Hc & ? & ? & Hf & Ht & Hstreams); [done|done| |].
    { intros sid' s' Hin. simpl. rewrite lookup_insert_ne; [apply Hl; by right|].
      intros <-. apply Hsid. apply list_elem_of_fmap. by exists (sid, s'). }
    exists m'. rewrite Hu. split_and!; try done.
    + rewrite Hf. simpl. by rewrite <- app_assoc.
    + rewrite Ht. simpl. by rewrite <- app_assoc.
    + intros k. rewrite Hstreams. apply Hlookup.
      * intros j Hj. simpl. by rewrite lookup_insert_ne.
      * simpl. rewrite lookup_insert_eq, Hs. simpl. unfold resumed_stream. by rewrite Hu.
Qed.

(** What [resume()] does. *)
Lemma resume_spec m :
  ∃ m',
    resume RETRY_MIN m = Some m'
    ∧ paused m' = false
    ∧ (∀ sid, streams m' !! sid
              = resumed_stream (clock m) RETRY_MIN <$> streams m !! sid)
    ∧ forwarded m'
      = forwarded m ++ omap (λ entry, resumed_update entry.2) (map_to_list (streams m))
    ∧ timers m'
      = timers m ++ omap (resumed_timer (clock m) RETRY_MIN) (map_to_list (streams m))
    ∧ frameworkStreams m' = frameworkStreams m
    ∧ clock m' = clock m ∧ fs m' = fs m.
Proof.
  unfold resume.
  destruct (resume_loop (map_to_list (streams (set_paused false m))) (set_paused false m))
    as (m' & Hm' & Hp & Hc & Hfs & Hidx & Hf & Ht & Hstreams).
  - done.
  - apply NoDup_fst_map_to_list.
  - intros sid s Hin. by apply elem_of_map_to_list in Hin.
  - exists m'. split_and!; try done.
    intros sid. rewrite Hstreams. simpl.
    destruct (decide _) as [Hin|Hin]; [done|].
    destruct (streams m !! sid) as [s|] eqn:Hs; [|done].
    exfalso. apply Hin. apply list_elem_of_fmap. exists (sid, s). split; [done|].
    by apply elem_of_map_to_list.
Qed.

(** [resume()] never fails a [CHECK], whatever the state it is called in.
    It clears [paused] and visits every registered stream once: a stream
    with a pending update and no sticky error has its head forwarded and a
    timer of [RETRY_MIN] armed, its timeout set to the deadline of that
    timer; every other stream is left as it is.  Nothing else is forwarded
    or armed, and no stream is added or removed. *)
Theorem resume_forwards_every_head m :
  ∃ m',
    resume RETRY_MIN m = Some m'
    ∧ paused m' = false
    ∧ (∀ sid, streams m' !! sid
              = resumed_stream (clock m) RETRY_MIN <$> streams m !! sid)
    ∧ forwarded m'
      = forwarded m ++ omap (λ entry, resumed_update entry.2) (map_to_list (streams m))
    ∧ timers m'
      = timers m ++ omap (resumed_timer (clock m) RETRY_MIN) (map_to_list (streams m))
    ∧ frameworkStreams m' = frameworkStreams m
    ∧ clock m' = clock m ∧ fs m' = fs m.
Proof. apply resume_spec. Qed.

End Resume.

Section Paused.

Variable isTerminalState : StateValue → bool.
Variable getPath : StreamId → Path.
Variable RETRY_MIN RETRY_MAX : Duration.

Lemma forward_and_arm_paused sid s u d m :
  paused m = true → forward_and_arm sid s u d m = None.
Proof. intros Hp. unfold forward_and_arm, forward. by rewrite Hp. Qed.

Lemma foreach_quiet {A} (f : A → t → option t) :
  (∀ x m m', f x m = Some m' →
     paused m' = paused m ∧ forwarded m' = forwarded m ∧ timers m' = timers m) →
  ∀ l m m', foreach f l m = Some m' →
    paused m' = paused m ∧ forwarded m' = forwarded m ∧ timers m' = timers m.
Proof.
  intros Hf. induction l as [|x l IH]; intros m m'; simpl.
  - by intros [= <-].
  - destruct (f x m) as [m1|] eqn:Hx; [|done]. simpl. intros H.
    apply Hf in Hx as (<- & <- & <-). by apply IH.
Qed.

Lemma cleanupStatusUpdateStream_quiet sid m m' :
  cleanupStatusUpdateStream sid m = Some m' →
  paused m' = paused m ∧ forwarded m' = forwarded m ∧ timers m' = timers m.
Proof.
  intros H. by apply cleanupStatusUpdateStream_spec in H as (s & _ & _ & -> & -> & -> & _).
Qed.

Lemma update_quiet io u sid checkpoint m r m' :
  paused m = true →
  update isTerminalState getPath RETRY_MIN io u sid checkpoint m = Some (r, m') →
  paused m' = true ∧ forwarded m' = forwarded m ∧ timers m' = timers m.
Proof.
  intros Hp H. unfold update in H.
  destruct (match streams m !! sid with
            | None => createStatusUpdateStream getPath io sid (framework_id u) checkpoint m
            | Some _ => (Val (), m) end) as [create m1] eqn:Hc.
  assert (paused m1 = true ∧ forwarded m1 = forwarded m ∧ timers m1 = timers m)
    as (Hp1 & Hf1 & Ht1).
  { destruct (streams m !! sid); [by simplify_eq|].
    apply createStatusUpdateStream_spec in Hc
      as [(e & -> & fs' & ->)|(-> & _ & _ & -> & -> & -> & _)]; done. }
  destruct create as [e|[]]; [by simplify_eq|].
  destruct (streams m1 !! sid) as [stream|]; [|done]. simpl in H.
  destruct (negb (eqb _ checkpoint)); [by simplify_eq|].
  destruct (negb (eqb (has_framework_id u) _)); [by simplify_eq|].
  destruct (has_framework_id u && _); [by simplify_eq|].
  destruct (StatusUpdateStream.update _ io u stream (fs m1)) as [[[res s1] fs1]|]; [|done].
  simpl in H. rewrite Hp1 in H. simpl in H.
  destruct res as [e|[|]]; by simplify_eq.
Qed.

Lemma acknowledgement_quiet io sid uuid m r m' :
  paused m = true →
  acknowledgement isTerminalState RETRY_MIN io sid uuid m = Some (r, m') →
  paused m' = true ∧ forwarded m' = forwarded m ∧ timers m' = timers m.
Proof.
  intros Hp H. unfold acknowledgement in H.
  destruct (streams m !! sid) as [stream|]; [|by simplify_eq].
  destruct (StatusUpdateStream.acknowledgement _ io uuid stream (fs m))
    as [[[res s1] fs1]|]; [|done].
  simpl in H.
  destruct res as [e|[|]]; [by simplify_eq| |by simplify_eq].
  destruct (StatusUpdateStream.next _); [by simplify_eq|..].
  - destruct (StatusUpdateStream.terminated _); [|by simplify_eq].
    destruct (cleanupStatusUpdateStream _ _) as [m3|] eqn:Hc; [|done]. simpl in H.
    injection H as _ <-. by apply cleanupStatusUpdateStream_quiet in Hc as (-> & -> & ->).
  - destruct (StatusUpdateStream.terminated _).
    + destruct (cleanupStatusUpdateStream _ _) as [m3|] eqn:Hc; [|done]. simpl in H.
      injection H as _ <-. by apply cleanupStatusUpdateStream_quiet in Hc as (-> & -> & ->).
    + rewrite Hp in H. simpl in H. by simplify_eq.
Qed.

Lemma recoverStatusUpdateStream_quiet io sid strict m r m' :
  paused m = true →
  recoverStatusUpdateStream isTerminalState getPath RETRY_MIN io sid strict m = Some (r, m') →
  paused m' = true ∧ forwarded m' = forwarded m ∧ timers m' = timers m.
Proof.
  intros Hp H. unfold recoverStatusUpdateStream in H.
  destruct (StatusUpdateStream.recover _ io sid _ strict (fs m)) as [[res fs1]|]; [|done].
  simpl in H.
  destruct res as [e| |[s st]]; [by simplify_eq..|].
  destruct (StatusUpdateStream.terminated s); [by simplify_eq|].
  destruct (StatusUpdateStream.frameworkId s); simpl in H.
  - destruct (StatusUpdateStream.next s); [by simplify_eq..|].
    rewrite Hp in H. simpl in H. by simplify_eq.
  - destruct (StatusUpdateStream.next s); [by simplify_eq..|].
    rewrite Hp in H. simpl in H. by simplify_eq.
Qed.

Lemma recover_from_quiet io streamIds strict : ∀ state m r m',
  paused m = true →
  recover_from isTerminalState getPath RETRY_MIN io streamIds strict state m = Some (r, m') →
  paused m' = true ∧ forwarded m' = forwarded m ∧ timers m' = timers m.
Proof.
  induction streamIds as [|sid rest IH]; intros state m r m' Hp; simpl.
  - by intros [= _ <-].
  - destruct (recoverStatusUpdateStream _ _ _ io sid strict m) as [[res m1]|] eqn:Hr; [|done].
    simpl. apply recoverStatusUpdateStream_quiet in Hr as (Hp1 & <- & <-); [|done].
    destruct res as [e| |st]; [|by apply IH..].
    destruct strict; [|by apply IH].
    unfold cleanup_all.
    destruct (foreach _ _ m1) as [m2|] eqn:Hf; [|done]. simpl.
    destruct (_ && _); [|done]. intros [= _ <-].
    apply foreach_quiet in Hf as (-> & -> & ->); [done|].
    intros x a b. apply cleanupStatusUpdateStream_quiet.
Qed.

(** What happens while the manager is paused. *)
Lemma paused_quiet e m m' :
  paused m = true → e ≠ EResume →
  step isTerminalState getPath RETRY_MIN RETRY_MAX e m = Some m' →
  paused m' = true ∧ forwarded m' = forwarded m ∧ timers m' `sublist_of` timers m.
Proof.
  intros Hp He.
  destruct e as [io u sid c|io sid uuid|io ids strict|f| | |i|dt|fs']; simpl.
  - destruct (update _ _ _ _ _ _ _ _) as [[r m1]|] eqn:H; [|done]. intros [= <-].
    by apply update_quiet in H as (-> & -> & ->).
  - destruct (acknowledgement _ _ _ _ _ _) as [[r m1]|] eqn:H; [|done]. intros [= <-].
    by apply acknowledgement_quiet in H as (-> & -> & ->).
  - destruct (recover _ _ _ _ _ _ _) as [[r m1]|] eqn:H; [|done]. intros [= <-].
    by apply recover_from_quiet in H as (-> & -> & ->).
  - unfold cleanup. destruct (frameworkStreams m !! f); [|by intros [= <-]].
    intros H. apply foreach_quiet in H as (-> & -> & ->); [done|].
    intros x a b. apply cleanupStatusUpdateStream_quiet.
  - by intros [= <-].
  - done.
  - unfold deliver. destruct (timers m !! i) as [timer|]; [|by intros [= <-]].
    case_bool_decide; [|by intros [= <-]].
    unfold timeout. simpl. rewrite Hp. intros [= <-]. simpl.
    split; [done|]. split; [done|]. apply sublist_delete.
  - case_bool_decide; by intros [= <-].
  - by intros [= <-].
Qed.

(** While the manager is paused nothing is forwarded and no retry is
    scheduled: whatever happens other than [resume()] (an update, an
    acknowledgement, a recovery, a clean-up, the expiry of a timer) leaves
    the manager paused, calls the forward callback for nothing and adds no
    timer. *)
Theorem paused_manager_forwards_nothing e m m' :
  paused m = true → e ≠ EResume →
  step isTerminalState getPath RETRY_MIN RETRY_MAX e m = Some m' →
  paused m' = true ∧ forwarded m' = forwarded m ∧ timers m' `sublist_of` timers m.
Proof. apply paused_quiet. Qed.

End Paused.

(** * The index of streams by framework *)

(** [cleanupStatusUpdateStream], exactly. *)
Lemma cleanupStatusUpdateStream_exact sid m m' :
  cleanupStatusUpdateStream sid m = Some m' →
  ∃ s, streams m !! sid = Some s
    ∧ streams m' = delete sid (streams m)
    ∧ paused m' = paused m ∧ timers m' = timers m ∧ forwarded m' = forwarded m
    ∧ clock m' = clock m ∧ fs m' = fs m
    ∧ ∀ f, streams_of f (frameworkStreams m')
           = if decide (StatusUpdateStream.frameworkId s = Some f)
             then streams_of f (frameworkStreams m) ∖ {[sid]}
             else streams_of f (frameworkStreams m).
Proof.
  unfold cleanupStatusUpdateStream. intros H.
  destruct (streams m !! sid) as [s|] eqn:Hs; [|done]. simpl in H.
  exists s. split; [done|].
  destruct (StatusUpdateStream.frameworkId s) as [f0|] eqn:Hf0; simpl in H.
  - destruct (frameworkStreams m !! f0) as [ids|] eqn:Hids; [|done]. simpl in H.
    case_bool_decide as Hempty; injection H as <-; simpl; split_and!; try done.
    + intros f. unfold streams_of. destruct (decide (Some f0 = Some f)) as [[= <-]|Hne].
      * rewrite lookup_delete_eq, Hids. simpl. by rewrite Hempty.
      * rewrite lookup_delete_ne; [done|]. by intros <-.
    + intros f. unfold streams_of. destruct (decide (Some f0 = Some f)) as [[= <-]|Hne].
      * by rewrite lookup_insert_eq, Hids.
      * rewrite lookup_insert_ne; [done|]. by intros <-.
  - injection H as <-. simpl. split_and!; try done.
Qed.

Lemma index_sound_put sid s s' m :
  index_sound m → streams m !! sid = Some s →
  StatusUpdateStream.frameworkId s' = StatusUpdateStream.frameworkId s →
  index_sound (put_stream sid s' m).
Proof.
  intros Hm Hs Hf f k Hk. simpl in *.
  destruct (Hm f k Hk) as (sk & Hsk & Hfk).
  destruct (decide (k = sid)) as [->|Hne].
  - rewrite lookup_insert_eq. exists s'. split; [done|]. rewrite Hf. by simplify_eq.
  - rewrite lookup_insert_ne by done. by exists sk.
Qed.

Lemma index_sound_register sid s m index' :
  index_sound m → streams m !! sid = None →
  (∀ f, streams_of f index'
        = if decide (StatusUpdateStream.frameworkId s = Some f)
          then {[sid]} ∪ streams_of f (frameworkStreams m)
          else streams_of f (frameworkStreams m)) →
  index_sound (put_stream sid s (set_frameworkStreams index' m)).
Proof.
  intros Hm Hs Hidx f k Hk. simpl in *. rewrite Hidx in Hk.
  assert (k ∈ streams_of f (frameworkStreams m) → sid ≠ k) as Hold.
  { intros Hin <-. destruct (Hm f sid Hin) as (? & ? & _). congruence. }
  destruct (decide (StatusUpdateStream.frameworkId s = Some f)) as [Hf|Hf].
  - apply elem_of_union in Hk as [->%elem_of_singleton|Hk].
    + rewrite lookup_insert_eq. by exists s.
    + rewrite lookup_insert_ne by (by apply Hold). by apply Hm.
  - rewrite lookup_insert_ne by (by apply Hold). by apply Hm.
Qed.

Lemma streams_of_index_insert s sid index :
  ∀ f, streams_of f (match StatusUpdateStream.frameworkId s with
                     | Some f0 => index_insert f0 sid index
                     | None => index
                     end)
       = if decide (StatusUpdateStream.frameworkId s = Some f)
         then {[sid]} ∪ streams_of f index
         else streams_of f index.
Proof.
  intros f. destruct (StatusUpdateStream.frameworkId s) as [f0|].
  - rewrite streams_of_insert. destruct (decide (f0 = f)) as [->|Hne].
    + by rewrite decide_True.
    + rewrite decide_False; [done|]. by intros [= ->].
  - by rewrite decide_False.
Qed.

Lemma index_sound_cleanupStatusUpdateStream sid m m' :
  index_sound m → cleanupStatusUpdateStream sid m = Some m' → index_sound m'.
Proof.
  intros Hm H.
  apply cleanupStatusUpdateStream_exact in H as (s & Hs & Hstreams & _ & _ & _ & _ & _ & Hidx).
  intros f k Hk. rewrite Hidx in Hk. rewrite Hstreams.
  destruct (decide (StatusUpdateStream.frameworkId s = Some f)) as [Hf|Hf].
  - apply elem_of_difference in Hk as [Hk Hne].
    rewrite lookup_delete_ne; [by apply Hm|]. intros <-. apply Hne. by apply elem_of_singleton.
  - destruct (Hm f k Hk) as (sk & Hsk & Hfk).
    rewrite lookup_delete_ne; [by exists sk|]. intros <-. rewrite Hs in Hsk. by simplify_eq.
Qed.

Lemma index_sound_foreach_cleanup l : ∀ m m',
  index_sound m → foreach cleanupStatusUpdateStream l m = Some m' → index_sound m'.
Proof.
  induction l as [|x l IH]; intros m m' Hm; simpl.
  - by intros [= <-].
  - destruct (cleanupStatusUpdateStream x m) as [m1|] eqn:Hx; [|done]. simpl.
    apply IH. by eapply index_sound_cleanupStatusUpdateStream.
Qed.

Lemma index_sound_of (m m' : t) :
  index_sound m → streams m' = streams m → frameworkStreams m' = frameworkStreams m →
  index_sound m'.
Proof. intros Hm Hs Hf f k. rewrite Hs, Hf. apply Hm. Qed.

Section IndexSound.

Variable isTerminalState : StateValue → bool.
Variable getPath : StreamId → Path.
Variable RETRY_MIN RETRY_MAX : Duration.

Lemma index_sound_forward_and_arm sid s s0 u d m m' :
  index_sound m → streams m !! sid = Some s0 →
  StatusUpdateStream.frameworkId s = StatusUpdateStream.frameworkId s0 →
  forward_and_arm sid s u d m = Some m' → index_sound m'.
Proof.
  intros Hm Hs Hf H. apply forward_and_arm_spec in H as (_ & ->).
  eapply (index_sound_of (put_stream sid (StatusUpdateStream.set_timeout _ s) m));
    [|done..].
  by eapply index_sound_put.
Qed.

Lemma index_sound_update io u sid checkpoint m r m' :
  index_sound m →
  update isTerminalState getPath RETRY_MIN io u sid checkpoint m = Some (r, m') →
  index_sound m'.
Proof.
  intros Hm H. unfold update in H.
  destruct (match streams m !! sid with
            | None => createStatusUpdateStream getPath io sid (framework_id u) checkpoint m
            | Some _ => (Val (), m) end) as [create m1] eqn:Hc.
  assert (index_sound m1) as Hm1.
  { destruct (streams m !! sid) eqn:Hs; [by simplify_eq|].
    unfold createStatusUpdateStream in Hc.
    destruct (StatusUpdateStream.create _ _ _ _ _) as [[e|stream] fs'] eqn:Hcreate.
    { injection Hc as _ <-. by eapply index_sound_of. }
    apply create_spec in Hcreate as ->. injection Hc as _ <-.
    set (stream0 := StatusUpdateStream.set_frameworkId _ _).
    eapply (index_sound_of
              (put_stream sid stream0 (set_frameworkStreams
                 (match framework_id u with
                  | Some f => index_insert f sid (frameworkStreams m)
                  | None => frameworkStreams m end) m))).
    - apply index_sound_register; [done..|].
      apply (streams_of_index_insert stream0).
    - by destruct (framework_id u).
    - by destruct (framework_id u). }
  destruct create as [e|[]]; [by simplify_eq|].
  destruct (streams m1 !! sid) as [stream|] eqn:Hs; [|done]. simpl in H.
  destruct (negb (eqb _ checkpoint)); [by simplify_eq|].
  destruct (negb (eqb (has_framework_id u) _)) eqn:Hc2; [by simplify_eq|].
  destruct (has_framework_id u && _) eqn:Hc3; [by simplify_eq|].
  destruct (StatusUpdateStream.update _ io u stream (fs m1)) as [[[res s1] fs1]|] eqn:Hu; [|done].
  simpl in H.
  assert (StatusUpdateStream.frameworkId s1 = StatusUpdateStream.frameworkId stream) as Hf.
  { apply update_cases in Hu as [(-> & He & Hh)|[(Hr & -> & ->)|(-> & He & ->)]]; [|done..].
    apply _handle_update_spec in Hh as (a & Ha & ->). simpl.
    destruct (has_framework_id u) eqn:Hhas; [|done].
    simpl in Hc3. apply bool_decide_eq_false in Hc3. by apply dec_stable in Hc3. }
  assert (index_sound (put_stream sid s1 (set_fs fs1 m1))) as Hm2.
  { eapply (index_sound_of (put_stream sid s1 m1)); [|done..]. by eapply index_sound_put. }
  destruct res as [e|[|]]; [by simplify_eq| |by simplify_eq].
  destruct (negb _ && _); [|by simplify_eq].
  case_bool_decide; [done|].
  destruct (StatusUpdateStream.next s1); [by simplify_eq|done|].
  destruct (forward_and_arm _ _ _ _ _) as [m3|] eqn:Hfw; [|done]. simpl in H.
  injection H as _ <-.
  eapply (index_sound_forward_and_arm sid s1 s1); [exact Hm2| |done|exact Hfw].
  simpl. by rewrite lookup_insert_eq.
Qed.

Lemma index_sound_acknowledgement io sid uuid m r m' :
  index_sound m →
  acknowledgement isTerminalState RETRY_MIN io sid uuid m = Some (r, m') → index_sound m'.
Proof.
  intros Hm H. unfold acknowledgement in H.
  destruct (streams m !! sid) as [stream|] eqn:Hs; [|by simplify_eq].
  destruct (StatusUpdateStream.acknowledgement _ io uuid stream (fs m))
    as [[[res s1] fs1]|] eqn:Ha; [|done].
  simpl in H.
  assert (StatusUpdateStream.frameworkId s1 = StatusUpdateStream.frameworkId stream) as Hf.
  { apply acknowledgement_cases in Ha
      as [(-> & He & h & q & Hq & _ & _ & Hh)|[(Hr & -> & ->)|(-> & He & ->)]]; [|done..].
    by apply _handle_ack_spec in Hh as (a & Ha & ->). }
  assert (index_sound (put_stream sid s1 (set_fs fs1 m))) as Hm1.
  { eapply (index_sound_of (put_stream sid s1 m)); [|done..]. by eapply index_sound_put. }
  destruct res as [e|[|]]; [by simplify_eq| |by simplify_eq].
  set (s2 := StatusUpdateStream.set_timeout None s1) in *.
  assert (index_sound (put_stream sid s2 (put_stream sid s1 (set_fs fs1 m)))) as Hm2.
  { eapply (index_sound_put sid s1 s2); [exact Hm1| |done]. simpl. by rewrite lookup_insert_eq. }
  destruct (StatusUpdateStream.next s2) as [e| |n] eqn:Hn; [by simplify_eq|..].
  - destruct (StatusUpdateStream.terminated _); [|by simplify_eq].
    destruct (cleanupStatusUpdateStream _ _) as [m3|] eqn:Hc; [|done]. simpl in H.
    injection H as _ <-. by eapply index_sound_cleanupStatusUpdateStream.
  - destruct (StatusUpdateStream.terminated _).
    + destruct (cleanupStatusUpdateStream _ _) as [m3|] eqn:Hc; [|done]. simpl in H.
      injection H as _ <-. by eapply index_sound_cleanupStatusUpdateStream.
    + destruct (negb _); [|by simplify_eq].
      destruct (forward_and_arm _ _ _ _ _) as [m3|] eqn:Hfw; [|done]. simpl in H.
      injection H as _ <-.
      eapply (index_sound_forward_and_arm sid s2 s2); [exact Hm2| |done|exact Hfw].
      simpl. by rewrite lookup_insert_eq.
Qed.

(** [recoverStatusUpdateStream] touches no stream but the one it recovers. *)
Lemma recoverStatusUpdateStream_others io sid strict m r m' :
  recoverStatusUpdateStream isTerminalState getPath RETRY_MIN io sid strict m = Some (r, m') →
  ∀ j, j ≠ sid → streams m' !! j = streams m !! j.
Proof.
  intros H j Hj. unfold recoverStatusUpdateStream in H.
  destruct (StatusUpdateStream.recover _ io sid _ strict (fs m)) as [[res fs1]|]; [|done].
  simpl in H.
  destruct res as [e| |[s st]]; [by simplify_eq..|].
  destruct (StatusUpdateStream.terminated s); [by simplify_eq|].
  set (m2 := match StatusUpdateStream.frameworkId s with
             | Some f => _ | None => _ end) in *.
  assert (streams m2 = streams m) as Hm2
    by (unfold m2; by destruct (StatusUpdateStream.frameworkId s)).
  destruct (StatusUpdateStream.next s); [injection H as _ <-; by rewrite Hm2| |].
  - injection H as _ <-. simpl. by rewrite lookup_insert_ne, Hm2.
  - destruct (negb _).
    + destruct (forward_and_arm _ _ _ _ _) as [m3|] eqn:Hf; [|done]. simpl in H.
      injection H as _ <-. apply forward_and_arm_spec in Hf as (_ & ->). simpl.
      by rewrite lookup_insert_ne, Hm2.
    + injection H as _ <-. simpl. by rewrite lookup_insert_ne, Hm2.
Qed.

Lemma index_sound_recoverStatusUpdateStream io sid strict m r m' :
  index_sound m → streams m !! sid = None →
  recoverStatusUpdateStream isTerminalState getPath RETRY_MIN io sid strict m = Some (r, m') →
  index_sound m'.
Proof.
  intros Hm Hs H. unfold recoverStatusUpdateStream in H.
  destruct (StatusUpdateStream.recover _ io sid _ strict (fs m)) as [[res fs1]|] eqn:Hr; [|done].
  simpl in H.
  destruct res as [e| |[s st]]; [by simplify_eq..|].
  destruct (recover_fresh _ _ _ _ _ _ _ _ _ Hr) as (Hto & He & _).
  destruct (StatusUpdateStream.terminated s); [by simplify_eq|].
  set (index' := match StatusUpdateStream.frameworkId s with
                 | Some f => index_insert f sid (frameworkStreams m)
                 | None => frameworkStreams m end).
  assert (∀ s' m1,
            StatusUpdateStream.frameworkId s' = StatusUpdateStream.frameworkId s →
            streams m1 = <[sid := s']> (streams m) → frameworkStreams m1 = index' →
            index_sound m1) as Hput.
  { intros s' m1 Hf Hstreams Hindex.
    eapply (index_sound_of (put_stream sid s' (set_frameworkStreams index' m))); [|done..].
    apply index_sound_register; [done..|]. rewrite Hf. apply streams_of_index_insert. }
  unfold StatusUpdateStream.next in H. rewrite He in H.
  destruct (StatusUpdateStream.pending s) as [|n q].
  - injection H as _ <-. apply (Hput s); [done|..]; unfold index';
      by destruct (StatusUpdateStream.frameworkId s).
  - destruct (negb _).
    + destruct (forward_and_arm _ _ _ _ _) as [m3|] eqn:Hf; [|done]. simpl in H.
      injection H as _ <-. apply forward_and_arm_spec in Hf as (_ & ->).
      destruct (StatusUpdateStream.frameworkId s) eqn:Hfid; simpl;
        by eapply (Hput (StatusUpdateStream.set_timeout _ s)).
    + injection H as _ <-. apply (Hput s); [done|..]; unfold index';
        by destruct (StatusUpdateStream.frameworkId s).
Qed.

Lemma index_sound_recover_from io streamIds strict : ∀ state m r m',
  index_sound m → NoDup streamIds →
  Forall (λ sid, streams m !! sid = None) streamIds →
  recover_from isTerminalState getPath RETRY_MIN io streamIds strict state m = Some (r, m') →
  index_sound m'.
Proof.
  induction streamIds as [|sid rest IH]; intros state m r m' Hm Hnd Hnone; simpl.
  - by intros [= _ <-].
  - apply NoDup_cons in Hnd as [Hsid Hnd]. apply Forall_cons in Hnone as [Hs Hnone].
    destruct (recoverStatusUpdateStream _ _ _ io sid strict m) as [[res m1]|] eqn:Hr; [|done].
    simpl.
    pose proof (index_sound_recoverStatusUpdateStream _ _ _ _ _ _ Hm Hs Hr) as Hm1.
    assert (Forall (λ sid, streams m1 !! sid = None) rest) as Hnone1.
    { apply Forall_forall. intros j Hj.
      rewrite (recoverStatusUpdateStream_others _ _ _ _ _ _ Hr) by (by intros ->).
      by apply (proj1 (Forall_forall _ _) Hnone). }
    destruct res as [e| |st]; [|by apply IH..].
    destruct strict; [|by apply IH].
    unfold cleanup_all.
    destruct (foreach _ _ m1) as [m2|] eqn:Hf; [|done]. simpl.
    destruct (_ && _); [|done]. intros [= _ <-].
    by eapply index_sound_foreach_cleanup.
Qed.

Lemma index_sound_timeout sid d m m' :
  index_sound m → timeout RETRY_MAX sid d m = Some m' → index_sound m'.
Proof.
  intros Hm H. unfold timeout in H.
  destruct (paused m); [by simplify_eq|].
  destruct (streams m !! sid) as [s|] eqn:Hs; [|by simplify_eq].
  destruct (StatusUpdateStream.pending s); [by simplify_eq|].
  destruct (StatusUpdateStream.timeout s); [|done]. simpl in H.
  case_bool_decide; [|by simplify_eq].
  by eapply index_sound_forward_and_arm.
Qed.

Lemma index_sound_resume m m' :
  index_sound m → resume RETRY_MIN m = Some m' → index_sound m'.
Proof.
  intros Hm H.
  destruct (resume_spec RETRY_MIN m) as (m1 & Hm1 & _ & Hstreams & _ & _ & Hidx & _).
  rewrite H in Hm1. injection Hm1 as <-.
  intros f k Hk. rewrite Hidx in Hk. destruct (Hm f k Hk) as (s & Hs & Hf).
  rewrite Hstreams, Hs. simpl. eexists. split; [done|].
  unfold resumed_stream. by destruct (resumed_update s).
Qed.

Lemma index_sound_step e m m' :
  index_sound m → fresh_recovery e m →
  step isTerminalState getPath RETRY_MIN RETRY_MAX e m = Some m' → index_sound m'.
Proof.
  intros Hm Hfresh.
  destruct e as [io u sid c|io sid uuid|io ids strict|f| | |i|dt|fs']; simpl.
  - destruct (update _ _ _ _ _ _ _ _) as [[r m1]|] eqn:H; [|done]. intros [= <-].
    by eapply index_sound_update.
  - destruct (acknowledgement _ _ _ _ _ _) as [[r m1]|] eqn:H; [|done]. intros [= <-].
    by eapply index_sound_acknowledgement.
  - destruct (recover _ _ _ _ _ _ _) as [[r m1]|] eqn:H; [|done]. intros [= <-].
    destruct Hfresh as [Hnd Hnone]. by eapply index_sound_recover_from.
  - unfold cleanup. destruct (frameworkStreams m !! f); [|by intros [= <-]].
    by apply index_sound_foreach_cleanup.
  - intros [= <-]. by eapply index_sound_of.
  - by apply index_sound_resume.
  - unfold deliver. destruct (timers m !! i) as [timer|]; [|by intros [= <-]].
    case_bool_decide; [|by intros [= <-]].
    apply index_sound_timeout. by eapply index_sound_of.
  - case_bool_decide; intros [= <-]; [by eapply index_sound_of|done].
  - intros [= <-]. by eapply index_sound_of.
Qed.

Lemma index_sound_run es : ∀ m m',
  index_sound m →
  recovers_fresh isTerminalState getPath RETRY_MIN RETRY_MAX es m →
  run isTerminalState getPath RETRY_MIN RETRY_MAX es m = Some m' → index_sound m'.
Proof.
  induction es as [|e es IH]; intros m m' Hm Hfresh; simpl.
  - by intros [= <-].
  - destruct Hfresh as [He Hrest].
    destruct (step _ _ _ _ e m) as [m1|] eqn:Hstep; [|done]. simpl.
    apply IH; [by eapply index_sound_step|by apply Hrest].
Qed.

(** As long as recovery is run only for stream ids that are not registered,
    [frameworkStreams] is exact: it lists a stream id under a framework
    exactly when a stream is registered under that id whose framework id is
    that framework. *)
Theorem frameworkStreams_lists_registered_streams es now fs0 m :
  recovers_fresh isTerminalState getPath RETRY_MIN RETRY_MAX es (init now fs0) →
  run isTerminalState getPath RETRY_MIN RETRY_MAX es (init now fs0) = Some m →
  ∀ f sid,
    sid ∈ streams_of f (frameworkStreams m)
    ↔ ∃ s, streams m !! sid = Some s ∧ StatusUpdateStream.frameworkId s = Some f.
Proof.
  intros Hfresh Hrun f sid. split.
  - apply (index_sound_run es (init now fs0) m); [|done..].
    intros f' k Hk. unfold streams_of in Hk. simpl in Hk.
    rewrite lookup_empty in Hk. by apply elem_of_empty in Hk.
  - intros (s & Hs & Hf).
    assert (reachable isTerminalState getPath RETRY_MIN RETRY_MAX m) as Hm.
    { eapply run_reachable; [|exact Hrun]. constructor. }
    apply reachable_streams_ok in Hm.
    destruct (streams_ok_lookup _ _ _ _ _ Hm Hs) as [_ Hidx]. by apply Hidx.
Qed.

End IndexSound.

(** The loop of [cleanup(frameworkId)] over the stream ids still to visit. *)
Lemma cleanup_loop f (l : list nat) : ∀ m,
  NoDup l →
  (∀ sid, sid ∈ l →
     sid ∈ streams_of f (frameworkStreams m)
     ∧ ∃ s, streams m !! sid = Some s ∧ StatusUpdateStream.frameworkId s = Some f) →
  ∃ m', foreach cleanupStatusUpdateStream l m = Some m'
    ∧ (∀ sid, streams m' !! sid = if decide (sid ∈ l) then None else streams m !! sid)
    ∧ (∀ f', streams_of f' (frameworkStreams m')
             = if decide (f' = f) then streams_of f (frameworkStreams m) ∖ list_to_set l
               else streams_of f' (frameworkStreams m))
    ∧ paused m' = paused m ∧ timers m' = timers m ∧ forwarded m' = forwarded m
    ∧ clock m' = clock m ∧ fs m' = fs m.
Proof.
  induction l as [|sid l IH]; intros m Hnd Hl.
  { exists m. simpl. split_and!; try done.
    intros f'. destruct (decide _) as [->|]; [|done]. set_solver. }
  apply NoDup_cons in Hnd as [Hsid Hnd].
  destruct (Hl sid) as (Hin & s & Hs & Hf); [by left|].
  destruct (cleanupStatusUpdateStream_total sid s m) as [m1 Hm1]; [done| |].
  { intros f' Hf'. rewrite Hf in Hf'. by injection Hf' as <-. }
  simpl. rewrite Hm1. simpl.
  apply cleanupStatusUpdateStream_exact in Hm1
    as (s' & Hs' & Hstreams & Hp & Ht & Hfw & Hc & Hfs & Hidx).
  rewrite Hs in Hs'. injection Hs' as <-.
  destruct (IH m1 Hnd) as (m' & -> & Hstreams' & Hidx' & Hp' & Ht' & Hfw' & Hc' & Hfs').
  { intros k Hk. destruct (Hl k) as (Hkin & sk & Hsk & Hfk); [by right|].
    assert (k ≠ sid) as Hne by (by intros ->).
    split.
    - rewrite Hidx, decide_True by done. set_solver.
    - exists sk. by rewrite Hstreams, lookup_delete_ne. }
  exists m'. split_and!; try congruence.
  - intros k. rewrite Hstreams', Hstreams.
    destruct (decide (k = sid)) as [->|Hne].
    + rewrite lookup_delete_eq. rewrite (decide_True (P := sid ∈ sid :: l)) by left.
      by destruct (decide _).
    + rewrite lookup_delete_ne by done.
      destruct (decide (k ∈ l)) as [Hk|Hk].
      * rewrite decide_True; [done|by right].
      * rewrite decide_False; [done|]. by intros [?|?]%elem_of_cons.
  - intros f'. rewrite Hidx'. destruct (decide (f' = f)) as [->|Hne].
    + rewrite Hidx, decide_True by done. set_solver.
    + rewrite Hidx, decide_False; [done|]. rewrite Hf. by intros [= ->].
Qed.

(** [cleanup(frameworkId)] on an index that lists, under the framework,
    registered streams of that framework only: no [CHECK] fails; the
    streams listed under the framework are no longer registered and every
    other stream is untouched; the framework lists no stream afterwards and
    the other frameworks list what they listed.  The timers already
    scheduled stay scheduled and the files stay as they are: nothing is
    cancelled and nothing is collected. *)
Theorem cleanup_closes_the_streams_of_a_framework f m :
  (∀ sid, sid ∈ streams_of f (frameworkStreams m) →
          ∃ s, streams m !! sid = Some s ∧ StatusUpdateStream.frameworkId s = Some f) →
  ∃ m',
    cleanup f m = Some m'
    ∧ (∀ sid, streams m' !! sid
              = if decide (sid ∈ streams_of f (frameworkStreams m)) then None
                else streams m !! sid)
    ∧ streams_of f (frameworkStreams m') = ∅
    ∧ (∀ f', f' ≠ f →
             streams_of f' (frameworkStreams m') = streams_of f' (frameworkStreams m))
    ∧ timers m' = timers m ∧ forwarded m' = forwarded m ∧ fs m' = fs m
    ∧ paused m' = paused m.
Proof.
  intros Hsound. unfold cleanup.
  destruct (frameworkStreams m !! f) as [ids|] eqn:Hids.
  - assert (streams_of f (frameworkStreams m) = ids) as Hof
      by (unfold streams_of; by rewrite Hids).
    destruct (cleanup_loop f (elements ids) m)
      as (m' & -> & Hstreams & Hidx & Hp' & Ht' & Hfw' & _ & Hfs').
    { apply NoDup_elements. }
    { intros sid Hsid. apply elem_of_elements in Hsid. rewrite Hof.
      split; [done|]. apply Hsound. by rewrite Hof. }
    exists m'. split_and!; try done.
    + intros sid. rewrite Hstreams, Hof.
      destruct (decide (sid ∈ elements ids)) as [Hin|Hin].
      * rewrite decide_True; [done|]. by apply elem_of_elements.
      * rewrite decide_False; [done|]. by rewrite <- elem_of_elements.
    + rewrite Hidx, decide_True, Hof by done. set_solver.
    + intros f' Hne. by rewrite Hidx, decide_False.
  - exists m. split_and!; try done.
    + intros sid. unfold streams_of. rewrite Hids. simpl. by rewrite decide_False by set_solver.
    + unfold streams_of. by rewrite Hids.
Qed.

(** * Retries are scheduled *)

Lemma scheduled_app sid d l l' : scheduled sid d l → scheduled sid d (l ++ l').
Proof.
  intros (timer & Hin & Hd & Hs). exists timer. split; [|done].
  apply elem_of_app. by left.
Qed.

Lemma scheduled_new sid d dur l : scheduled sid d (l ++ [mkTimer d sid dur]).
Proof.
  exists (mkTimer d sid dur). split; [|done]. apply elem_of_app. right. by left.
Qed.

(** A scheduled message survives the delivery of another one. *)
Lemma scheduled_delete sid d l i timer :
  scheduled sid d l → l !! i = Some timer →
  ¬ (due timer = d ∧ timer_stream timer = sid) →
  scheduled sid d (delete i l).
Proof.
  intros (w & Hin & Hd & Hs) Hi Hne. exists w. split; [|done].
  apply list_elem_of_lookup in Hin as [j Hj].
  destruct (decide (i = j)) as [->|Hij].
  { rewrite Hi in Hj. injection Hj as ->. by destruct Hne. }
  apply list_elem_of_lookup.
  destruct (decide (j < i)%nat) as [Hlt|Hge].
  - exists j. by rewrite list_lookup_delete_lt.
  - exists (pred j). rewrite list_lookup_delete_ge by lia.
    replace (S (pred j)) with j by lia. done.
Qed.

Lemma retries_scheduled_app M l l' :
  retries_scheduled M l → retries_scheduled M (l ++ l').
Proof. intros H sid s d Hs He Ht. apply scheduled_app. by eapply H. Qed.

Lemma retries_scheduled_insert M l sid s :
  retries_scheduled M l →
  (StatusUpdateStream.error s = None →
   ∀ d, StatusUpdateStream.timeout s = Some d → scheduled sid d l) →
  retries_scheduled (<[sid := s]> M) l.
Proof.
  intros H Hs k sk d Hk He Ht.
  destruct (decide (k = sid)) as [->|Hne].
  - rewrite lookup_insert_eq in Hk. injection Hk as <-. by apply Hs.
  - rewrite lookup_insert_ne in Hk by done. by eapply H.
Qed.

Lemma retries_scheduled_delete M l sid :
  retries_scheduled M l → retries_scheduled (delete sid M) l.
Proof.
  intros H k sk d Hk. apply lookup_delete_Some in Hk as [_ Hk]. by eapply H.
Qed.

Lemma retries_scheduled_forward_and_arm sid s u d m m' :
  retries_scheduled (streams m) (timers m) →
  forward_and_arm sid s u d m = Some m' →
  retries_scheduled (streams m') (timers m').
Proof.
  intros H Hf. apply forward_and_arm_spec in Hf as (_ & ->). simpl.
  apply retries_scheduled_insert; [by apply retries_scheduled_app|].
  intros _ d' [= <-]. apply scheduled_new.
Qed.

Lemma retries_scheduled_cleanupStatusUpdateStream sid m m' :
  retries_scheduled (streams m) (timers m) →
  cleanupStatusUpdateStream sid m = Some m' →
  retries_scheduled (streams m') (timers m').
Proof.
  intros H Hc. apply cleanupStatusUpdateStream_spec in Hc as (s & _ & -> & _ & -> & _).
  by apply retries_scheduled_delete.
Qed.

Lemma retries_scheduled_foreach_cleanup l : ∀ m m',
  retries_scheduled (streams m) (timers m) →
  foreach cleanupStatusUpdateStream l m = Some m' →
  retries_scheduled (streams m') (timers m').
Proof.
  induction l as [|x l IH]; intros m m' Hm; simpl.
  - by intros [= <-].
  - destruct (cleanupStatusUpdateStream x m) as [m1|] eqn:Hx; [|done]. simpl.
    apply IH. by eapply retries_scheduled_cleanupStatusUpdateStream.
Qed.

Section Scheduled.

Variable isTerminalState : StateValue → bool.
Variable getPath : StreamId → Path.
Variable RETRY_MIN RETRY_MAX : Duration.

Lemma retries_scheduled_update io u sid checkpoint m r m' :
  retries_scheduled (streams m) (timers m) →
  update isTerminalState getPath RETRY_MIN io u sid checkpoint m = Some (r, m') →
  retries_scheduled (streams m') (timers m').
Proof.
  intros Hm H. unfold update in H.
  destruct (match streams m !! sid with
            | None => createStatusUpdateStream getPath io sid (framework_id u) checkpoint m
            | Some _ => (Val (), m) end) as [create m1] eqn:Hc.
  assert (retries_scheduled (streams m1) (timers m1)) as Hm1.
  { destruct (streams m !! sid); [by simplify_eq|].
    apply createStatusUpdateStream_spec in Hc
      as [(e & -> & fs' & ->)|(-> & -> & _ & _ & -> & _)]; [done|].
    by apply retries_scheduled_insert. }
  destruct create as [e|[]]; [by simplify_eq|].
  destruct (streams m1 !! sid) as [stream|] eqn:Hs; [|done]. simpl in H.
  destruct (negb (eqb _ checkpoint)); [by simplify_eq|].
  destruct (negb (eqb (has_framework_id u) _)); [by simplify_eq|].
  destruct (has_framework_id u && _); [by simplify_eq|].
  destruct (StatusUpdateStream.update _ io u stream (fs m1)) as [[[res s1] fs1]|] eqn:Hu; [|done].
  simpl in H.
  assert (retries_scheduled (streams (put_stream sid s1 (set_fs fs1 m1)))
            (timers (put_stream sid s1 (set_fs fs1 m1)))) as Hm2.
  { simpl. apply retries_scheduled_insert; [done|]. intros He1 d Hd.
    apply (Hm1 sid stream d Hs).
    - apply update_cases in Hu as [(_ & He & _)|[(_ & -> & _)|(_ & _ & ->)]]; done.
    - apply update_cases in Hu as [(_ & He & Hh)|[(_ & -> & _)|(_ & _ & ->)]]; [|done..].
      apply _handle_frame in Hh as (Hto & _). by rewrite <- Hto. }
  destruct res as [e|[|]]; [by simplify_eq| |by simplify_eq].
  destruct (negb _ && _); [|by simplify_eq].
  case_bool_decide; [done|].
  destruct (StatusUpdateStream.next s1); [by simplify_eq|done|].
  destruct (forward_and_arm _ _ _ _ _) as [m3|] eqn:Hf; [|done]. simpl in H.
  injection H as _ <-. by eapply retries_scheduled_forward_and_arm.
Qed.

Lemma retries_scheduled_acknowledgement io sid uuid m r m' :
  retries_scheduled (streams m) (timers m) →
  acknowledgement isTerminalState RETRY_MIN io sid uuid m = Some (r, m') →
  retries_scheduled (streams m') (timers m').
Proof.
  intros Hm H. unfold acknowledgement in H.
  destruct (streams m !! sid) as [stream|] eqn:Hs; [|by simplify_eq].
  destruct (StatusUpdateStream.acknowledgement _ io uuid stream (fs m))
    as [[[res s1] fs1]|] eqn:Ha; [|done].
  simpl in H.
  assert (retries_scheduled (streams (put_stream sid s1 (set_fs fs1 m)))
            (timers (put_stream sid s1 (set_fs fs1 m)))) as Hm1.
  { simpl. apply retries_scheduled_insert; [done|]. intros He1 d Hd.
    apply (Hm sid stream d Hs).
    - apply acknowledgement_cases in Ha as [(_ & He & _)|[(_ & -> & _)|(_ & _ & ->)]]; done.
    - apply acknowledgement_cases in Ha
        as [(_ & He & h & q & _ & _ & _ & Hh)|[(_ & -> & _)|(_ & _ & ->)]]; [|done..].
      apply _handle_frame in Hh as (Hto & _). by rewrite <- Hto. }
  destruct res as [e|[|]]; [by simplify_eq| |by simplify_eq].
  set (s2 := StatusUpdateStream.set_timeout None s1) in *.
  assert (retries_scheduled
            (streams (put_stream sid s2 (put_stream sid s1 (set_fs fs1 m))))
            (timers (put_stream sid s2 (put_stream sid s1 (set_fs fs1 m))))) as Hm2.
  { simpl. by apply retries_scheduled_insert. }
  destruct (StatusUpdateStream.next s2) as [e| |n] eqn:Hn; [by simplify_eq|..].
  - destruct (StatusUpdateStream.terminated _); [|by simplify_eq].
    destruct (cleanupStatusUpdateStream _ _) as [m3|] eqn:Hc; [|done]. simpl in H.
    injection H as _ <-. by eapply retries_scheduled_cleanupStatusUpdateStream.
  - destruct (StatusUpdateStream.terminated _).
    + destruct (cleanupStatusUpdateStream _ _) as [m3|] eqn:Hc; [|done]. simpl in H.
      injection H as _ <-. by eapply retries_scheduled_cleanupStatusUpdateStream.
    + destruct (negb _); [|by simplify_eq].
      destruct (forward_and_arm _ _ _ _ _) as [m3|] eqn:Hf; [|done]. simpl in H.
      injection H as _ <-. by eapply retries_scheduled_forward_and_arm.
Qed.

Lemma retries_scheduled_recoverStatusUpdateStream io sid strict m r m' :
  retries_scheduled (streams m) (timers m) →
  recoverStatusUpdateStream isTerminalState getPath RETRY_MIN io sid strict m = Some (r, m') →
  retries_scheduled (streams m') (timers m').
Proof.
  intros Hm H. unfold recoverStatusUpdateStream in H.
  destruct (StatusUpdateStream.recover _ io sid _ strict (fs m)) as [[res fs1]|] eqn:Hr; [|done].
  simpl in H.
  destruct res as [e| |[s st]]; [by simplify_eq..|].
  destruct (recover_fresh _ _ _ _ _ _ _ _ _ Hr) as (Hto & He & _).
  destruct (StatusUpdateStream.terminated s); [by simplify_eq|].
  set (m2 := match StatusUpdateStream.frameworkId s with
             | Some f => _ | None => _ end) in *.
  assert (retries_scheduled (streams m2) (timers m2)) as Hm2
    by (unfold m2; by destruct (StatusUpdateStream.frameworkId s)).
  assert (retries_scheduled (streams (put_stream sid s m2)) (timers (put_stream sid s m2)))
    as Hput.
  { simpl. apply retries_scheduled_insert; [done|]. intros _ d. by rewrite Hto. }
  destruct (StatusUpdateStream.next s); [by simplify_eq| |].
  - by injection H as _ <-.
  - destruct (negb _).
    + destruct (forward_and_arm _ _ _ _ _) as [m3|] eqn:Hf; [|done]. simpl in H.
      injection H as _ <-.
      eapply retries_scheduled_forward_and_arm; [exact Hm2|exact Hf].
    + by injection H as _ <-.
Qed.

Lemma retries_scheduled_recover_from io streamIds strict : ∀ state m r m',
  retries_scheduled (streams m) (timers m) →
  recover_from isTerminalState getPath RETRY_MIN io streamIds strict state m = Some (r, m') →
  retries_scheduled (streams m') (timers m').
Proof.
  induction streamIds as [|sid rest IH]; intros state m r m' Hm; simpl.
  - by intros [= _ <-].
  - destruct (recoverStatusUpdateStream _ _ _ io sid strict m) as [[res m1]|] eqn:Hr; [|done].
    simpl. apply retries_scheduled_recoverStatusUpdateStream in Hr; [|done].
    destruct res as [e| |st]; [|by apply IH..].
    destruct strict; [|by apply IH].
    unfold cleanup_all.
    destruct (foreach _ _ m1) as [m2|] eqn:Hf; [|done]. simpl.
    destruct (_ && _); [|done]. intros [= _ <-].
    by eapply retries_scheduled_foreach_cleanup.
Qed.

Lemma retries_scheduled_resume m m' :
  streams_ok (paused m) (frameworkStreams m) (streams m) →
  resume RETRY_MIN m = Some m' →
  retries_scheduled (streams m') (timers m').
Proof.
  intros Hok H.
  destruct (resume_spec RETRY_MIN m) as (m1 & Hm1 & _ & Hstreams & _ & Htimers & _).
  rewrite H in Hm1. injection Hm1 as <-.
  intros sid s' d Hs' He Ht. rewrite Hstreams in Hs'.
  destruct (streams m !! sid) as [s|] eqn:Hs; [|done]. injection Hs' as <-.
  rewrite Htimers.
  destruct (streams_ok_lookup _ _ _ _ _ Hok Hs) as [(_ & Hpending & _) _].
  unfold resumed_stream in *.
  destruct (resumed_update s) as [u|] eqn:Hu.
  - simpl in Ht. injection Ht as <-.
    exists (mkTimer (clock m + RETRY_MIN)%Z sid RETRY_MIN). split; [|done].
    apply elem_of_app. right. apply list_elem_of_omap. exists (sid, s).
    split; [by apply elem_of_map_to_list|].
    unfold resumed_timer. simpl. by rewrite Hu.
  - exfalso. unfold resumed_update, StatusUpdateStream.next in Hu. rewrite He in Hu.
    destruct (StatusUpdateStream.pending s) eqn:Hq; [|done].
    apply Hpending; [by rewrite Ht|done].
Qed.

Lemma retries_scheduled_deliver i m m' :
  paused m = false →
  streams_ok (paused m) (frameworkStreams m) (streams m) →
  retries_scheduled (streams m) (timers m) →
  deliver RETRY_MAX i m = Some m' →
  retries_scheduled (streams m') (timers m').
Proof.
  intros Hp Hok Hm H. unfold deliver in H.
  destruct (timers m !! i) as [timer|] eqn:Hi; [|by simplify_eq].
  case_bool_decide as Hdue; [|by simplify_eq].
  unfold timeout in H. simpl in H. rewrite Hp in H.
  (* the streams other than the one the message is for *)
  assert (∀ sid s d, streams m !! sid = Some s → StatusUpdateStream.error s = None →
            StatusUpdateStream.timeout s = Some d →
            ¬ (due timer = d ∧ timer_stream timer = sid) →
            scheduled sid d (delete i (timers m))) as Hother.
  { intros sid s d Hs He Ht Hne. eapply scheduled_delete; [by eapply Hm|done..]. }
  destruct (streams m !! timer_stream timer) as [stream|] eqn:Hs.
  2: { injection H as <-. simpl. intros sid s d Hs' He Ht.
       eapply Hother; [done..|]. intros [_ <-]. congruence. }
  destruct (streams_ok_lookup _ _ _ _ _ Hok Hs) as [(_ & Hpending & _) _].
  destruct (StatusUpdateStream.pending stream) as [|u q] eqn:Hq.
  { injection H as <-. simpl. intros sid s d Hs' He Ht.
    eapply Hother; [done..|]. intros [_ <-].
    rewrite Hs in Hs'. injection Hs' as <-. apply Hpending; [by rewrite Ht|done]. }
  destruct (StatusUpdateStream.timeout stream) as [deadline|] eqn:Hto; [|done]. simpl in H.
  case_bool_decide as Hexpired.
  - apply forward_and_arm_spec in H as (_ & ->). simpl.
    intros sid s d Hs' He Ht.
    destruct (decide (sid = timer_stream timer)) as [->|Hne].
    + rewrite lookup_insert_eq in Hs'. injection Hs' as <-. simpl in Ht.
      injection Ht as <-. apply scheduled_new.
    + rewrite lookup_insert_ne in Hs' by done. apply scheduled_app.
      eapply Hother; [done..|]. by intros [_ <-].
  - injection H as <-. simpl. intros sid s d Hs' He Ht.
    eapply Hother; [done..|]. intros [Hd <-].
    rewrite Hs in Hs'. injection Hs' as <-. rewrite Hto in Ht. injection Ht as <-. lia.
Qed.

(** The manager is paused, or every retry is scheduled. *)
Lemma reachable_retries_scheduled m :
  reachable isTerminalState getPath RETRY_MIN RETRY_MAX m →
  paused m = true ∨ retries_scheduled (streams m) (timers m).
Proof.
  induction 1 as [now fs0|e m m' Hm IH Hstep].
  { right. intros sid s d Hs. simpl in Hs. by rewrite lookup_empty in Hs. }
  pose proof (reachable_streams_ok _ _ _ _ m Hm) as Hok.
  assert (e = EResume ∨ e ≠ EResume) as [->|He] by (destruct e; (by left) || (by right)).
  { right. by eapply retries_scheduled_resume. }
  destruct IH as [Hp|Hrs].
  { left. by destruct (paused_quiet isTerminalState getPath RETRY_MIN RETRY_MAX
                         e m m' Hp He Hstep) as (? & _). }
  destruct e as [io u sid c|io sid uuid|io ids strict|f| | |i|dt|fs']; simpl in Hstep.
  - destruct (update _ _ _ _ _ _ _ _) as [[r m1]|] eqn:H; [|done]. injection Hstep as <-.
    right. by eapply retries_scheduled_update.
  - destruct (acknowledgement _ _ _ _ _ _) as [[r m1]|] eqn:H; [|done]. injection Hstep as <-.
    right. by eapply retries_scheduled_acknowledgement.
  - destruct (recover _ _ _ _ _ _ _) as [[r m1]|] eqn:H; [|done]. injection Hstep as <-.
    right. by eapply retries_scheduled_recover_from.
  - right. unfold cleanup in Hstep.
    destruct (frameworkStreams m !! f); [|by injection Hstep as <-].
    by eapply retries_scheduled_foreach_cleanup.
  - by left; injection Hstep as <-.
  - done.
  - destruct (paused m) eqn:Hp.
    + left. by destruct (paused_quiet isTerminalState getPath RETRY_MIN RETRY_MAX
                           (EDeliver i) m m' Hp He Hstep) as (? & _).
    + right. eapply retries_scheduled_deliver; [done| |done..]. by rewrite Hp.
  - right. case_bool_decide; by injection Hstep as <-.
  - right. by injection Hstep as <-.
Qed.

(** In every reachable state in which the manager is not paused, a
    registered stream without sticky error that has a pending update has
    its timeout set, and a message [timeout] for that stream is scheduled
    for exactly that time: the head of the queue will be retried. *)
Theorem pending_update_has_a_retry_scheduled m sid s :
  reachable isTerminalState getPath RETRY_MIN RETRY_MAX m →
  paused m = false → streams m !! sid = Some s →
  StatusUpdateStream.error s = None → StatusUpdateStream.pending s ≠ [] →
  ∃ d timer,
    StatusUpdateStream.timeout s = Some d
    ∧ timer ∈ timers m ∧ due timer = d ∧ timer_stream timer = sid.
Proof.
  intros Hm Hp Hs He Hq.
  pose proof (reachable_streams_ok _ _ _ _ m Hm) as Hok.
  destruct (streams_ok_lookup _ _ _ _ _ Hok Hs) as [(_ & _ & Harmed) _].
  destruct (Harmed Hp He Hq) as [d Hd].
  destruct (reachable_retries_scheduled m Hm) as [Hp'|Hrs]; [congruence|].
  destruct (Hrs sid s d Hs He Hd) as (timer & Hin & Hdue & Hsid).
  by exists d, timer.
Qed.

End Scheduled.

(** * What recovery reports *)

Section RecoverReports.

Variable isTerminalState : StateValue → bool.
Variable getPath : StreamId → Path.
Variable RETRY_MIN : Duration.

(** Strict recovery of a stream does not return a state flagged with an
    error: an unreadable record is an error of the recovery itself. *)
Lemma strict_recovery_flags_no_error io sid m st m' :
  recoverStatusUpdateStream isTerminalState getPath RETRY_MIN io sid true m
    = Some (RSome st, m') →
  StatusUpdateStream.state_error st = false.
Proof.
  intros H. unfold recoverStatusUpdateStream in H.
  destruct (StatusUpdateStream.recover _ io sid _ true (fs m)) as [[res fs1]|] eqn:Hr; [|done].
  simpl in H.
  assert (∃ s, res = RSome (s, st)) as [s ->].
  { destruct res as [e| |[s st']]; [done..|]. exists s.
    destruct (StatusUpdateStream.terminated s); [by simplify_eq|].
    destruct (StatusUpdateStream.next s); [by simplify_eq..|].
    destruct (negb _); [|by simplify_eq].
    destruct (forward_and_arm _ _ _ _ _); [|done]. simpl in H. by simplify_eq. }
  clear H. unfold StatusUpdateStream.recover in Hr.
  destruct (_ && _); [done|].
  destruct (os_open_rdwr _ _ _) as [e|chunks]; [done|].
  destruct (StatusUpdateStream.replay _ _ _ _ _) as [[e|s1 ups pos c]|]; [done| |done].
  simpl in Hr.
  destruct (lseek_fails _ _); [done|].
  destruct (os_ftruncate _ _ _ _) as [e|fs2]; [done|].
  destruct c; [done|]. simpl in Hr.
  destruct ups; [by destruct (os_rm _ _ _)|]. by injection Hr as _ <- _.
Qed.

Lemma cleanup_all_empty m m' :
  cleanup_all m = Some m' → streams m' = ∅ ∧ frameworkStreams m' = ∅.
Proof.
  unfold cleanup_all. destruct (foreach _ _ m) as [m1|]; [|done]. simpl.
  destruct (bool_decide (streams m1 = ∅)) eqn:H1; [|done].
  destruct (bool_decide (frameworkStreams m1 = ∅)) eqn:H2; [|done].
  simpl. intros [= <-].
  by apply bool_decide_eq_true in H1, H2.
Qed.

(** The loop of [recover], from the state built so far. *)
Lemma recover_from_reports io streamIds strict : ∀ state m r m',
  recover_from isTerminalState getPath RETRY_MIN io streamIds strict state m = Some (r, m') →
  match r with
  | Err e =>
      strict = true ∧ (∃ e0, e = RecoverFailed e0)
      ∧ streams m' = ∅ ∧ frameworkStreams m' = ∅
  | Val st =>
      dom (state_streams state) ⊆ dom (state_streams st)
      ∧ dom (state_streams st) ⊆ dom (state_streams state) ∪ list_to_set streamIds
      ∧ (errors state ≤ errors st ≤ errors state + length streamIds)%nat
      ∧ (strict = true → errors st = errors state)
      ∧ (errors st = errors state → list_to_set streamIds ⊆ dom (state_streams st))
      ∧ ∀ j, j ∉ streamIds → streams m' !! j = streams m !! j
  end.
Proof.
  induction streamIds as [|sid rest IH]; intros state m r m'; simpl.
  { intros [= <- <-]. simpl. split_and!; [done|set_solver|lia|lia|done|set_solver|done]. }
  destruct (recoverStatusUpdateStream _ _ _ io sid strict m) as [[res m1]|] eqn:Hr; [|done].
  simpl.
  pose proof (recoverStatusUpdateStream_others _ _ _ _ _ _ _ _ _ Hr) as Hothers.
  destruct res as [e| |st1].
  - destruct strict.
    + destruct (cleanup_all m1) as [m2|] eqn:Hc; [|done]. simpl. intros [= <- <-].
      apply cleanup_all_empty in Hc as [? ?]. split_and!; try done. by eexists.
    + intros H. apply IH in H. destruct r as [e'|st]; [done|]. simpl in H.
      destruct H as (H1 & H2 & H3 & H4 & H5 & H6).
      split_and!; [done|set_solver|lia|lia|done|lia|].
      intros j Hj. rewrite H6 by set_solver. apply Hothers. set_solver.
  - intros H. apply IH in H. destruct r as [e'|st]; [done|]. simpl in H.
    destruct H as (H1 & H2 & H3 & H4 & H5 & H6). rewrite dom_insert_L in H1, H2.
    split_and!; [set_solver|set_solver|lia|lia|done|set_solver|].
    intros j Hj. rewrite H6 by set_solver. apply Hothers. set_solver.
  - intros H. apply IH in H. destruct r as [e'|st]; [done|]. simpl in H.
    destruct H as (H1 & H2 & H3 & H4 & H5 & H6). rewrite dom_insert_L in H1, H2.
    assert (strict = true → StatusUpdateStream.state_error st1 = false) as Hflag.
    { intros ->. by eapply strict_recovery_flags_no_error. }
    split_and!; [set_solver|set_solver| | | | |].
    + destruct (StatusUpdateStream.state_error st1); lia.
    + destruct (StatusUpdateStream.state_error st1); simpl; lia.
    + intros Hs. rewrite H4, (Hflag Hs) by done. done.
    + intros He. destruct (StatusUpdateStream.state_error st1); [lia|]. set_solver.
    + intros j Hj. rewrite H6 by set_solver. apply Hothers. set_solver.
Qed.

(** What [recover(streamIds, strict)] reports.  A failure is returned only
    in strict mode, and then no stream is registered any more and
    [frameworkStreams] is empty.  A returned state has entries for stream
    ids of the list only, counts at most one error per stream id, counts no
    error at all in strict mode, and has an entry for every stream id of the
    list when it counts no error.  Streams registered under other ids are
    untouched. *)
Theorem recover_reports_streams_and_errors io streamIds strict m r m' :
  recover isTerminalState getPath RETRY_MIN io streamIds strict m = Some (r, m') →
  match r with
  | Err e =>
      strict = true ∧ (∃ e0, e = RecoverFailed e0)
      ∧ streams m' = ∅ ∧ frameworkStreams m' = ∅
  | Val st =>
      dom (state_streams st) ⊆ list_to_set streamIds
      ∧ (errors st ≤ length streamIds)%nat
      ∧ (strict = true → errors st = 0%nat)
      ∧ (errors st = 0%nat → dom (state_streams st) = list_to_set streamIds)
      ∧ ∀ j, j ∉ streamIds → streams m' !! j = streams m !! j
  end.
Proof.
  intros H. apply recover_from_reports in H. destruct r as [e|st]; [done|].
  simpl in H. destruct H as (H1 & H2 & H3 & H4 & H5 & H6).
  rewrite dom_empty_L in H2.
  split_and!; [set_solver|simpl in *; lia|done| |done].
  intros He. apply set_eq. set_solver.
Qed.

End RecoverReports.

(** * The checkpoint file and the stream agree *)

Section RoundTrip.

Variable isTerminalState : StateValue → bool.
Variable sid : StreamId.
Variable p : Path.

Lemma truncate_whole (fs0 : FS) chunks :
  files fs0 !! p = Some chunks →
  mkFS (alter (take (length chunks)) p (files fs0)) (dirs fs0) = fs0.
Proof.
  intros Hch. destruct fs0 as [F D]. simpl in *. f_equal.
  apply alter_id. intros x Hx. rewrite Hch in Hx. injection Hx as <-.
  by rewrite firstn_all.
Qed.

Lemma exists_file (fs0 : FS) chunks :
  files fs0 !! p = Some chunks → os_exists fs0 p = true.
Proof.
  intros Hch. unfold os_exists.
  rewrite (bool_decide_eq_true_2 (p ∈ dom (files fs0))); [by rewrite orb_true_r|].
  apply elem_of_dom. by eexists.
Qed.

(** Recovery of a file of complete records that replays. *)
Lemma recover_complete io strict (fs0 : FS) records s0 ups :
  files fs0 !! p = Some (Good <$> records) →
  StatusUpdateStream.replay isTerminalState (Good <$> records)
    (StatusUpdateStream.new sid (Some p)) [] 0
  = Some (StatusUpdateStream.ReplayDone s0 ups (length (Good <$> records)) false) →
  ups ≠ [] →
  open_fails io p = false → lseek_fails io p = false → ftruncate_fails io p = false →
  StatusUpdateStream.recover isTerminalState io sid p strict fs0
  = Some (RSome (s0, StatusUpdateStream.mkState ups false (StatusUpdateStream.terminated s0)),
          fs0).
Proof.
  intros Hch Hrep Hups Hopen Hseek Htrunc. unfold StatusUpdateStream.recover.
  rewrite (exists_file _ _ Hch), andb_false_r.
  unfold os_open_rdwr. rewrite Hopen, Hch, Hrep. simpl. rewrite Hseek.
  unfold os_ftruncate. rewrite Htrunc, (truncate_whole _ _ Hch). simpl.
  by destruct ups.
Qed.

(** Recovering twice is recovering once.  After a recovery that returned a
    stream, a second recovery of the same file (whose system calls do not
    fail, in either mode) returns the same stream and the same updates,
    flags no error, and leaves the file as the first recovery left it. *)
Theorem recovery_is_idempotent io io' strict strict' (fs0 : FS) s st fs' :
  StatusUpdateStream.recover isTerminalState io sid p strict fs0
    = Some (RSome (s, st), fs') →
  open_fails io' p = false → lseek_fails io' p = false → ftruncate_fails io' p = false →
  StatusUpdateStream.recover isTerminalState io' sid p strict' fs'
  = Some (RSome (s, StatusUpdateStream.mkState (StatusUpdateStream.updates st) false
                      (StatusUpdateStream.state_terminated st)),
          fs').
Proof.
  intros H Hopen Hseek Htrunc. unfold StatusUpdateStream.recover in H.
  destruct (_ && _); [done|].
  unfold os_open_rdwr in H. destruct (open_fails io p); [done|].
  destruct (files fs0 !! p) as [chunks|] eqn:Hch; [|done].
  destruct (StatusUpdateStream.replay _ _ _ _ _) as [[e|s1 ups pos c]|] eqn:Hrep; [done| |done].
  simpl in H.
  destruct (lseek_fails io p); [done|].
  unfold os_ftruncate in H. destruct (ftruncate_fails io p); [done|].
  destruct (c && strict); [done|]. simpl in H.
  destruct ups as [|u ups]; [by destruct (os_rm _ _ _)|].
  injection H as <- <- <-. simpl.
  pose proof (replay_done _ _ _ _ _ _ _ _ _ Hrep) as [_ Hpos]. simpl in Hpos. subst pos.
  apply replay_good_prefix in Hrep.
  eapply (recover_complete _ _ _ (good_prefix chunks)); try done.
  - simpl. rewrite lookup_alter_eq, Hch. simpl. by rewrite take_good_prefix.
  - by rewrite length_fmap.
Qed.

(** A strict recovery that fails on an unreadable record has already cut
    the file back to its readable records, so a second strict recovery of
    the file does not fail (as long as its own system calls succeed). *)
Theorem failed_strict_recovery_repairs_the_file io io' (fs0 fs' : FS) :
  StatusUpdateStream.recover isTerminalState io sid p true fs0
    = Some (RError ReadFailed, fs') →
  open_fails io' p = false → lseek_fails io' p = false → ftruncate_fails io' p = false →
  rm_fails io' p = false →
  (∃ chunks, files fs0 !! p = Some chunks
             ∧ files fs' !! p = Some (Good <$> good_prefix chunks))
  ∧ ∃ r fs'',
      StatusUpdateStream.recover isTerminalState io' sid p true fs' = Some (r, fs'')
      ∧ ∀ e, r ≠ RError e.
Proof.
  intros H Hopen Hseek Htrunc Hrm. unfold StatusUpdateStream.recover in H.
  destruct (_ && _); [done|].
  unfold os_open_rdwr in H. destruct (open_fails io p); [done|].
  destruct (files fs0 !! p) as [chunks|] eqn:Hch; [|done].
  destruct (StatusUpdateStream.replay _ _ _ _ _) as [[e|s1 ups pos c]|] eqn:Hrep; [|..|done].
  { simpl in H. injection H as -> _.
    exfalso. clear -Hrep.
    assert (∀ chunks s ups pos,
              StatusUpdateStream.error s = None →
              StatusUpdateStream.replay isTerminalState chunks s ups pos
              ≠ Some (StatusUpdateStream.ReplayFailed ReadFailed)) as Hno.
    { clear. induction chunks as [|[[u|a]| |] chunks IH]; intros s ups pos He; simpl;
        try done.
      - destruct (StatusUpdateStream._handle _ u UPDATE s) as [s1|] eqn:Hh; [|done].
        simpl. apply IH. apply _handle_frame in Hh as (_ & -> & _). done.
      - unfold StatusUpdateStream.next. rewrite He.
        destruct (StatusUpdateStream.pending s); [done|].
        destruct (StatusUpdateStream._handle _ _ ACK s) as [s1|] eqn:Hh; [|done].
        simpl. apply IH. apply _handle_frame in Hh as (_ & -> & _). done. }
    by eapply (Hno chunks (StatusUpdateStream.new sid (Some p)) [] 0%nat). }
  simpl in H.
  destruct (lseek_fails io p); [done|].
  unfold os_ftruncate in H. destruct (ftruncate_fails io p); [done|].
  destruct c; simpl in H;
    [|destruct ups; [unfold os_rm in H; by destruct (rm_fails _ _)|done]].
  injection H as <-.
  pose proof (replay_done _ _ _ _ _ _ _ _ _ Hrep) as [Hups Hpos]. simpl in Hups, Hpos.
  subst pos. apply replay_good_prefix in Hrep.
  assert (files (mkFS (alter (take (length (good_prefix chunks))) p (files fs0)) (dirs fs0))
            !! p = Some (Good <$> good_prefix chunks)) as Hch'.
  { simpl. rewrite lookup_alter_eq, Hch. simpl. by rewrite take_good_prefix. }
  split; [by exists chunks|].
  destruct ups as [|u ups'] eqn:Hu.
  - (* nothing was ever recorded: the file is removed *)
    eexists _, _. split; [|].
    + unfold StatusUpdateStream.recover.
      rewrite (exists_file _ _ Hch'), andb_false_r.
      unfold os_open_rdwr. rewrite Hopen, Hch', Hrep. simpl. rewrite Hseek.
      unfold os_ftruncate. rewrite Htrunc. simpl.
      unfold os_rm. rewrite Hrm. reflexivity.
    + done.
  - eexists _, _. split.
    + eapply (recover_complete _ _ _ (good_prefix chunks));
        [exact Hch'|by rewrite length_fmap|discriminate|done..].
    + done.
Qed.

End RoundTrip.

(** * What the operations of the manager do *)

Section ManagerOperations.

Variable isTerminalState : StateValue → bool.
Variable getPath : StreamId → Path.
Variable RETRY_MIN : Duration.

(** [update] once the stream is there. *)
Lemma update_registered io u sid checkpoint m stream :
  streams m !! sid = Some stream →
  update isTerminalState getPath RETRY_MIN io u sid checkpoint m
  = if negb (eqb (StatusUpdateStream.checkpointed stream) checkpoint)
    then Some (Err MismatchedCheckpoint, m)
    else if negb (eqb (has_framework_id u)
                      (bool_decide (is_Some (StatusUpdateStream.frameworkId stream))))
    then Some (Err MismatchedFrameworkID, m)
    else if has_framework_id u
            && bool_decide (framework_id u ≠ StatusUpdateStream.frameworkId stream)
    then Some (Err MismatchedFrameworkID, m)
    else
      '(result, stream', fs') ← StatusUpdateStream.update isTerminalState io u stream (fs m);
      let m2 := put_stream sid stream' (set_fs fs' m) in
      match result with
      | Err e => Some (Err e, m2)
      | Val false => Some (Val (), m2)
      | Val true =>
          if negb (paused m2) && bool_decide (length (StatusUpdateStream.pending stream') = 1%nat)
          then
            if bool_decide (is_Some (StatusUpdateStream.timeout stream')) then None
            else
              match StatusUpdateStream.next stream' with
              | RError e => Some (Err e, m2)
              | RNone => None
              | RSome next =>
                  m3 ← forward_and_arm sid stream' next RETRY_MIN m2;
                  Some (Val (), m3)
              end
          else Some (Val (), m2)
      end.
Proof. intros Hs. unfold update. rewrite Hs. simpl. by rewrite Hs. Qed.

(** [update] forwards at most the update it is given, and only when that
    update is the only one pending on its stream and the manager is not
    paused; it then arms a timer of [RETRY_MIN] for it.  An update queued
    behind another one is not forwarded by [update]. *)
Theorem update_forwards_only_a_sole_pending_update io u sid checkpoint m r m' :
  update isTerminalState getPath RETRY_MIN io u sid checkpoint m = Some (r, m') →
  (forwarded m' = forwarded m ∧ timers m' = timers m)
  ∨ (r = Val () ∧ paused m = false
     ∧ forwarded m' = forwarded m ++ [u]
     ∧ timers m' = timers m ++ [mkTimer (clock m + RETRY_MIN)%Z sid RETRY_MIN]
     ∧ ∃ s', streams m' !! sid = Some s'
             ∧ StatusUpdateStream.pending s' = [u]
             ∧ StatusUpdateStream.timeout s' = Some (clock m + RETRY_MIN)%Z).
Proof.
  intros H. unfold update in H.
  destruct (match streams m !! sid with
            | None => createStatusUpdateStream getPath io sid (framework_id u) checkpoint m
            | Some _ => (Val (), m) end) as [create m1] eqn:Hc.
  assert (paused m1 = paused m ∧ forwarded m1 = forwarded m ∧ timers m1 = timers m
          ∧ clock m1 = clock m) as (Hp1 & Hf1 & Ht1 & Hc1).
  { destruct (streams m !! sid); [by simplify_eq|].
    apply createStatusUpdateStream_spec in Hc
      as [(e & -> & fs' & ->)|(-> & _ & _ & -> & -> & -> & ->)]; done. }
  destruct create as [e|[]]; [left; by simplify_eq|].
  destruct (streams m1 !! sid) as [stream|]; [|done]. simpl in H.
  destruct (negb (eqb _ checkpoint)); [left; by simplify_eq|].
  destruct (negb (eqb (has_framework_id u) _)); [left; by simplify_eq|].
  destruct (has_framework_id u && _); [left; by simplify_eq|].
  destruct (StatusUpdateStream.update _ io u stream (fs m1)) as [[[res s1] fs1]|] eqn:Hu; [|done].
  simpl in H.
  destruct res as [e|[|]]; [left; by simplify_eq| |left; by simplify_eq].
  destruct (paused m1) eqn:Hpaused; simpl in H; [left; by simplify_eq|].
  case_bool_decide as Hlen; [|left; by simplify_eq].
  case_bool_decide; [done|].
  apply update_cases in Hu as [(_ & He & Hh)|[(Hr & _)|(Hr & _)]]; [|done..].
  apply _handle_update_spec in Hh as (a & Ha & ->). simpl in *.
  destruct (StatusUpdateStream.pending stream) as [|h q] eqn:Hq;
    [|rewrite length_app in Hlen; simpl in Hlen; lia].
  unfold StatusUpdateStream.next in H. simpl in H. rewrite He in H. simpl in H.
  unfold forward_and_arm, forward in H. simpl in H. rewrite Hpaused in H. simpl in H.
  injection H as <- <-. right. simpl. rewrite Hp1, Hf1, Ht1, Hc1.
  split_and!; try done. eexists. rewrite lookup_insert_eq. by split_and!.
Qed.

(** [acknowledgement] forwards at most one update: the one that becomes the
    head of the queue when the head is acknowledged, and only if the
    stream did not terminate and the manager is not paused; it then arms a
    timer of [RETRY_MIN] for it. *)
Theorem acknowledgement_forwards_only_the_next_update io sid uuid m r m' :
  acknowledgement isTerminalState RETRY_MIN io sid uuid m = Some (r, m') →
  (forwarded m' = forwarded m ∧ timers m' = timers m)
  ∨ (r = Val true ∧ paused m = false
     ∧ ∃ s h n q s',
         streams m !! sid = Some s
         ∧ StatusUpdateStream.pending s = h :: n :: q
         ∧ status_uuid h = Some uuid
         ∧ forwarded m' = forwarded m ++ [n]
         ∧ timers m' = timers m ++ [mkTimer (clock m + RETRY_MIN)%Z sid RETRY_MIN]
         ∧ streams m' !! sid = Some s'
         ∧ StatusUpdateStream.pending s' = n :: q
         ∧ StatusUpdateStream.timeout s' = Some (clock m + RETRY_MIN)%Z).
Proof.
  intros H. unfold acknowledgement in H.
  destruct (streams m !! sid) as [stream|] eqn:Hs; [|left; by simplify_eq].
  destruct (StatusUpdateStream.acknowledgement _ io uuid stream (fs m))
    as [[[res s1] fs1]|] eqn:Ha; [|done].
  simpl in H.
  destruct res as [e|[|]]; [left; by simplify_eq| |left; by simplify_eq].
  apply acknowledgement_cases in Ha
    as [(_ & He & h & q & Hq & Hh & Hn & Hhandle)|[(Hr & _)|(Hr & _)]]; [|done..].
  apply _handle_ack_spec in Hhandle as (a & Ha & ->).
  unfold StatusUpdateStream.next in H. simpl in H. rewrite He, Hq in H. simpl in H.
  assert (∀ (b : bool) m2,
            forwarded m2 = forwarded m → timers m2 = timers m →
            cleanupStatusUpdateStream sid m2 ≫= (λ m3, Some (Val b, m3)) = Some (r, m') →
            forwarded m' = forwarded m ∧ timers m' = timers m) as Hcleanup.
  { intros b m2 Hf2 Ht2 Hc.
    destruct (cleanupStatusUpdateStream sid m2) as [m3|] eqn:Hc3; [|done].
    simpl in Hc. injection Hc as _ <-.
    apply cleanupStatusUpdateStream_spec in Hc3 as (? & _ & _ & _ & -> & -> & _). done. }
  destruct q as [|n q].
  - left. destruct (if StatusUpdateStream.terminated stream then true else _).
    + eapply Hcleanup; [| |exact H]; done.
    + by simplify_eq.
  - destruct (if StatusUpdateStream.terminated stream then true else _).
    + left. eapply Hcleanup; [| |exact H]; done.
    + destruct (paused m) eqn:Hpaused; simpl in H; [left; by simplify_eq|].
      unfold forward_and_arm, forward in H. simpl in H. rewrite Hpaused in H. simpl in H.
      injection H as <- <-. right. split; [done|]. split; [done|].
      eexists stream, h, n, q, _. simpl. rewrite lookup_insert_eq. by split_and!.
Qed.

(** An acknowledgement the stream does not take, for an empty queue, for a
    UUID already acknowledged or for a UUID other than the head's, is
    answered with a failure and leaves the whole manager as it was; in
    particular the retry of the head stays armed. *)
Theorem refused_acknowledgement_changes_nothing io sid uuid m s :
  streams m !! sid = Some s → StatusUpdateStream.error s = None →
  (StatusUpdateStream.pending s = [] →
   acknowledgement isTerminalState RETRY_MIN io sid uuid m = Some (Err UnexpectedAck, m))
  ∧ (∀ h q, StatusUpdateStream.pending s = h :: q →
            uuid ∈ StatusUpdateStream.acknowledged s →
            acknowledgement isTerminalState RETRY_MIN io sid uuid m = Some (Err DuplicateAck, m))
  ∧ (∀ h q b, StatusUpdateStream.pending s = h :: q → status_uuid h = Some b →
              uuid ≠ b →
              acknowledgement isTerminalState RETRY_MIN io sid uuid m = Some (Err DuplicateAck, m)).
Proof.
  intros Hs He.
  assert (∀ r, StatusUpdateStream.acknowledgement isTerminalState io uuid s (fs m)
               = Some (r, s, fs m) → r ≠ Val true →
               acknowledgement isTerminalState RETRY_MIN io sid uuid m
               = Some (match r with Err e => Err e | Val _ => Err DuplicateAck end, m))
    as Hlift.
  { intros r Ha Hr. unfold acknowledgement. rewrite Hs, Ha. simpl.
    rewrite put_stream_same by done. by destruct r as [e|[|]]. }
  split_and!.
  - intros Hq. rewrite (Hlift (Err UnexpectedAck)); [done| |done].
    unfold StatusUpdateStream.acknowledgement, StatusUpdateStream.next. by rewrite He, Hq.
  - intros h q Hq Hin. rewrite (Hlift (Val false)); [done| |done].
    unfold StatusUpdateStream.acknowledgement, StatusUpdateStream.next. rewrite He, Hq.
    by rewrite bool_decide_eq_true_2.
  - intros h q b Hq Hb Hne. rewrite (Hlift (Val false)); [done| |done].
    unfold StatusUpdateStream.acknowledgement, StatusUpdateStream.next. rewrite He, Hq.
    case_bool_decide; [done|]. rewrite Hb. simpl. by rewrite bool_decide_eq_true_2.
Qed.

(** An update for a registered stream that is refused because the
    checkpoint flag or the framework id does not match the stream, or
    because the status carries no UUID, leaves the whole manager as it was:
    no file is written, the queue and the retry of the stream stay as they
    are and nothing is forwarded. *)
Theorem refused_update_changes_nothing io u sid checkpoint m s e m' :
  streams m !! sid = Some s →
  update isTerminalState getPath RETRY_MIN io u sid checkpoint m = Some (Err e, m') →
  e = MismatchedCheckpoint ∨ e = MismatchedFrameworkID ∨ e = MissingStatusUuid →
  m' = m.
Proof.
  intros Hs Hu Hkind.
  exact (schema_error_on_registered_stream isTerminalState getPath RETRY_MIN
           io u sid checkpoint m s e m' Hs Hu Hkind).
Qed.

(** The first update for a stream id creates the stream.  When the
    creation fails the failure is returned and nothing is registered.  When
    it succeeds (and the checkpoint, if any, is written), the stream is
    registered with the update as its only pending one, its UUID received,
    and the framework id of the update; it is listed under that framework;
    unless the manager is paused the update is forwarded and a timer of
    [RETRY_MIN] armed; and the checkpoint file, if any, holds exactly the
    record of the update. *)
Theorem first_update_creates_the_stream io u a sid (checkpoint : bool) m :
  streams m !! sid = None → status_uuid u = Some a →
  let p := if checkpoint then Some (getPath sid) else None in
  match StatusUpdateStream.create io sid (framework_id u) p (fs m) with
  | (Err e, fs1) =>
      update isTerminalState getPath RETRY_MIN io u sid checkpoint m = Some (Err e, set_fs fs1 m)
  | (Val _, _) =>
      (checkpoint = true → write_outcome io (getPath sid) = WriteOk) →
      ∃ m',
        update isTerminalState getPath RETRY_MIN io u sid checkpoint m = Some (Val (), m')
        ∧ streams m' !! sid
          = Some (StatusUpdateStream.mk false (framework_id u)
                    (if paused m then None else Some (clock m + RETRY_MIN)%Z)
                    [u] sid p {[a]} ∅ None)
        ∧ (∀ j, j ≠ sid → streams m' !! j = streams m !! j)
        ∧ frameworkStreams m'
          = match framework_id u with
            | Some f => index_insert f sid (frameworkStreams m)
            | None => frameworkStreams m
            end
        ∧ forwarded m' = (if paused m then forwarded m else forwarded m ++ [u])
        ∧ timers m'
          = (if paused m then timers m
             else timers m ++ [mkTimer (clock m + RETRY_MIN)%Z sid RETRY_MIN])
        ∧ (checkpoint = true →
           files (fs m') !! getPath sid = Some [Good (RecUpdate u)])
  end.
Proof.
  intros Hs Ha p.
  destruct (StatusUpdateStream.create io sid (framework_id u) p (fs m)) as [[e|s0] fs1] eqn:Hc.
  { unfold update. rewrite Hs. unfold createStatusUpdateStream. fold p. by rewrite Hc. }
  intros Hwrite.
  pose proof (create_life _ _ _ _ _ _ _ Hc) as [(e & He & _)|[Hs0 Hfiles]]; [done|].
  injection Hs0 as ->.
  set (s0 := StatusUpdateStream.set_frameworkId (framework_id u) (StatusUpdateStream.new sid p)).
  set (m1 := match framework_id u with
             | Some f => set_frameworkStreams
                           (index_insert f sid (frameworkStreams (put_stream sid s0 (set_fs fs1 m))))
                           (put_stream sid s0 (set_fs fs1 m))
             | None => put_stream sid s0 (set_fs fs1 m)
             end).
  assert (createStatusUpdateStream getPath io sid (framework_id u) checkpoint m = (Val (), m1))
    as Hcreate.
  { unfold createStatusUpdateStream. fold p. by rewrite Hc. }
  assert (streams m1 = <[sid := s0]> (streams m) ∧ fs m1 = fs1 ∧ paused m1 = paused m
          ∧ clock m1 = clock m ∧ forwarded m1 = forwarded m ∧ timers m1 = timers m
          ∧ frameworkStreams m1 = match framework_id u with
                                  | Some f => index_insert f sid (frameworkStreams m)
                                  | None => frameworkStreams m
                                  end)
    as (Hstreams1 & Hfs1 & Hp1 & Hc1 & Hf1 & Ht1 & Hidx1).
  { unfold m1. by destruct (framework_id u). }
  assert (streams m1 !! sid = Some s0) as Hs1 by (by rewrite Hstreams1, lookup_insert_eq).
  rewrite (update_after_create isTerminalState getPath RETRY_MIN io u sid checkpoint m m1 Hs Hcreate).
  rewrite (update_registered io u sid checkpoint m1 s0 Hs1).
  assert (StatusUpdateStream.checkpointed s0 = checkpoint) as Hcp.
  { unfold StatusUpdateStream.checkpointed, p. simpl. destruct checkpoint.
    - by rewrite bool_decide_eq_true_2.
    - rewrite bool_decide_eq_false_2; [done|]. by intros [? ?]. }
  destruct (update_checks_pass u s0 checkpoint Hcp eq_refl) as (-> & -> & ->).
  rewrite (update_accepts isTerminalState io u a s0 (fs m1)); try done; try set_solver.
  2: { intros q. unfold p. simpl. destruct checkpoint; [|done]. intros [= <-]. by apply Hwrite. }
  simpl. rewrite Hp1.
  assert ((if has_framework_id u then framework_id u else framework_id u) = framework_id u)
    as -> by (by destruct (has_framework_id u)).
  assert (({[a]} ∪ ∅ : gset N) = {[a]}) as -> by set_solver.
  assert (checkpoint = true →
          files (logged s0 (RecUpdate u) (fs m1)) !! getPath sid = Some [Good (RecUpdate u)])
    as Hlog.
  { intros ->. unfold logged, p. simpl. rewrite lookup_alter_eq, Hfs1.
    unfold p in Hfiles. rewrite Hfiles, lookup_insert_eq. done. }
  destruct (paused m) eqn:Hpaused; simpl.
  - eexists. split; [done|]. simpl. rewrite Hstreams1, Hf1, Ht1.
    split_and!; try done.
    + by rewrite lookup_insert_eq.
    + intros j Hj. by rewrite !lookup_insert_ne.
  - unfold StatusUpdateStream.next, forward_and_arm, forward. simpl. rewrite Hp1.
    simpl. eexists. split; [done|]. simpl. rewrite Hstreams1, Hf1, Ht1, Hc1.
    split_and!; try done.
    + by rewrite lookup_insert_eq.
    + intros j Hj. by rewrite !lookup_insert_ne.
Qed.

(** A checkpointed first update for a stream id whose checkpoint file is
    already there is refused with "already exists" and changes nothing:
    the stream of a file left by an earlier run has to be recovered before
    it takes updates. *)
Theorem first_update_refused_when_the_file_exists io u sid m :
  streams m !! sid = None → os_exists (fs m) (getPath sid) = true →
  update isTerminalState getPath RETRY_MIN io u sid true m = Some (Err AlreadyExists, m).
Proof.
  intros Hs Hex. unfold update. rewrite Hs.
  unfold createStatusUpdateStream, StatusUpdateStream.create. rewrite Hex.
  by destruct m.
Qed.

(** A recovered stream that is not terminated is registered under its id
    and listed under its framework; unless the manager is paused the head
    of its queue, if any, is forwarded and a timer of [RETRY_MIN] armed. *)
Theorem recovered_stream_is_registered io sid strict m s st fs' :
  StatusUpdateStream.recover isTerminalState io sid (getPath sid) strict (fs m)
    = Some (RSome (s, st), fs') →
  StatusUpdateStream.terminated s = false →
  ∃ m',
    recoverStatusUpdateStream isTerminalState getPath RETRY_MIN io sid strict m
      = Some (RSome st, m')
    ∧ streams m' !! sid
      = Some (if paused m then s
              else match StatusUpdateStream.pending s with
                   | [] => s
                   | _ :: _ =>
                       StatusUpdateStream.set_timeout (Some (clock m + RETRY_MIN)%Z) s
                   end)
    ∧ (∀ f, StatusUpdateStream.frameworkId s = Some f →
            sid ∈ streams_of f (frameworkStreams m'))
    ∧ forwarded m'
      = (if paused m then forwarded m
         else forwarded m ++ option_list (head (StatusUpdateStream.pending s)))
    ∧ fs m' = fs'.
Proof.
  intros Hr Hterm.
  destruct (recover_fresh _ _ _ _ _ _ _ _ _ Hr) as (Hto & He & _).
  unfold recoverStatusUpdateStream. rewrite Hr. simpl. rewrite Hterm.
  unfold StatusUpdateStream.next. rewrite He.
  set (m2 := match StatusUpdateStream.frameworkId s with
             | Some f => _ | None => _ end).
  assert (streams m2 = streams m ∧ fs m2 = fs' ∧ paused m2 = paused m
          ∧ clock m2 = clock m ∧ forwarded m2 = forwarded m
          ∧ ∀ f, StatusUpdateStream.frameworkId s = Some f →
                 sid ∈ streams_of f (frameworkStreams m2))
    as (Hstreams2 & Hfs2 & Hp2 & Hc2 & Hf2 & Hidx2).
  { unfold m2. destruct (StatusUpdateStream.frameworkId s) as [f0|]; simpl; split_and!;
      try done.
    intros f [= <-]. rewrite streams_of_insert, decide_True by done. set_solver. }
  destruct (StatusUpdateStream.pending s) as [|n q] eqn:Hq.
  - eexists. split; [done|]. simpl. rewrite lookup_insert_eq, Hf2, Hfs2.
    split_and!; try done; destruct (paused m); by rewrite ?app_nil_r.
  - rewrite Hp2. destruct (paused m) eqn:Hpaused; simpl.
    + eexists. split; [done|]. simpl. rewrite lookup_insert_eq, Hf2, Hfs2. by split_and!.
    + unfold forward_and_arm, forward. rewrite Hp2. simpl.
      eexists. split; [done|]. simpl. rewrite lookup_insert_eq, Hf2, Hfs2, Hc2.
      by split_and!.
Qed.

End ManagerOperations.

Section TimerExpiry.

Variable isTerminalState : StateValue → bool.
Variable getPath : StreamId → Path.
Variable RETRY_MIN RETRY_MAX : Duration.

(** The [CHECK] of [timeout] holds in a reachable state unless the stream
    carries a sticky error: a stream with a pending update has its timeout
    set whenever the manager is not paused. *)
Theorem timer_expiry_passes_its_check m sid duration :
  reachable isTerminalState getPath RETRY_MIN RETRY_MAX m →
  (∀ s, streams m !! sid = Some s → StatusUpdateStream.error s = None) →
  is_Some (timeout RETRY_MAX sid duration m).
Proof.
  intros Hm He. pose proof (reachable_streams_ok _ _ _ _ m Hm) as Hok.
  unfold timeout. destruct (paused m) eqn:Hp; [by eexists|].
  destruct (streams m !! sid) as [s|] eqn:Hs; [|by eexists].
  destruct (streams_ok_lookup _ _ _ _ _ Hok Hs) as [(_ & _ & Harmed) _].
  destruct (StatusUpdateStream.pending s) as [|u q] eqn:Hq; [by eexists|].
  destruct Harmed as [d Hd]; [done|by apply He|done|].
  rewrite Hd. simpl. case_bool_decide; [|by eexists].
  unfold forward_and_arm, forward. rewrite Hp. simpl. by eexists.
Qed.

End TimerExpiry.

(** * The checkpoint file after a failed write *)

Lemma torn_tail_good records : torn_tail (Good <$> records).
Proof. exists records, []. by rewrite app_nil_r; split; [|left]. Qed.

Lemma torn_tail_torn records : torn_tail ((Good <$> records) ++ [Torn]).
Proof. exists records, [Torn]. by split; [|right]. Qed.

Lemma good_prefix_app records tail :
  good_prefix ((Good <$> records) ++ tail) = records ++ good_prefix tail.
Proof.
  induction records as [|r records IH]; [done|].
  change (r :: good_prefix ((Good <$> records) ++ tail) = r :: records ++ good_prefix tail).
  by rewrite IH.
Qed.

Lemma torn_tail_good_prefix chunks :
  torn_tail chunks →
  chunks = Good <$> good_prefix chunks ∨ chunks = (Good <$> good_prefix chunks) ++ [Torn].
Proof.
  intros (records & tail & -> & Htail). rewrite good_prefix_app.
  destruct Htail as [->| ->]; simpl; rewrite !app_nil_r; [by left|by right].
Qed.

Section CrashConsistency.

Variable isTerminalState : StateValue → bool.
Variable sid : StreamId.
Variable p : Path.

Abbreviation fresh := (StatusUpdateStream.new sid (Some p)).
Abbreviation x_replay := (StatusUpdateStream.replay isTerminalState).

(** A [torn_tail] replays like its complete records, and no record of it is
    unreadable. *)
Lemma replay_torn_tail chunks s ups pos :
  torn_tail chunks →
  x_replay chunks s ups pos
  = match x_replay (Good <$> good_prefix chunks) s ups pos with
    | Some (StatusUpdateStream.ReplayDone s1 ups1 pos1 _) =>
        Some (StatusUpdateStream.ReplayDone s1 ups1 pos1 false)
    | other => other
    end.
Proof.
  intros Htail.
  assert (∀ records, x_replay (Good <$> records) s ups pos
                     = match x_replay (Good <$> records) s ups pos with
                       | Some (StatusUpdateStream.ReplayDone s1 ups1 pos1 _) =>
                           Some (StatusUpdateStream.ReplayDone s1 ups1 pos1 false)
                       | other => other
                       end) as Hgood.
  { intros records.
    destruct (x_replay (Good <$> records) s ups pos) as [[e|s1 ups1 pos1 c]|] eqn:Hr;
      [done| |done].
    pose proof (replay_good_prefix _ _ _ _ _ _ _ _ _ Hr) as Hr'.
    rewrite good_prefix_good in Hr'. congruence. }
  destruct (torn_tail_good_prefix chunks Htail) as [Hc|Hc].
  - rewrite Hc at 1. apply Hgood.
  - rewrite Hc at 1. rewrite replay_app_good.
    by destruct (x_replay (Good <$> good_prefix chunks) s ups pos) as [[e|s1 ups1 pos1 c]|].
Qed.

Lemma in_sync_complete s acc chunks :
  in_sync isTerminalState sid p s acc chunks →
  chunks = Good <$> good_prefix chunks
  ∧ ∃ s0, x_replay (Good <$> good_prefix chunks) fresh [] 0
          = Some (StatusUpdateStream.ReplayDone s0 acc (length (good_prefix chunks)) false)
          ∧ core s = core s0.
Proof.
  intros (records & s0 & -> & Hr & Hcore). rewrite good_prefix_good.
  split; [done|]. exists s0. split; [|done]. by rewrite length_fmap in Hr.
Qed.

(** The file of a live checkpointed stream without sticky error. *)
Lemma live_file l s chunks :
  life_inv isTerminalState sid p l →
  StreamLife.live l = Some s → StatusUpdateStream.error s = None →
  is_Some (StatusUpdateStream.path s) →
  files (StreamLife.disk l) !! p = Some chunks →
  in_sync isTerminalState sid p s (StreamLife.accepted l) chunks.
Proof. intros [_ Hfiles] Hl He Hp Hch. by apply (Hfiles chunks Hch). Qed.

(** A write that fails on a file in step with its stream. *)
Lemma crash_consistent_failed_write l s fs' :
  life_inv isTerminalState sid p l →
  crash_consistent isTerminalState sid p l →
  StreamLife.live l = Some s → StatusUpdateStream.error s = None →
  StatusUpdateStream.path s = Some p →
  fs' = StreamLife.disk l
  ∨ fs' = mkFS (alter (λ f, f ++ [Torn]) p (files (StreamLife.disk l)))
               (dirs (StreamLife.disk l)) →
  crash_consistent isTerminalState sid p
    (StreamLife.mk (Some (StatusUpdateStream.set_error (Some WriteFailed) s))
       (StreamLife.accepted l) fs').
Proof.
  intros Hinv [Hshape Hcore] Hl He Hp Hfs.
  assert (∀ chunks', files fs' !! p = Some chunks' →
            ∃ chunks, files (StreamLife.disk l) !! p = Some chunks
                      ∧ (chunks' = chunks ∨ chunks' = chunks ++ [Torn])) as Hfile.
  { intros chunks' Hch'. destruct Hfs as [->| ->].
    - exists chunks'. split; [done|by left].
    - simpl in Hch'. rewrite lookup_alter_eq in Hch'.
      destruct (files (StreamLife.disk l) !! p) as [chunks|]; [|done].
      injection Hch' as <-. exists chunks. split; [done|by right]. }
  split; simpl.
  - intros chunks' Hch'. destruct (Hfile chunks' Hch') as (chunks & Hch & Hcase).
    destruct (in_sync_complete s (StreamLife.accepted l) chunks) as [Hgood _].
    { eapply live_file; [done..|by eexists|done]. }
    destruct Hcase as [->| ->]; [by apply Hshape|].
    rewrite Hgood. apply torn_tail_torn.
  - intros s' chunks' [= <-] _ _ Hch'.
    destruct (Hfile chunks' Hch') as (chunks & Hch & Hcase).
    destruct (in_sync_complete s (StreamLife.accepted l) chunks) as [Hgood (s0 & Hr & Hc)].
    { eapply live_file; [done..|by eexists|done]. }
    assert (good_prefix chunks' = good_prefix chunks) as ->.
    { destruct Hcase as [->| ->]; [done|].
      rewrite Hgood, good_prefix_app, good_prefix_good. simpl. by rewrite app_nil_r. }
    exists s0. split; [done|]. by destruct s.
Qed.

Lemma step_crash_consistent op l l' :
  life_inv isTerminalState sid p l →
  crash_consistent isTerminalState sid p l →
  StreamLife.step isTerminalState sid p op l = Some l' →
  crash_consistent isTerminalState sid p l'.
Proof.
  intros Hinv Hcc Hstep.
  pose proof (step_life_inv isTerminalState sid p op l l' Hinv Hstep) as Hinv'.
  pose proof Hinv as [Hlive Hfiles]. pose proof Hcc as [Hshape Hcore].
  (* a state that differs from [l] in nothing the property reads *)
  assert (∀ l1, StreamLife.live l1 = StreamLife.live l →
                StreamLife.accepted l1 = StreamLife.accepted l →
                StreamLife.disk l1 = StreamLife.disk l →
                crash_consistent isTerminalState sid p l1) as Hsame.
  { intros l1 H1 H2 H3. unfold crash_consistent. by rewrite H1, H2, H3. }
  (* a live stream without sticky error has its file in step *)
  assert (∀ s chunks, StreamLife.live l' = Some s → StatusUpdateStream.error s = None →
            is_Some (StatusUpdateStream.path s) →
            files (StreamLife.disk l') !! p = Some chunks → torn_tail chunks) as Hlive'.
  { intros s chunks Hs He Hp Hch.
    destruct (in_sync_complete s (StreamLife.accepted l') chunks) as [-> _];
      [by eapply live_file|].
    apply torn_tail_good. }
  destruct op as [io fid checkpoint|io u|io uuid|io strict|]; simpl in Hstep.
  - (* create *)
    destruct (StreamLife.live l) as [s|] eqn:Hl; [injection Hstep as <-; by apply Hsame|].
    destruct (StatusUpdateStream.create _ _ _ _ _) as [r fs'] eqn:Hc.
    apply create_life in Hc as [(e & -> & Hf)|[-> Hf]].
    + injection Hstep as <-. split; simpl; [|done]. rewrite Hf. apply Hshape.
    + injection Hstep as <-. split; simpl; [|by intros ? ? [= <-] [? ?]].
      destruct checkpoint.
      * rewrite Hf, lookup_insert_eq. intros ? [= <-]. apply (torn_tail_good []).
      * subst fs'. apply Hshape.
  - (* update *)
    destruct (StreamLife.live l) as [s|] eqn:Hl; [|injection Hstep as <-; by apply Hsame].
    destruct (Hlive s eq_refl) as [_ Hpath].
    destruct (StatusUpdateStream.update _ io u s (StreamLife.disk l))
      as [[[r s'] fs']|] eqn:Hu; [|done].
    simpl in Hstep. apply update_life_cases in Hu
      as [(-> & He & _ & Hh & ->)|[(Hr & -> & ->)|(-> & He & -> & p' & Hp' & Hfs)]].
    + injection Hstep as <-.
      pose proof (_handle_frame _ _ _ _ _ Hh) as (_ & He' & _ & Hpath' & _).
      split; simpl; [|intros ? ? [= <-] [? Hsome]; congruence].
      intros chunks Hch. unfold logged in Hch.
      destruct (StatusUpdateStream.path s) as [q|] eqn:Hq; [|by apply Hshape].
      eapply (Hlive' s'); simpl; [done|congruence|rewrite Hpath'; by eexists|].
      by unfold logged; rewrite Hq.
    + destruct r as [e|[|]]; [|done|]; injection Hstep as <-; by apply Hsame.
    + injection Hstep as <-. pose proof (Hpath p' Hp') as ->.
      by eapply crash_consistent_failed_write.
  - (* acknowledgement *)
    destruct (StreamLife.live l) as [s|] eqn:Hl; [|injection Hstep as <-; by apply Hsame].
    destruct (Hlive s eq_refl) as [_ Hpath].
    destruct (StatusUpdateStream.acknowledgement _ io uuid s (StreamLife.disk l))
      as [[[r s'] fs']|] eqn:Hu; [|done].
    simpl in Hstep. apply acknowledgement_life_cases in Hu
      as [(He & h & q & Hq & Hh & ->)|[(-> & ->)|(He & -> & p' & Hp' & Hfs)]].
    + injection Hstep as <-.
      pose proof (_handle_frame _ _ _ _ _ Hh) as (_ & He' & _ & Hpath' & _).
      split; simpl; [|intros ? ? [= <-] [? Hsome]; congruence].
      intros chunks Hch. unfold logged in Hch.
      destruct (StatusUpdateStream.path s) as [q'|] eqn:Hq'; [|by apply Hshape].
      eapply (Hlive' s'); simpl; [done|congruence|rewrite Hpath'; by eexists|].
      by unfold logged; rewrite Hq'.
    + injection Hstep as <-. by apply Hsame.
    + injection Hstep as <-. pose proof (Hpath p' Hp') as ->.
      by eapply crash_consistent_failed_write.
  - (* recover *)
    destruct (StatusUpdateStream.recover _ io sid p strict (StreamLife.disk l))
      as [[r fs']|] eqn:Hr; [|done].
    simpl in Hstep. pose proof Hr as Hr0. apply recover_life_cases in Hr
      as [[Hno ->]|(chunks & s1 & ups & pos & c & Hch & Hrep & Hcases)].
    { destruct r as [e| |[s st]]; [| |by destruct (Hno (s, st))]; injection Hstep as <-;
        by apply Hsame. }
    pose proof (replay_done _ _ _ _ _ _ _ _ _ Hrep) as [_ Hpos]. simpl in Hpos. subst pos.
    rewrite take_good_prefix in Hcases.
    destruct Hcases as [[-> ->]|[Hno Hfs]].
    + injection Hstep as <-. split; simpl.
      * rewrite lookup_insert_eq. intros ? [= <-]. apply torn_tail_good.
      * intros ? ? [= <-] [e He]. apply recover_fresh in Hr0 as (_ & He' & _). congruence.
    + assert (crash_consistent isTerminalState sid p
                (StreamLife.mk (StreamLife.live l) (StreamLife.accepted l) fs')) as Hgoal.
      { destruct Hfs as [->| ->]; split; simpl.
        - rewrite lookup_insert_eq. intros ? [= <-]. apply torn_tail_good.
        - rewrite lookup_insert_eq. intros s ? Hs He Hp [= <-].
          rewrite good_prefix_good. by apply Hcore.
        - by rewrite lookup_delete_eq.
        - by rewrite lookup_delete_eq. }
      destruct r as [e| |[s st]]; [| |by destruct (Hno (s, st))]; by injection Hstep as <-.
  - (* drop *)
    injection Hstep as <-. split; simpl; [apply Hshape|done].
Qed.

Lemma run_crash_consistent ops : ∀ l l',
  life_inv isTerminalState sid p l →
  crash_consistent isTerminalState sid p l →
  StreamLife.run isTerminalState sid p ops l = Some l' →
  life_inv isTerminalState sid p l' ∧ crash_consistent isTerminalState sid p l'.
Proof.
  induction ops as [|op ops IH]; intros l l' Hinv Hcc; simpl.
  - by intros [= <-].
  - destruct (StreamLife.step _ _ _ op l) as [l1|] eqn:Hstep; [|done]. simpl.
    apply IH; [by eapply step_life_inv|by eapply step_crash_consistent].
Qed.

Lemma crash_consistent_init (fs0 : FS) :
  files fs0 !! p = None →
  crash_consistent isTerminalState sid p (StreamLife.mk None [] fs0).
Proof. intros Hfs. split; simpl; [by rewrite Hfs|done]. Qed.

(** What a life that began without file leaves behind. *)
Lemma life_leaves ops fs0 l :
  files fs0 !! p = None →
  StreamLife.run isTerminalState sid p ops (StreamLife.mk None [] fs0) = Some l →
  life_inv isTerminalState sid p l ∧ crash_consistent isTerminalState sid p l.
Proof.
  intros Hfs. apply run_crash_consistent;
    [by apply life_inv_init|by apply crash_consistent_init].
Qed.

(** Recovery of a [torn_tail] whose complete records replay. *)
Lemma recover_torn_tail io strict (fs0 : FS) chunks s0 ups :
  files fs0 !! p = Some chunks → torn_tail chunks →
  x_replay (Good <$> good_prefix chunks) fresh [] 0
  = Some (StatusUpdateStream.ReplayDone s0 ups (length (good_prefix chunks)) false) →
  open_fails io p = false → lseek_fails io p = false → ftruncate_fails io p = false →
  StatusUpdateStream.recover isTerminalState io sid p strict fs0
  = match ups with
    | [] =>
        match os_rm io (mkFS (<[p := Good <$> good_prefix chunks]> (files fs0)) (dirs fs0)) p
        with
        | Err e =>
            Some (RError e, mkFS (<[p := Good <$> good_prefix chunks]> (files fs0)) (dirs fs0))
        | Val fs2 => Some (RNone, fs2)
        end
    | _ :: _ =>
        Some (RSome (s0, StatusUpdateStream.mkState ups false
                           (StatusUpdateStream.terminated s0)),
              mkFS (<[p := Good <$> good_prefix chunks]> (files fs0)) (dirs fs0))
    end.
Proof.
  intros Hch Htail Hrep Hopen Hseek Htrunc. unfold StatusUpdateStream.recover.
  rewrite (exists_file p _ _ Hch), andb_false_r.
  unfold os_open_rdwr. rewrite Hopen, Hch, (replay_torn_tail _ _ _ _ Htail), Hrep. simpl.
  rewrite Hseek. unfold os_ftruncate. rewrite Htrunc. simpl.
  assert (alter (take (length (good_prefix chunks))) p (files fs0)
          = <[p := Good <$> good_prefix chunks]> (files fs0)) as ->.
  { apply map_eq. intros q. destruct (decide (q = p)) as [->|Hne].
    - by rewrite lookup_alter_eq, lookup_insert_eq, Hch; simpl; rewrite take_good_prefix.
    - by rewrite lookup_alter_ne, lookup_insert_ne. }
  by destruct ups.
Qed.

(** Recovery gives back the stream that wrote the file, also after a write
    that failed.  Take a stream at any point of its life (created, updated,
    acknowledged, possibly recovered and dropped in between, whatever the
    outcome of the system calls, torn writes included): if it checkpoints
    and has accepted an update, and its file is still there, then
    recovering the file yields a stream with the same [terminated],
    [pending], [received] and [acknowledged], and reports exactly the
    updates the stream accepted, in order, flagging no error.  The file is
    left with its complete records: a torn record at its end, which only
    the file of a stream with a sticky error has, is cut off. *)
Theorem recovery_restores_the_stream_after_failed_writes ops fs0 l s chunks io strict :
  files fs0 !! p = None →
  StreamLife.run isTerminalState sid p ops (StreamLife.mk None [] fs0) = Some l →
  StreamLife.live l = Some s →
  StatusUpdateStream.checkpointed s = true → StreamLife.accepted l ≠ [] →
  files (StreamLife.disk l) !! p = Some chunks →
  open_fails io p = false → lseek_fails io p = false → ftruncate_fails io p = false →
  ∃ s' fs',
    StatusUpdateStream.recover isTerminalState io sid p strict (StreamLife.disk l)
    = Some (RSome (s', StatusUpdateStream.mkState (StreamLife.accepted l) false
                         (StatusUpdateStream.terminated s)),
            fs')
    ∧ StatusUpdateStream.terminated s' = StatusUpdateStream.terminated s
    ∧ StatusUpdateStream.pending s' = StatusUpdateStream.pending s
    ∧ StatusUpdateStream.received s' = StatusUpdateStream.received s
    ∧ StatusUpdateStream.acknowledged s' = StatusUpdateStream.acknowledged s
    ∧ files fs' !! p = Some (Good <$> good_prefix chunks)
    ∧ (chunks = Good <$> good_prefix chunks
       ∨ chunks = (Good <$> good_prefix chunks) ++ [Torn])
    ∧ (StatusUpdateStream.error s = None →
       chunks = Good <$> good_prefix chunks ∧ fs' = StreamLife.disk l).
Proof.
  intros Hfs0 Hrun Hlive Hcp Hacc Hch Hopen Hseek Htrunc.
  destruct (life_leaves ops fs0 l Hfs0 Hrun) as [Hinv [Hshape Hcore]].
  assert (is_Some (StatusUpdateStream.path s)) as Hpath.
  { unfold StatusUpdateStream.checkpointed in Hcp. by apply bool_decide_eq_true in Hcp. }
  assert (∃ s0, x_replay (Good <$> good_prefix chunks) fresh [] 0
                = Some (StatusUpdateStream.ReplayDone s0 (StreamLife.accepted l)
                          (length (good_prefix chunks)) false)
                ∧ core s = core s0
                ∧ (StatusUpdateStream.error s = None → chunks = Good <$> good_prefix chunks))
    as (s0 & Hrep & Hc & Hgood).
  { destruct (StatusUpdateStream.error s) as [e|] eqn:He.
    - destruct (Hcore s chunks Hlive) as (s0 & Hrep & Hc); [by rewrite He|done..|].
      by exists s0.
    - destruct (in_sync_complete s (StreamLife.accepted l) chunks) as [Hg (s0 & Hrep & Hc)];
        [by eapply live_file|].
      by exists s0. }
  unfold core in Hc. injection Hc as Ht Hq Hr Ha.
  exists s0. eexists.
  rewrite (recover_torn_tail io strict _ chunks s0 (StreamLife.accepted l));
    [|done|by apply Hshape|done..].
  destruct (StreamLife.accepted l) as [|u ups]; [done|].
  rewrite Ht. split_and!; try done.
  - simpl. by rewrite lookup_insert_eq.
  - apply torn_tail_good_prefix. by apply Hshape.
  - intros He. split; [by apply Hgood|].
    rewrite <- (Hgood He). rewrite insert_id by done. by destruct (StreamLife.disk l).
Qed.

(** Recovery accepts every file the stream wrote.  Whatever happened to a
    stream and its file (failed and torn writes included), recovering the
    file, if it is there and the system calls of the recovery succeed,
    fails no [CHECK] and returns no error, in either mode. *)
Theorem recovery_accepts_the_files_of_the_stream ops fs0 l io strict :
  files fs0 !! p = None →
  StreamLife.run isTerminalState sid p ops (StreamLife.mk None [] fs0) = Some l →
  is_Some (files (StreamLife.disk l) !! p) →
  open_fails io p = false → lseek_fails io p = false → ftruncate_fails io p = false →
  rm_fails io p = false →
  ∃ r fs',
    StatusUpdateStream.recover isTerminalState io sid p strict (StreamLife.disk l)
    = Some (r, fs')
    ∧ ∀ e, r ≠ RError e.
Proof.
  intros Hfs0 Hrun [chunks Hch] Hopen Hseek Htrunc Hrm.
  destruct (life_leaves ops fs0 l Hfs0 Hrun) as [[_ Hfiles] [Hshape _]].
  destruct (Hfiles chunks Hch) as [(s0 & ups & pos & c & Hrep & _) _].
  pose proof (replay_done _ _ _ _ _ _ _ _ _ Hrep) as [_ Hpos]. simpl in Hpos. subst pos.
  apply replay_good_prefix in Hrep.
  rewrite (recover_torn_tail io strict _ chunks s0 ups); [|done|by apply Hshape|done..].
  destruct ups as [|u ups].
  - unfold os_rm. rewrite Hrm. by eexists _, _.
  - by eexists _, _.
Qed.

End CrashConsistency.

(** * Recovery when the actor starts *)




Section StartUp.

Variable isTerminalState : StateValue → bool.
Variable getPath : StreamId → Path.
Variable RETRY_MIN : Duration.

(** The invariant of the manager, with nothing asked of the timers. *)
Abbreviation sound m := (inv (λ _, True) m).








End StartUp.

(** * The log only grows *)

Section AppendOnly.

Variable isTerminalState : StateValue → bool.

(** The files after [handle]. *)
Lemma handle_files io u type s (fs0 : FS) r s' fs' :
  StatusUpdateStream.handle isTerminalState io u type s fs0 = Some (r, s', fs') →
  (r = Val ()
   ∧ fs' = logged s match type with
                    | UPDATE => RecUpdate u
                    | ACK => RecAck (status_uuid u)
                    end fs0)
  ∨ (∃ e p, r = Err e ∧ StatusUpdateStream.path s = Some p
            ∧ (fs' = fs0
               ∨ fs' = mkFS (alter (λ f, f ++ [Torn]) p (files fs0)) (dirs fs0))).
Proof.
  unfold StatusUpdateStream.handle, logged. case_bool_decide; [done|].
  destruct (StatusUpdateStream.path s) as [p|].
  - unfold protobuf_write. destruct (write_outcome io p) as [|torn].
    + destruct (StatusUpdateStream._handle _ _ _ _); [|done]. simpl.
      intros [= <- _ <-]. by left.
    + intros [= <- _ <-]. right. exists WriteFailed, p. split; [done|]. split; [done|].
      destruct torn; [by right|by left].
  - destruct (StatusUpdateStream._handle _ _ _ _); [|done]. simpl.
    intros [= <- _ <-]. by left.
Qed.

(** How a file of the stream can differ after an operation that wrote
    [record], or tried to. *)
Lemma log_after (A : Type) (s : StatusUpdateStream.t) (fs0 fs' : FS) record (r : Try A) :
  (∃ a, r = Val a ∧ fs' = logged s record fs0)
  ∨ (∃ e, r = Err e ∧ fs' = fs0)
  ∨ (∃ e p, r = Err e ∧ StatusUpdateStream.path s = Some p
            ∧ fs' = mkFS (alter (λ f, f ++ [Torn]) p (files fs0)) (dirs fs0)) →
  dirs fs' = dirs fs0
  ∧ (∀ q, StatusUpdateStream.path s ≠ Some q → files fs' !! q = files fs0 !! q)
  ∧ ∀ q chunks,
      StatusUpdateStream.path s = Some q → files fs0 !! q = Some chunks →
      match r with
      | Val _ => files fs' !! q = Some (chunks ++ [Good record])
      | Err _ => files fs' !! q = Some chunks ∨ files fs' !! q = Some (chunks ++ [Torn])
      end.
Proof.
  intros [(a & -> & ->)|[(e & -> & ->)|(e & p & -> & Hp & ->)]].
  - unfold logged. destruct (StatusUpdateStream.path s) as [p|]; simpl; split_and!; try done.
    + intros q Hq. rewrite lookup_alter_ne; [done|]. by intros ->.
    + intros q chunks [= ->] Hch. by rewrite lookup_alter_eq, Hch.
  - split_and!; try done. intros q chunks _ Hch. by left.
  - simpl. split_and!; try done.
    + intros q Hq. rewrite lookup_alter_ne; [done|]. intros ->. by apply Hq.
    + intros q chunks Hq Hch. rewrite Hp in Hq. injection Hq as ->.
      right. by rewrite lookup_alter_eq, Hch.
Qed.

(** The stream's [update] and [acknowledgement] touch no file but the
    stream's own, and that one only at its end: an accepted update appends
    its UPDATE record, a taken acknowledgement appends its ACK record, a
    failure appends nothing or (when it is a write that failed) the start
    of a record, and a duplicate leaves all files as they are.  A stream
    that does not checkpoint changes no file. *)
Theorem operations_only_append_to_the_log io s (fs0 : FS) :
  (∀ u r s' fs',
     StatusUpdateStream.update isTerminalState io u s fs0 = Some (r, s', fs') →
     dirs fs' = dirs fs0
     ∧ (∀ q, StatusUpdateStream.path s ≠ Some q → files fs' !! q = files fs0 !! q)
     ∧ ∀ q chunks,
         StatusUpdateStream.path s = Some q → files fs0 !! q = Some chunks →
         match r with
         | Val true => files fs' !! q = Some (chunks ++ [Good (RecUpdate u)])
         | Val false => files fs' !! q = Some chunks
         | Err _ =>
             files fs' !! q = Some chunks ∨ files fs' !! q = Some (chunks ++ [Torn])
         end)
  ∧ (∀ uuid r s' fs',
       StatusUpdateStream.acknowledgement isTerminalState io uuid s fs0 = Some (r, s', fs') →
       dirs fs' = dirs fs0
       ∧ (∀ q, StatusUpdateStream.path s ≠ Some q → files fs' !! q = files fs0 !! q)
       ∧ ∀ q chunks,
           StatusUpdateStream.path s = Some q → files fs0 !! q = Some chunks →
           match r with
           | Val true => files fs' !! q = Some (chunks ++ [Good (RecAck (Some uuid))])
           | Val false => files fs' !! q = Some chunks
           | Err _ =>
               files fs' !! q = Some chunks ∨ files fs' !! q = Some (chunks ++ [Torn])
           end).
Proof.
  assert (∀ (r : Try bool) fs' record,
            (∃ e, r = Err e ∧ fs' = fs0) ∨ (r = Val false ∧ fs' = fs0)
            ∨ (∃ (h : Try unit),
                 r = match h with Err e => Err e | Val _ => Val true end
                 ∧ ((h = Val () ∧ fs' = logged s record fs0)
                    ∨ (∃ e p, h = Err e ∧ StatusUpdateStream.path s = Some p
                              ∧ (fs' = fs0
                                 ∨ fs' = mkFS (alter (λ f, f ++ [Torn]) p (files fs0))
                                              (dirs fs0))))) →
            dirs fs' = dirs fs0
            ∧ (∀ q, StatusUpdateStream.path s ≠ Some q → files fs' !! q = files fs0 !! q)
            ∧ ∀ q chunks,
                StatusUpdateStream.path s = Some q → files fs0 !! q = Some chunks →
                match r with
                | Val true => files fs' !! q = Some (chunks ++ [Good record])
                | Val false => files fs' !! q = Some chunks
                | Err _ =>
                    files fs' !! q = Some chunks
                    ∨ files fs' !! q = Some (chunks ++ [Torn])
                end) as Houtcome.
  { intros r fs' record [(e & -> & ->)|[(-> & ->)|(h & -> & Hh)]].
    - apply (log_after bool s fs0 fs0 record (Err e)). right. left. by exists e.
    - split_and!; done.
    - destruct Hh as [(-> & ->)|(e & p & -> & Hp & [->| ->])].
      + apply (log_after bool s fs0 _ record (Val true)). left. by exists true.
      + apply (log_after bool s fs0 fs0 record (Err e)). right. left. by exists e.
      + apply (log_after bool s fs0 _ record (Err e)). right. right. by exists e, p. }
  split.
  - intros u r s' fs' H. apply Houtcome. unfold StatusUpdateStream.update in H.
    destruct (StatusUpdateStream.error s) as [e|]; [left; exists e; by simplify_eq|].
    destruct (status_uuid u) as [a|]; [|left; eexists; by simplify_eq].
    case_bool_decide; [right; left; by simplify_eq|].
    case_bool_decide; [right; left; by simplify_eq|].
    destruct (StatusUpdateStream.handle _ io u UPDATE s fs0) as [[[h s1] fs1]|] eqn:Hh; [|done].
    simpl in H. right. right. exists h.
    apply handle_files in Hh.
    destruct h as [e|[]]; injection H as <- _ <-; (split; [done|]); exact Hh.
  - intros uuid r s' fs' H. apply Houtcome.
    unfold StatusUpdateStream.acknowledgement, StatusUpdateStream.next in H.
    destruct (StatusUpdateStream.error s) as [e|]; [left; exists e; by simplify_eq|].
    destruct (StatusUpdateStream.pending s) as [|h q]; [left; eexists; by simplify_eq|].
    case_bool_decide; [right; left; by simplify_eq|].
    destruct (status_uuid h) as [b|] eqn:Hb; [|done]. simpl in H.
    case_bool_decide as Hne; [right; left; by simplify_eq|].
    subst b.
    destruct (StatusUpdateStream.handle _ io h ACK s fs0) as [[[hr s1] fs1]|] eqn:Hh; [|done].
    simpl in H. right. right. exists hr.
    apply handle_files in Hh. rewrite Hb in Hh.
    destruct hr as [e|[]]; injection H as <- _ <-; (split; [done|]); exact Hh.
Qed.

End AppendOnly.

(** * The properties on the concrete runs *)

Section Witnesses.

Import StatusUpdateManagerProcess Example.

Lemma m_run_reachable es m :
  run isTerminalState getPath RETRY_MIN RETRY_MAX es (init 0 fs0) = Some m →
  reachable isTerminalState getPath RETRY_MIN RETRY_MAX m.
Proof. apply run_reachable. constructor. Qed.

(** ** One stream: updates, a duplicate, an acknowledgement, a failed write
    and a recovery *)

Lemma received_acknowledged_pending_agree_witness :
  StreamLife.uuids (StatusUpdateStream.pending life_stream) = [2%N; 3%N]
  ∧ StatusUpdateStream.acknowledged life_stream ⊆ StatusUpdateStream.received life_stream
  ∧ StreamLife.uuids (StatusUpdateStream.pending life_stream)
    = filter (λ a, a ∉ StatusUpdateStream.acknowledged life_stream)
             (StreamLife.uuids (StreamLife.accepted life_end)).
Proof.
  split; [vm_compute; reflexivity|].
  destruct (received_acknowledged_pending_agree isTerminalState 1%nat (getPath 1)
              life_ops fs0 life_end life_stream)
    as (Hsub & _ & Horder & _).
  - vm_compute. reflexivity.
  - vm_compute. reflexivity.
  - vm_compute. reflexivity.
  - split; [exact Hsub|exact Horder].
Defined.

(** ** An acknowledgement that is not for the head *)

Lemma acknowledgement_mutates_only_on_head_witness :
  StatusUpdateStream.acknowledgement isTerminalState io_ok 8%N s_one_pending fs0
    = Some (Val false, s_one_pending, fs0)
  ∧ StatusUpdateStream.acknowledgement isTerminalState io_ok 7%N
      (StatusUpdateStream.new 1 None) fs0
    = Some (Err UnexpectedAck, StatusUpdateStream.new 1 None, fs0).
Proof.
  split.
  - refine (proj1 (proj2 (proj2
      (acknowledgement_mutates_only_on_head isTerminalState io_ok 8%N s_one_pending fs0 _)))
      _ _ 7%N _ _ _); [reflexivity | reflexivity | reflexivity | lia].
  - refine (proj1
      (acknowledgement_mutates_only_on_head isTerminalState io_ok 7%N
         (StatusUpdateStream.new 1 None) fs0 _) _); reflexivity.
Defined.

(** ** Duplicates *)


(** ** A failed checkpoint *)

Lemma checkpoint_failure_is_sticky_witness :
  let s1 := StatusUpdateStream.set_error (Some WriteFailed) (stream_of 1 m_one) in
  (∃ fs',
     StatusUpdateStream.update isTerminalState (io_write_fails true) uB
       (stream_of 1 m_one) (fs m_one) = Some (Err WriteFailed, s1, fs')
     ∧ update isTerminalState getPath RETRY_MIN (io_write_fails true) uB 1 true m_one
       = Some (Err WriteFailed, put_stream 1 s1 (set_fs fs' m_one)))
  ∧ (∃ fs',
       StatusUpdateStream.acknowledgement isTerminalState (io_write_fails false) 1%N
         (stream_of 1 m_one) (fs m_one) = Some (Err WriteFailed, s1, fs')
       ∧ acknowledgement isTerminalState RETRY_MIN (io_write_fails false) 1 1%N m_one
         = Some (Err WriteFailed, put_stream 1 s1 (set_fs fs' m_one)))
  ∧ StatusUpdateStream.pending s1 = [uA]
  ∧ StatusUpdateStream.next s1 = RError WriteFailed.
Proof.
  intros s1.
  destruct (checkpoint_failure_is_sticky isTerminalState getPath RETRY_MIN
              (io_write_fails true) uB 2%N 1%N uA [] 1%nat m_one (stream_of 1 m_one)
              (getPath 1) true)
    as (Hupdate & _ & _ & _ & _ & Hnext & _);
    [vm_compute; reflexivity..|].
  destruct (checkpoint_failure_is_sticky isTerminalState getPath RETRY_MIN
              (io_write_fails false) uB 2%N 1%N uA [] 1%nat m_one (stream_of 1 m_one)
              (getPath 1) false)
    as (_ & Hack & _);
    [vm_compute; reflexivity..|].
  split; [|split; [|split]].
  - apply Hupdate; [reflexivity|vm_compute; set_solver..].
  - apply Hack; [reflexivity|reflexivity|vm_compute; set_solver].
  - vm_compute. reflexivity.
  - exact Hnext.
Defined.

(** ** A terminal acknowledgement *)

Lemma terminal_acknowledgement_removes_stream_witness :
  (∃ m',
     acknowledgement isTerminalState RETRY_MIN io_ok 1 3%N m_terminal = Some (Val false, m')
     ∧ streams m' !! 1%nat = None
     ∧ (1%nat ∉ streams_of "F" (frameworkStreams m'))
     ∧ acknowledgement isTerminalState RETRY_MIN io_ok 1 3%N m' = Some (Err CannotFindStream, m'))
  ∧ (∃ m',
       acknowledgement isTerminalState RETRY_MIN io_ok 2 1%N m_terminal = Some (Val true, m')
       ∧ is_Some (streams m' !! 2%nat)).
Proof.
  split.
  - destruct (terminal_acknowledgement_removes_stream isTerminalState getPath
                RETRY_MIN RETRY_MAX io_ok m_terminal 1%nat (stream_of 1 m_terminal) uC [] 3%N)
      as (m' & Hack & Hterminal & _).
    + apply m_run_reachable with (es := [EUpdate io_ok uC 1 true; EUpdate io_ok uA 2 false]).
      vm_compute. reflexivity.
    + vm_compute. reflexivity.
    + reflexivity.
    + vm_compute. reflexivity.
    + reflexivity.
    + vm_compute. set_solver.
    + reflexivity.
    + destruct (Hterminal eq_refl) as (Hgone & Hindex & Hlater).
      exists m'. split; [exact Hack|]. split; [exact Hgone|].
      split; [apply Hindex; vm_compute; reflexivity|apply Hlater].
  - destruct (terminal_acknowledgement_removes_stream isTerminalState getPath
                RETRY_MIN RETRY_MAX io_ok m_terminal 2%nat (stream_of 2 m_terminal) uA [] 1%N)
      as (m' & Hack & _ & Hopen).
    + apply m_run_reachable with (es := [EUpdate io_ok uC 1 true; EUpdate io_ok uA 2 false]).
      vm_compute. reflexivity.
    + vm_compute. reflexivity.
    + reflexivity.
    + vm_compute. reflexivity.
    + reflexivity.
    + vm_compute. set_solver.
    + vm_compute. congruence.
    + exists m'. split; [exact Hack|]. apply Hopen. reflexivity.
Defined.

(** ** Recovery *)



(** ** Retries *)

Lemma retry_schedule_bounded_backoff_witness :
  forwarded m_backoff = [uA; uA; uA]
  ∧ timer_duration <$> timers m_backoff = [4 * RETRY_MIN]%Z
  ∧ Forall (λ timer, (timer_duration timer ≤ RETRY_MAX)%Z) (timers m_backoff)
  ∧ ∃ m', timeout RETRY_MAX 1 RETRY_MIN m_due = Some m'
          ∧ forwarded m' = forwarded m_due ++ [uA]
          ∧ timers m' = timers m_due
                        ++ [mkTimer (clock m_due + 2 * RETRY_MIN) 1 (2 * RETRY_MIN)].
Proof.
  destruct (retry_schedule_bounded_backoff isTerminalState getPath RETRY_MIN RETRY_MAX)
    as (_ & Hexpiry & _ & Hbound).
  { unfold RETRY_MIN, RETRY_MAX. lia. }
  split; [vm_compute; reflexivity|]. split; [vm_compute; reflexivity|]. split.
  - apply Hbound.
    apply m_run_reachable with
      (es := [EUpdate io_ok uA 1 false; ETick RETRY_MIN; EDeliver 0;
              ETick (2 * RETRY_MIN); EDeliver 0]).
    vm_compute. reflexivity.
  - destruct (Hexpiry 1%nat RETRY_MIN m_due (stream_of 1 m_due) uA [] RETRY_MIN)
      as (m' & Hm' & Hforwarded & Htimers & _);
      [vm_compute; reflexivity..| |].
    + vm_compute. discriminate.
    + exists m'. split; [exact Hm'|]. split; [exact Hforwarded|exact Htimers].
Defined.

(** ** Pausing *)

Lemma timeout_set_while_pending_witness :
  is_Some (StatusUpdateStream.timeout (stream_of 1 m_one))
  ∧ is_Some (StatusUpdateStream.timeout (stream_of 1 m_paused)).
Proof.
  destruct (timeout_set_while_pending isTerminalState getPath RETRY_MIN RETRY_MAX
              m_one 1%nat (stream_of 1 m_one))
    as (_ & Harmed & Hpause).
  - apply m_run_reachable with (es := [EUpdate io_ok uA 1 true]). vm_compute. reflexivity.
  - vm_compute. reflexivity.
  - split.
    + apply Harmed; [vm_compute; discriminate|reflexivity|reflexivity].
    + unfold m_paused, stream_of. rewrite Hpause.
      apply Harmed; [vm_compute; discriminate|reflexivity|reflexivity].
Defined.

(** [C8] as stated fails right after [pause()]: the stream has a pending
    update and a timeout, and the manager is paused. *)
Lemma pause_keeps_timeout_counterexample :
  reachable isTerminalState getPath RETRY_MIN RETRY_MAX m_paused
  ∧ streams m_paused !! 1%nat = Some (stream_of 1 m_paused)
  ∧ paused m_paused = true
  ∧ StatusUpdateStream.pending (stream_of 1 m_paused) = [uA]
  ∧ StatusUpdateStream.timeout (stream_of 1 m_paused) = Some RETRY_MIN
  ∧ ¬ (is_Some (StatusUpdateStream.timeout (stream_of 1 m_paused))
       ↔ StatusUpdateStream.pending (stream_of 1 m_paused) ≠ []
         ∧ paused m_paused = false
         ∧ StatusUpdateStream.error (stream_of 1 m_paused) = None).
Proof.
  split_and!.
  - apply m_run_reachable with (es := [EUpdate io_ok uA 1 true; EPause]).
    vm_compute. reflexivity.
  - vm_compute. reflexivity.
  - reflexivity.
  - vm_compute. reflexivity.
  - vm_compute. reflexivity.
  - intros [H _]. destruct H as (_ & Hp & _); [by eexists|]. discriminate Hp.
Qed.

(** A timeout also outlives a failed checkpoint: the acknowledgement that
    sets the sticky error returns before it touches the timeout. *)
Lemma sticky_error_keeps_timeout :
  reachable isTerminalState getPath RETRY_MIN RETRY_MAX m_sticky
  ∧ paused m_sticky = false
  ∧ StatusUpdateStream.pending (stream_of 1 m_sticky) = [uA]
  ∧ StatusUpdateStream.error (stream_of 1 m_sticky) = Some WriteFailed
  ∧ StatusUpdateStream.timeout (stream_of 1 m_sticky) = Some RETRY_MIN.
Proof.
  split_and!; try (vm_compute; reflexivity).
  apply m_run_reachable with
    (es := [EUpdate io_ok uA 1 true; EAcknowledgement (io_write_fails false) 1 1%N]).
  vm_compute. reflexivity.
Qed.

(** ** An update without [status_uuid] *)

(** [C7] fails on the code: the first update for a stream id is refused for
    its missing [status_uuid] only after the stream was created, and the
    stream stays registered, listed under its framework, with its checkpoint
    file on disk. *)
Lemma update_without_uuid_registers_stream :
  ∃ m',
    update isTerminalState getPath RETRY_MIN io_ok u_no_uuid 1 true (init 0 fs0)
      = Some (Err MissingStatusUuid, m')
    ∧ streams (init 0 fs0) !! 1%nat = None
    ∧ streams m' !! 1%nat
      = Some (StatusUpdateStream.set_frameworkId (Some "F")
                (StatusUpdateStream.new 1 (Some (getPath 1))))
    ∧ 1%nat ∈ streams_of "F" (frameworkStreams m')
    ∧ files (fs m') !! getPath 1 = Some []
    ∧ m' ≠ init 0 fs0.
Proof.
  eexists. split; [vm_compute; reflexivity|].
  split_and!; try (vm_compute; reflexivity).
  intros H. apply (f_equal streams) in H. apply (f_equal (λ M, M !! 1%nat)) in H.
  vm_compute in H. discriminate H.
Qed.

(** ** Further runs *)

Lemma registered_streams_well_kept_witness :
  StatusUpdateStream.streamId (stream_of 1 m_one) = 1%nat
  ∧ StatusUpdateStream.path (stream_of 1 m_one) = Some (getPath 1)
  ∧ StatusUpdateStream.acknowledged (stream_of 1 m_one)
    ⊆ StatusUpdateStream.received (stream_of 1 m_one).
Proof.
  destruct (registered_streams_well_kept isTerminalState getPath RETRY_MIN RETRY_MAX
              m_one 1%nat (stream_of 1 m_one))
    as (Hid & Hpath & _ & Hsub).
  - apply m_run_reachable with (es := [EUpdate io_ok uA 1 true]). vm_compute. reflexivity.
  - vm_compute. reflexivity.
  - split; [exact Hid|]. split; [|exact Hsub]. apply Hpath. vm_compute. reflexivity.
Defined.


Lemma acknowledgement_passes_its_checks_witness :
  is_Some (acknowledgement isTerminalState RETRY_MIN io_ok 1 3%N m_terminal)
  ∧ is_Some (acknowledgement isTerminalState RETRY_MIN (io_write_fails false) 1 1%N m_queue).
Proof.
  split.
  - apply (acknowledgement_passes_its_checks isTerminalState getPath RETRY_MIN RETRY_MAX
             m_terminal).
    apply m_run_reachable with (es := [EUpdate io_ok uC 1 true; EUpdate io_ok uA 2 false]).
    vm_compute. reflexivity.
  - apply (acknowledgement_passes_its_checks isTerminalState getPath RETRY_MIN RETRY_MAX
             m_queue).
    apply m_run_reachable with
      (es := [EUpdate io_ok uA 1 false; EUpdate io_ok uB 1 false]).
    vm_compute. reflexivity.
Defined.

Lemma paused_manager_forwards_nothing_witness :
  ∃ m',
    step isTerminalState getPath RETRY_MIN RETRY_MAX (EUpdate io_ok uG 3 false) m_paused
      = Some m'
    ∧ paused m' = true ∧ forwarded m' = [uA]
    ∧ timers m' `sublist_of` timers m_paused.
Proof.
  eexists. split; [vm_compute; reflexivity|].
  destruct (paused_manager_forwards_nothing isTerminalState getPath RETRY_MIN RETRY_MAX
              (EUpdate io_ok uG 3 false) m_paused
              (default m_paused
                 (step isTerminalState getPath RETRY_MIN RETRY_MAX
                    (EUpdate io_ok uG 3 false) m_paused)))
    as (Hp & Hf & Ht).
  - reflexivity.
  - discriminate.
  - vm_compute. reflexivity.
  - split; [exact Hp|]. split; [exact Hf|exact Ht].
Defined.

Lemma frameworkStreams_lists_registered_streams_witness :
  (2%nat ∈ streams_of "F" (frameworkStreams (m_run (take 4 es_recover_first)))
   ↔ ∃ s, streams (m_run (take 4 es_recover_first)) !! 2%nat = Some s
          ∧ StatusUpdateStream.frameworkId s = Some "F")
  ∧ (1%nat ∈ streams_of "F" (frameworkStreams (m_run (take 4 es_recover_first)))
     ↔ ∃ s, streams (m_run (take 4 es_recover_first)) !! 1%nat = Some s
            ∧ StatusUpdateStream.frameworkId s = Some "F").
Proof.
  assert (recovers_fresh isTerminalState getPath RETRY_MIN RETRY_MAX
            (take 4 es_recover_first) (init 0 fs0)) as Hfresh.
  { simpl. split; [exact I|]. intros m1 [= <-].
    split.
    { split; [|repeat constructor].
      apply NoDup_cons. split; [|apply NoDup_singleton].
      intros Hin. apply list_elem_of_singleton in Hin. discriminate Hin. }
    intros m2 H2. vm_compute in H2. injection H2 as <-.
    split; [exact I|]. intros m3 H3. vm_compute in H3. injection H3 as <-.
    split; [exact I|]. intros m4 _. exact I. }
  assert (run isTerminalState getPath RETRY_MIN RETRY_MAX (take 4 es_recover_first)
            (init 0 fs0) = Some (m_run (take 4 es_recover_first))) as Hrun.
  { vm_compute. reflexivity. }
  split.
  - exact (frameworkStreams_lists_registered_streams isTerminalState getPath
             RETRY_MIN RETRY_MAX _ 0%Z fs0 _ Hfresh Hrun "F" 2%nat).
  - exact (frameworkStreams_lists_registered_streams isTerminalState getPath
             RETRY_MIN RETRY_MAX _ 0%Z fs0 _ Hfresh Hrun "F" 1%nat).
Defined.

Lemma cleanup_closes_the_streams_of_a_framework_witness :
  ∃ m',
    cleanup "F" m_two_frameworks = Some m'
    ∧ streams m' !! 1%nat = None ∧ streams m' !! 2%nat = None
    ∧ streams m' !! 3%nat = streams m_two_frameworks !! 3%nat
    ∧ streams_of "F" (frameworkStreams m') = ∅
    ∧ streams_of "G" (frameworkStreams m') = {[3%nat]}
    ∧ timers m' = timers m_two_frameworks.
Proof.
  destruct (cleanup_closes_the_streams_of_a_framework "F" m_two_frameworks)
    as (m' & Hm' & Hstreams & Hgone & Hothers & Htimers & _).
  { intros sid Hsid.
    assert (streams_of "F" (frameworkStreams m_two_frameworks) = {[1%nat; 2%nat]}) as Hof
      by (vm_compute; reflexivity).
    rewrite Hof in Hsid.
    apply elem_of_union in Hsid as [->%elem_of_singleton| ->%elem_of_singleton];
      eexists; (split; [vm_compute; reflexivity|reflexivity]). }
  exists m'. split; [exact Hm'|].
  assert (streams_of "F" (frameworkStreams m_two_frameworks) = {[1%nat; 2%nat]}) as Hof
    by (vm_compute; reflexivity).
  split_and!.
  - rewrite Hstreams, Hof. rewrite decide_True; [reflexivity|]. set_solver.
  - rewrite Hstreams, Hof. rewrite decide_True; [reflexivity|]. set_solver.
  - rewrite Hstreams, Hof. rewrite decide_False; [reflexivity|]. set_solver.
  - exact Hgone.
  - rewrite Hothers; [vm_compute; reflexivity|discriminate].
  - exact Htimers.
Defined.

Lemma pending_update_has_a_retry_scheduled_witness :
  ∃ d timer,
    StatusUpdateStream.timeout (stream_of 1 m_backoff) = Some d
    ∧ timer ∈ timers m_backoff ∧ due timer = d ∧ timer_stream timer = 1%nat.
Proof.
  apply (pending_update_has_a_retry_scheduled isTerminalState getPath RETRY_MIN RETRY_MAX
           m_backoff 1%nat (stream_of 1 m_backoff)).
  - apply m_run_reachable with
      (es := [EUpdate io_ok uA 1 false; ETick RETRY_MIN; EDeliver 0;
              ETick (2 * RETRY_MIN); EDeliver 0]).
    vm_compute. reflexivity.
  - reflexivity.
  - vm_compute. reflexivity.
  - reflexivity.
  - vm_compute. discriminate.
Defined.

Lemma recover_reports_streams_and_errors_witness :
  (∃ st m',
     recover isTerminalState getPath RETRY_MIN io_ok [1%nat; 2%nat] false
       (m_run [EFiles fs_corrupt]) = Some (Val st, m')
     ∧ dom (state_streams st) ⊆ list_to_set [1%nat; 2%nat]
     ∧ (errors st ≤ 2)%nat)
  ∧ ∃ e m',
      recover isTerminalState getPath RETRY_MIN io_ok [1%nat; 2%nat] true
        (m_run [EFiles fs_corrupt]) = Some (Err e, m')
      ∧ streams m' = ∅ ∧ frameworkStreams m' = ∅.
Proof.
  split.
  - eexists _, _. split; [vm_compute; reflexivity|].
    pose proof (recover_reports_streams_and_errors isTerminalState getPath RETRY_MIN
                  io_ok [1%nat; 2%nat] false (m_run [EFiles fs_corrupt]) _ _ eq_refl)
      as (Hdom & Herr & _).
    split; [exact Hdom|exact Herr].
  - eexists _, _. split; [vm_compute; reflexivity|].
    pose proof (recover_reports_streams_and_errors isTerminalState getPath RETRY_MIN
                  io_ok [1%nat; 2%nat] true (m_run [EFiles fs_corrupt]) _ _ eq_refl)
      as (_ & _ & Hs & Hf).
    split; [exact Hs|exact Hf].
Defined.

Lemma recovery_restores_the_stream_after_failed_writes_witness :
  StatusUpdateStream.error life_torn_stream = Some WriteFailed
  ∧ files (StreamLife.disk life_torn) !! getPath 1 = Some [Good (RecUpdate uA); Torn]
  ∧ ∃ s' fs',
      StatusUpdateStream.recover isTerminalState io_ok 1 (getPath 1) true
        (StreamLife.disk life_torn)
      = Some (RSome (s', StatusUpdateStream.mkState (StreamLife.accepted life_torn) false
                           (StatusUpdateStream.terminated life_torn_stream)),
              fs')
      ∧ StatusUpdateStream.pending s' = [uA]
      ∧ files fs' !! getPath 1 = Some [Good (RecUpdate uA)].
Proof.
  split; [vm_compute; reflexivity|]. split; [vm_compute; reflexivity|].
  destruct (recovery_restores_the_stream_after_failed_writes isTerminalState 1%nat
              (getPath 1) life_torn_ops fs0 life_torn life_torn_stream
              [Good (RecUpdate uA); Torn] io_ok true)
    as (s' & fs' & Hrecover & _ & Hpending & _ & _ & Hfile & _);
    [vm_compute; reflexivity..| | | | | |].
  - vm_compute. discriminate.
  - vm_compute. reflexivity.
  - reflexivity.
  - reflexivity.
  - reflexivity.
  - exists s', fs'. split; [exact Hrecover|]. split; [|exact Hfile].
    rewrite Hpending. vm_compute. reflexivity.
Defined.

Lemma recovery_accepts_the_files_of_the_stream_witness :
  ∃ r fs',
    StatusUpdateStream.recover isTerminalState io_ok 1 (getPath 1) true
      (StreamLife.disk life_torn)
    = Some (r, fs')
    ∧ r ≠ RError ReadFailed.
Proof.
  destruct (recovery_accepts_the_files_of_the_stream isTerminalState 1%nat (getPath 1)
              life_torn_ops fs0 life_torn io_ok true)
    as (r & fs' & Hrecover & Hok);
    [vm_compute; reflexivity|vm_compute; reflexivity|vm_compute; eexists; reflexivity
    |reflexivity..|].
  exists r, fs'. split; [exact Hrecover|apply Hok].
Defined.

Lemma recovery_is_idempotent_witness :
  ∃ s st fs',
    StatusUpdateStream.recover isTerminalState io_ok 1 (getPath 1) false fs_corrupt
      = Some (RSome (s, st), fs')
    ∧ StatusUpdateStream.state_error st = true
    ∧ StatusUpdateStream.recover isTerminalState io_ok 1 (getPath 1) true fs'
      = Some (RSome (s, StatusUpdateStream.mkState (StatusUpdateStream.updates st) false
                          (StatusUpdateStream.state_terminated st)),
              fs').
Proof.
  eexists _, _, _. split; [vm_compute; reflexivity|]. split; [reflexivity|].
  apply (recovery_is_idempotent isTerminalState 1%nat (getPath 1) io_ok io_ok false true
           fs_corrupt);
    [vm_compute; reflexivity|reflexivity..].
Defined.

Lemma failed_strict_recovery_repairs_the_file_witness :
  ∃ fs' r fs'',
    StatusUpdateStream.recover isTerminalState io_ok 1 (getPath 1) true fs_corrupt
      = Some (RError ReadFailed, fs')
    ∧ files fs' !! getPath 1 = Some [Good (RecUpdate uA)]
    ∧ StatusUpdateStream.recover isTerminalState io_ok 1 (getPath 1) true fs' = Some (r, fs'')
    ∧ r ≠ RError ReadFailed.
Proof.
  eexists.
  destruct (failed_strict_recovery_repairs_the_file isTerminalState 1%nat (getPath 1)
              io_ok io_ok fs_corrupt
              (mkFS {[ getPath 1 := [Good (RecUpdate uA)] ]} {[ ["meta"; "streams"] ]}))
    as [(chunks & Hchunks & Hfile) (r & fs'' & Hagain & Hok)];
    [vm_compute; reflexivity|reflexivity..|].
  exists r, fs''. split; [vm_compute; reflexivity|].
  split; [vm_compute; reflexivity|]. split; [exact Hagain|apply Hok].
Defined.

Lemma first_update_creates_the_stream_witness :
  ∃ m',
    update isTerminalState getPath RETRY_MIN io_ok uA 1 true (init 0 fs0) = Some (Val (), m')
    ∧ streams m' !! 1%nat
      = Some (StatusUpdateStream.mk false (Some "F") (Some RETRY_MIN) [uA] 1%nat
                (Some (getPath 1)) {[1%N]} ∅ None)
    ∧ forwarded m' = [uA]
    ∧ files (fs m') !! getPath 1 = Some [Good (RecUpdate uA)].
Proof.
  pose proof (first_update_creates_the_stream isTerminalState getPath RETRY_MIN
                io_ok uA 1%N 1%nat true (init 0 fs0) eq_refl eq_refl) as H.
  cbv zeta in H.
  destruct (StatusUpdateStream.create io_ok 1 (framework_id uA) (Some (getPath 1))
              (fs (init 0 fs0))) as [[e|s0] fs1] eqn:Hc.
  { vm_compute in Hc. discriminate Hc. }
  destruct H as (m' & Hm' & Hs & _ & _ & Hf & _ & Hfile); [reflexivity|].
  exists m'. split; [exact Hm'|]. split; [exact Hs|]. split; [exact Hf|].
  apply Hfile. reflexivity.
Defined.

Lemma first_update_refused_when_the_file_exists_witness :
  update isTerminalState getPath RETRY_MIN io_ok uA 1 true m_before_recovery
  = Some (Err AlreadyExists, m_before_recovery).
Proof.
  apply (first_update_refused_when_the_file_exists isTerminalState getPath RETRY_MIN).
  - reflexivity.
  - vm_compute. reflexivity.
Defined.

Lemma refused_acknowledgement_changes_nothing_witness :
  acknowledgement isTerminalState RETRY_MIN io_ok 1 9%N m_one = Some (Err DuplicateAck, m_one).
Proof.
  destruct (refused_acknowledgement_changes_nothing isTerminalState RETRY_MIN
              io_ok 1%nat 9%N m_one (stream_of 1 m_one)) as (_ & _ & Hother).
  - vm_compute. reflexivity.
  - reflexivity.
  - apply (Hother uA [] 1%N); [vm_compute; reflexivity|reflexivity|discriminate].
Defined.

Lemma update_forwards_only_a_sole_pending_update_witness :
  ∃ m',
    update isTerminalState getPath RETRY_MIN io_ok uB 1 true m_one = Some (Val (), m')
    ∧ ((forwarded m' = forwarded m_one ∧ timers m' = timers m_one)
       ∨ (Val () = Val () ∧ paused m_one = false
          ∧ forwarded m' = forwarded m_one ++ [uB]
          ∧ timers m' = timers m_one ++ [mkTimer (clock m_one + RETRY_MIN)%Z 1 RETRY_MIN]
          ∧ ∃ s', streams m' !! 1%nat = Some s'
                  ∧ StatusUpdateStream.pending s' = [uB]
                  ∧ StatusUpdateStream.timeout s' = Some (clock m_one + RETRY_MIN)%Z)).
Proof.
  eexists. split; [vm_compute; reflexivity|].
  apply (update_forwards_only_a_sole_pending_update isTerminalState getPath RETRY_MIN
           io_ok uB 1%nat true m_one).
  vm_compute. reflexivity.
Defined.

Lemma acknowledgement_forwards_only_the_next_update_witness :
  ∃ m',
    acknowledgement isTerminalState RETRY_MIN io_ok 1 1%N m_queue = Some (Val true, m')
    ∧ ((forwarded m' = forwarded m_queue ∧ timers m' = timers m_queue)
       ∨ (Val true = Val true ∧ paused m_queue = false
          ∧ ∃ s h n q s',
              streams m_queue !! 1%nat = Some s
              ∧ StatusUpdateStream.pending s = h :: n :: q
              ∧ status_uuid h = Some 1%N
              ∧ forwarded m' = forwarded m_queue ++ [n]
              ∧ timers m' = timers m_queue
                            ++ [mkTimer (clock m_queue + RETRY_MIN)%Z 1 RETRY_MIN]
              ∧ streams m' !! 1%nat = Some s'
              ∧ StatusUpdateStream.pending s' = n :: q
              ∧ StatusUpdateStream.timeout s' = Some (clock m_queue + RETRY_MIN)%Z)).
Proof.
  eexists. split; [vm_compute; reflexivity|].
  apply (acknowledgement_forwards_only_the_next_update isTerminalState RETRY_MIN
           io_ok 1%nat 1%N m_queue).
  vm_compute. reflexivity.
Defined.

Lemma recovered_stream_is_registered_witness :
  ∃ m',
    recoverStatusUpdateStream isTerminalState getPath RETRY_MIN io_ok 1 true
      m_before_open_recovery
    = Some (RSome (StatusUpdateStream.mkState [uA] false false), m')
    ∧ (1%nat ∈ streams_of "F" (frameworkStreams m'))
    ∧ forwarded m' = [uA].
Proof.
  destruct (recovered_stream_is_registered isTerminalState getPath RETRY_MIN
              io_ok 1%nat true m_before_open_recovery
              (StatusUpdateStream.mk false (Some "F") None [uA] 1%nat (Some (getPath 1))
                 {[1%N]} ∅ None)
              (StatusUpdateStream.mkState [uA] false false) fs_open)
    as (m' & Hm' & _ & Hidx & Hf & _).
  - vm_compute. reflexivity.
  - reflexivity.
  - exists m'. split; [exact Hm'|]. split; [by apply Hidx|exact Hf].
Defined.

Lemma timer_expiry_passes_its_check_witness :
  is_Some (timeout RETRY_MAX 1 RETRY_MIN m_due).
Proof.
  apply (timer_expiry_passes_its_check isTerminalState getPath RETRY_MIN RETRY_MAX).
  - apply m_run_reachable with (es := [EUpdate io_ok uA 1 false; ETick RETRY_MIN]).
    vm_compute. reflexivity.
  - intros s Hs. vm_compute in Hs. injection Hs as <-. reflexivity.
Defined.


Lemma refused_update_changes_nothing_witness :
  ∃ m',
    update isTerminalState getPath RETRY_MIN io_ok uA 1 false m_one
      = Some (Err MismatchedCheckpoint, m')
    ∧ m' = m_one.
Proof.
  eexists. split; [vm_compute; reflexivity|].
  apply (refused_update_changes_nothing isTerminalState getPath RETRY_MIN
           io_ok uA 1%nat false m_one (stream_of 1 m_one) MismatchedCheckpoint).
  - vm_compute. reflexivity.
  - vm_compute. reflexivity.
  - left. reflexivity.
Defined.

End Witnesses.
